(** * NeighborAEV: the neighbor-list AEV computer of torchani

  A shallow embedding of [torchani/neighboraev.py].  Tensors of reals are
  nested lists over [R]; the arithmetic is exact real arithmetic, so the
  rounding of float32 is outside this development.  A value that a float
  computation would leave non-finite (NaN from 0/0 or from acos outside
  [-1,1], infinity from a negative power of 0) is [None] in [option R];
  a Python exception (IndexError, torch's RuntimeError) is [None] in the
  option monad of the call. *)

From Stdlib Require Import Reals Lra Lia ZArith.
From stdpp Require Import base option list sorting gmap strings.

(** ** Scalars and three-vectors *)

#[global] Instance Rle_decision (x y : R) : Decision (x <= y)%R := Rle_dec x y.
#[global] Instance Rlt_decision (x y : R) : Decision (x < y)%R := Rlt_dec x y.
#[global] Instance Req_decision : EqDecision R := Req_dec_T.

Section Scalars.
Local Open Scope R_scope.

(** The last axis of a coordinate tensor always has size 3. *)
Record vec3 := Vec3 { vx : R; vy : R; vz : R }.

Definition vsub (a b : vec3) : vec3 :=
  Vec3 (vx a - vx b) (vy a - vy b) (vz a - vz b).

(** [torch.sum(v ** 2, dim=-1)] *)
Definition sum_sq (v : vec3) : R := vx v ^ 2 + vy v ^ 2 + vz v ^ 2.

(** [torch.sqrt(torch.sum(v ** 2, dim=-1))] *)
Definition norm (v : vec3) : R := sqrt (sum_sq v).

(** [torch.sum(u * v, dim=-1)] *)
Definition inner (u v : vec3) : R := vx u * vx v + vy u * vy v + vz u * vz v.

(** Euclidean distance between two positions. *)
Definition distance (a b : vec3) : R := norm (vsub b a).

(** Modelled from the spec: [AEV._cutoff_cosine] of [torchani/torchaev.py],
    which is not among the sources; the spec gives
    fc(r, Rc) = 0.5 cos(pi r / Rc) + 0.5 for r <= Rc, else 0. *)
Definition _cutoff_cosine (distances cutoff : R) : R :=
  if decide (distances <= cutoff)
  then 0.5 * cos (PI * distances / cutoff) + 0.5
  else 0.

(** Division of floats: a zero denominator leaves NaN or an infinity. *)
Definition xdiv (a b : R) : option R :=
  if decide (b = 0) then None else Some (a / b).

(** [torch.acos]: NaN outside [-1, 1] and on NaN. *)
Definition xacos (x : option R) : option R :=
  c ← x; if decide (-1 <= c <= 1) then Some (acos c) else None.

(** [base ** zeta] on floats.  [pow(x, 0)] is 1 for every [x], NaN
    included; [pow(0, z)] is 0 for [z > 0] and infinite for [z < 0]; a
    positive base has the real power; a negative base (never produced by
    [(1 + cos _) / 2]) is taken to be non-finite. *)
Definition xpow (base : option R) (zeta : R) : option R :=
  if decide (zeta = 0) then Some 1
  else b ← base;
       if decide (b = 0) then (if decide (0 < zeta) then Some 0 else None)
       else if decide (0 < b) then Some (Rpower b zeta)
       else None.

(** Sums along an axis. *)
Definition Rsum (l : list R) : R := foldr Rplus 0 l.

Definition xadd (a b : option R) : option R := x ← a; y ← b; Some (x + y).

Definition xsum (l : list (option R)) : option R := foldr xadd (Some 0) l.

End Scalars.

Definition Zsum (l : list Z) : Z := foldr Z.add 0%Z l.

(** ** Tensors

    A tensor of shape (d0, d1, ...) is a record of its two leading sizes
    and its rows; the sizes are part of the value, as [t.shape] is. *)

Definition tabulate {T} (n : nat) (f : nat → T) : list T := f <$> seq 0 n.

Record tensor (T : Type) :=
  Tensor { shape0 : nat; shape1 : nat; rows : list (list T) }.
Arguments Tensor {T} _ _ _.
Arguments shape0 {T} _.
Arguments shape1 {T} _.
Arguments rows {T} _.

(** Every torch tensor is rectangular. *)
Definition tensor_wf {T} (t : tensor T) : Prop :=
  length (rows t) = shape0 t ∧ Forall (λ r, length r = shape1 t) (rows t).

Definition vzero : vec3 := Vec3 0 0 0.

(** [t[:, i, :]] *)
Definition select1 (t : tensor vec3) (i : nat) : list vec3 :=
  (λ r, nth i r vzero) <$> rows t.

(** [t.index_select(1, indices)] *)
Definition index_select (t : tensor vec3) (indices : list nat) : tensor vec3 :=
  Tensor (shape0 t) (length indices)
         ((λ r, (λ j, nth j r vzero) <$> indices) <$> rows t).

(** [row.nonzero().view(-1)]: the indices of the non-zero entries, ascending. *)
Definition nonzero (row : list Z) : list nat :=
  filter (λ j, nth j row 0%Z ≠ 0%Z) (seq 0 (length row)).

(** [t.view(-1, k1, k2, ...)] keeps the data.  torch infers the size
    written -1 from the number of elements and raises a RuntimeError when
    the sizes that are given multiply to 0; [known] is that product. *)
Definition view_infer {T} (known : nat) (t : T) : option T :=
  if decide (known = 0) then None else Some t.

(** [torch.cat(blocks, dim=1)] of matrices with the same number of rows;
    an empty list of tensors is a RuntimeError. *)
Definition torch_cat1 {T} (blocks : list (list (list T))) : option (list (list T)) :=
  match blocks with
  | [] => None
  | b :: _ => Some (tabulate (length b) (λ n, concat ((λ x, nth n x []) <$> blocks)))
  end.

(** [torch.stack(mats, dim=1)] of matrices of one shape; an empty list of
    tensors is a RuntimeError. *)
Definition torch_stack1 {T} (mats : list (list (list T))) : option (list (list (list T))) :=
  match mats with
  | [] => None
  | m :: _ => Some (tabulate (length m) (λ n, (λ x, nth n x []) <$> mats))
  end.

(** [torch.zeros(r, c)] *)
Definition zeros (r c : nat) : list (list R) := replicate r (replicate c 0%R).

(** The same tensor in the angular path, whose entries may be non-finite. *)
Definition xzeros (r c : nat) : list (list (option R)) :=
  replicate r (replicate c (Some 0%R)).

(** [itertools.combinations_with_replacement(l, 2)] *)
Fixpoint combinations_with_replacement {T} (l : list T) : list (T * T) :=
  match l with
  | [] => []
  | x :: t => (pair x <$> (x :: t)) ++ combinations_with_replacement t
  end.

(** Modelled from the spec: [_utils.combinations(t, 2, dim=1, newdim=2)] of
    [torchani/_utils.py], which is not among the sources: all 2-element
    combinations without repetition and without order, along axis 1. *)
Fixpoint combinations2 {T} (l : list T) : list (T * T) :=
  match l with
  | [] => []
  | x :: t => (pair x <$> t) ++ combinations2 t
  end.

Definition combinations {T} (t : tensor T) : tensor (T * T) :=
  Tensor (shape0 t) (shape1 t * (shape1 t - 1) / 2) (combinations2 <$> rows t).

(** Modelled from the spec: [_utils.cartesian_prod(a, b, dim=1, newdim=2)]
    of [torchani/_utils.py], which is not among the sources: every entry of
    [a] paired with every entry of [b], along axis 1. *)
Definition cartesian_prod2 {T} (a b : list T) : list (T * T) :=
  x ← a; pair x <$> b.

Definition cartesian_prod {T} (a b : tensor T) : tensor (T * T) :=
  Tensor (shape0 a) (shape1 a * shape1 b)
         (zip_with cartesian_prod2 (rows a) (rows b)).

(** ** The engine *)

(** [self.constants] *)
Record constants := Constants {
  Rcr : R; Rca : R;
  EtaR : list R; ShfR : list R;
  EtaA : list R; Zeta : list R; ShfA : list R; ShfZ : list R }.

(** [self]: the constants and the species vocabulary [self.species]. *)
Record NeighborAEV := Build_NeighborAEV {
  self_constants : constants;
  self_species : list string }.

(** Modelled from the spec: [per_species_radial_length] of the base class
    [AEVComputer] ([torchani/aev_base.py], not among the sources). *)
Definition per_species_radial_length (self : NeighborAEV) : nat :=
  length (EtaR (self_constants self)) * length (ShfR (self_constants self)).

(** Modelled from the spec: [per_species_angular_length] of the base class
    [AEVComputer] ([torchani/aev_base.py], not among the sources). *)
Definition per_species_angular_length (self : NeighborAEV) : nat :=
  length (EtaA (self_constants self)) * length (Zeta (self_constants self)) *
  length (ShfA (self_constants self)) * length (ShfZ (self_constants self)).

(** ** [radial_subaev] *)

(** [torch.sum(ret, dim=1)] of one conformation's (N, E, S) tensor. *)
Definition sum_dim1_radial (E S : nat) (t : list (list (list R))) : list (list R) :=
  tabulate E (λ e, tabulate S (λ s, Rsum ((λ m, nth s (nth e m []) 0%R) <$> t))).

Definition radial_subaev (self : NeighborAEV) (center : list vec3)
    (neighbors : tensor vec3) : option (list (list R)) :=
  let K := self_constants self in
  let atoms := shape1 neighbors in
  let Rij_vec : list (list vec3) :=
    zip_with (λ c (r : list vec3), (λ x, vsub x c) <$> r) center (rows neighbors) in
  let distances : list (list R) := (λ r : list vec3, norm <$> r) <$> Rij_vec in
  distances ← view_infer atoms distances;
  let fc : list (list R) := (λ r : list R, (λ d, _cutoff_cosine d (Rcr K)) <$> r) <$> distances in
  let eta := EtaR K in
  let radius_shift := ShfR K in
  let ret : list (list (list (list R))) :=
    zip_with (zip_with (λ d f,
      (λ e, (λ sh, 0.25 * exp (- e * (d - sh) ^ 2) * f)%R <$> radius_shift) <$> eta))
      distances fc in
  let ret := sum_dim1_radial (length eta) (length radius_shift) <$> ret in
  view_infer (per_species_radial_length self) ((λ t, concat t) <$> ret).

(** ** [angular_subaev] *)

(** [torch.sum(ret, dim=1)] of one conformation's (N, EtaA, Zeta, ShfA, ShfZ)
    tensor. *)
Definition sum_dim1_angular (E Z A S : nat)
    (t : list (list (list (list (list (option R)))))) : list (list (list (list (option R)))) :=
  tabulate E (λ e, tabulate Z (λ z, tabulate A (λ a, tabulate S (λ s,
    xsum ((λ m, nth s (nth a (nth z (nth e m []) []) []) None) <$> t))))).

Definition angular_subaev (self : NeighborAEV) (center : list vec3)
    (neighbors : tensor (vec3 * vec3)) : option (list (list (option R))) :=
  let K := self_constants self in
  let pairs := shape1 neighbors in
  let Rij_vec : list (list (vec3 * vec3)) :=
    zip_with (λ c (r : list (vec3 * vec3)), (λ p, (vsub p.1 c, vsub p.2 c)) <$> r)
             center (rows neighbors) in
  let R_distances : list (list (R * R)) :=
    (λ r : list (vec3 * vec3), (λ p, (norm p.1, norm p.2)) <$> r) <$> Rij_vec in
  let Rijk_distance_prods : list (list R) :=
    (λ r : list (R * R), (λ d, d.1 * d.2)%R <$> r) <$> R_distances in
  let Rijk_inner_prods : list (list R) :=
    (λ r : list (vec3 * vec3), (λ p, inner p.1 p.2) <$> r) <$> Rij_vec in
  let cos_angles : list (list (option R)) :=
    zip_with (zip_with (λ ip dp, xdiv (0.95 * ip) dp))
             Rijk_inner_prods Rijk_distance_prods in
  let angles : list (list (option R)) := (λ r : list (option R), xacos <$> r) <$> cos_angles in
  angles ← view_infer pairs angles;
  Rij ← view_infer (pairs * 2) R_distances;
  let fcj : list (list (R * R)) :=
    (λ r : list (R * R),
       (λ d, (_cutoff_cosine d.1 (Rca K), _cutoff_cosine d.2 (Rca K))) <$> r) <$> Rij in
  let eta := EtaA K in
  let zeta := Zeta K in
  let radius_shifts := ShfA K in
  let angle_shifts := ShfZ K in
  let ret : list (list (list (list (list (list (option R)))))) :=
    zip_with (λ ang_row dfc_row, zip_with (λ (ang : option R) (dfc : (R * R) * (R * R)),
      (λ e, (λ z, (λ rs, (λ zs,
         p ← xpow ((λ a, (1 + cos (a - zs)) / 2)%R <$> ang) z;
         Some (2 * p * exp (- e * ((dfc.1.1 + dfc.1.2) / 2 - rs) ^ 2)
                 * dfc.2.1 * dfc.2.2)%R)
         <$> angle_shifts) <$> radius_shifts) <$> zeta) <$> eta)
      ang_row dfc_row)
      angles (zip_with zip Rij fcj) in
  let ret := sum_dim1_angular (length eta) (length zeta) (length radius_shifts)
                              (length angle_shifts) <$> ret in
  view_infer (per_species_angular_length self)
             ((λ t, concat (concat (concat t))) <$> ret).

(** ** [__call__] *)

(** [coordinates.unsqueeze(1) - coordinates.unsqueeze(2)]: entry (N, i, j)
    is the vector from atom i to atom j in conformation N. *)
Definition R_vecs (coordinates : tensor vec3) : list (list (list vec3)) :=
  (λ conf : list vec3, (λ ci, (λ cj, vsub cj ci) <$> conf) <$> conf) <$> rows coordinates.

Definition R_distances (coordinates : tensor vec3) : list (list (list R)) :=
  (λ m : list (list vec3), (λ r : list vec3, norm <$> r) <$> m) <$> R_vecs coordinates.

(** [torch.sum(mask, dim=0)]; the sum of a uint8 tensor is an int64 tensor,
    which a batch cannot overflow. *)
Definition sum_dim0 (atoms : nat) (t : list (list (list Z))) : list (list Z) :=
  tabulate atoms (λ i, tabulate atoms (λ j,
    Zsum ((λ m, nth j (nth i m []) 0%Z) <$> t))).

(** [1 - torch.eye(atoms)] *)
Definition one_minus_eye (atoms : nat) : list (list Z) :=
  tabulate atoms (λ i, tabulate atoms (λ j,
    (1 - (if decide (i = j) then 1 else 0))%Z)).

(** Lines 153-156 and 157-160: the atoms inside a cutoff radius. *)
Definition in_cutoff (atoms : nat) (dists : list (list (list R))) (cutoff : R)
    : list (list Z) :=
  let m : list (list (list Z)) :=
    (λ m : list (list R), (λ r : list R,
       (λ d, if decide (d <= cutoff)%R then 1%Z else 0%Z) <$> r) <$> m) <$> dists in
  let m : list (list Z) := sum_dim0 atoms m in
  let m : list (list Z) := 
    (λ r : list Z, (λ z, if decide (0 < z)%Z then 1%Z else 0%Z) <$> r) <$> m in
  zip_with (zip_with Z.mul) m (one_minus_eye atoms).

(** One iteration of the loop of lines 167-171; [species[i]] raises
    IndexError beyond the end of [species]. *)
Definition species_selectors_step (atoms : nat) (species : list string)
    (acc : option (gmap string (list Z))) (i : nat) : option (gmap string (list Z)) :=
  m ← acc;
  s ← species !! i;
  let m := match m !! s with
           | None => <[s := replicate atoms 0%Z]> m
           | Some _ => m
           end in
  Some (alter (λ sel, <[i := 1%Z]> sel) s m).

Definition species_selectors (atoms : nat) (species : list string)
    : option (gmap string (list Z)) :=
  foldl (species_selectors_step atoms species) (Some ∅) (seq 0 atoms).

(** Lines 177-180: [mask * selector.unsqueeze(0)] for both cutoffs. *)
Definition species_neighbors (in_Rcr in_Rca : list (list Z))
    (selectors : gmap string (list Z)) : gmap string (list (list Z) * list (list Z)) :=
  (λ selector, ((λ row, zip_with Z.mul row selector) <$> in_Rcr,
                (λ row, zip_with Z.mul row selector) <$> in_Rca)) <$> selectors.

(** The body of the loop over [self.species], lines 189-202. *)
Definition radial_block (self : NeighborAEV) (coordinates : tensor vec3)
    (sn : gmap string (list (list Z) * list (list Z))) (i : nat) (s : string)
    : option (list (list R)) :=
  match sn !! s with
  | Some nb =>
      let indices := nonzero (nth i nb.1 []) in
      if decide (0 < length indices) then
        let neighbors := index_select coordinates indices in
        radial_subaev self (select1 coordinates i) neighbors
      else Some (zeros (shape0 coordinates) (per_species_radial_length self))
  | None => Some (zeros (shape0 coordinates) (per_species_radial_length self))
  end.

(** Lines 183-205. *)
Definition radial_aevs (self : NeighborAEV) (coordinates : tensor vec3)
    (sn : gmap string (list (list Z) * list (list Z))) : option (list (list (list R))) :=
  l ← mapM (λ i, radial_aev ← mapM (radial_block self coordinates sn i) (self_species self);
                 torch_cat1 radial_aev)
           (seq 0 (shape1 coordinates));
  torch_stack1 l.

(** The neighbor pairs selected in lines 214-232 and 236-237; [None] is
    the flag [is_zero]. *)
Definition angular_neighbors (coordinates : tensor vec3)
    (sn : gmap string (list (list Z) * list (list Z))) (i : nat) (jk : string * string)
    : option (tensor (vec3 * vec3)) :=
  match sn !! jk.1, sn !! jk.2 with
  | Some nj, Some nk =>
      let indices_j := nonzero (nth i nj.2 []) in
      let neighbors_j := index_select coordinates indices_j in
      if decide (jk.1 ≠ jk.2 ∧ 0 < length indices_j) then
        let indices_k := nonzero (nth i nk.2 []) in
        let neighbors_k := index_select coordinates indices_k in
        if decide (0 < length indices_k)
        then Some (cartesian_prod neighbors_j neighbors_k)
        else None
      else if decide (1 < length indices_j)
      then Some (combinations neighbors_j)
      else None
  | _, _ => None
  end.

(** The body of the loop over the species pairs, lines 214-240. *)
Definition angular_block (self : NeighborAEV) (coordinates : tensor vec3)
    (sn : gmap string (list (list Z) * list (list Z))) (i : nat) (jk : string * string)
    : option (list (list (option R))) :=
  match angular_neighbors coordinates sn i jk with
  | Some neighbors => angular_subaev self (select1 coordinates i) neighbors
  | None => Some (xzeros (shape0 coordinates) (per_species_angular_length self))
  end.

(** Lines 208-243. *)
Definition angular_aevs (self : NeighborAEV) (coordinates : tensor vec3)
    (sn : gmap string (list (list Z) * list (list Z)))
    : option (list (list (list (option R)))) :=
  l ← mapM (λ i, angular_aev ← mapM (angular_block self coordinates sn i)
                                 (combinations_with_replacement (self_species self));
                 torch_cat1 angular_aev)
           (seq 0 (shape1 coordinates));
  torch_stack1 l.

Definition NeighborAEV_call (self : NeighborAEV) (coordinates : tensor vec3)
    (species : list string)
    : option (list (list (list R)) * list (list (list (option R)))) :=
  let K := self_constants self in
  let atoms := shape1 coordinates in
  let dists := R_distances coordinates in
  let in_Rcr := in_cutoff atoms dists (Rcr K) in
  let in_Rca := in_cutoff atoms dists (Rca K) in
  selectors ← species_selectors atoms species;
  let sn := species_neighbors in_Rcr in_Rca selectors in
  radial ← radial_aevs self coordinates sn;
  angular ← angular_aevs self coordinates sn;
  Some (radial, angular).

(** ** Notions used by the statements *)

(** Position of atom [i] in conformation [n]. *)
Definition coord (c : tensor vec3) (n i : nat) : vec3 :=
  nth i (nth n (rows c) []) vzero.

(** Atom [j] is another atom than [i] and lies within [cutoff] of it in at
    least one conformation of the batch. *)
Definition adjacent (c : tensor vec3) (cutoff : R) (i j : nat) : Prop :=
  i ≠ j ∧
  Exists (λ conf, (distance (nth i conf vzero) (nth j conf vzero) <= cutoff)%R) (rows c).

#[global] Instance adjacent_dec c cutoff i j : Decision (adjacent c cutoff i j).
Proof. unfold adjacent. apply _. Defined.

(** The neighbors of atom [i] that carry the label [s], in ascending order. *)
Definition neighbors_of (c : tensor vec3) (species : list string) (cutoff : R)
    (i : nat) (s : string) : list nat :=
  filter (λ j, adjacent c cutoff i j ∧ species !! j = Some s) (seq 0 (shape1 c)).

(** The index pairs of a species pair. *)
Definition pairs_of (c : tensor vec3) (species : list string) (cutoff : R)
    (i : nat) (jk : string * string) : list (nat * nat) :=
  if decide (jk.1 = jk.2)
  then combinations2 (neighbors_of c species cutoff i jk.1)
  else cartesian_prod2 (neighbors_of c species cutoff i jk.1)
                       (neighbors_of c species cutoff i jk.2).

(** One summand of the radial symmetry function. *)
Definition radial_term (K : constants) (eta shf d : R) : R :=
  (0.25 * exp (- eta * (d - shf) ^ 2) * _cutoff_cosine d (Rcr K))%R.

Definition radial_row (K : constants) (center : vec3) (nbrs : list vec3) : list R :=
  concat ((λ e, (λ sh, Rsum ((λ x, radial_term K e sh (distance center x)) <$> nbrs))
                  <$> ShfR K) <$> EtaR K).

(** The angle enclosed at the center, as the code computes it. *)
Definition enclosed_angle (u v : vec3) : option R :=
  xacos (xdiv (0.95 * inner u v) (norm u * norm v)).

(** One summand of the angular symmetry function. *)
Definition angular_term (K : constants) (eta zeta shfa shfz : R) (center : vec3)
    (p : vec3 * vec3) : option R :=
  let d1 := distance center p.1 in
  let d2 := distance center p.2 in
  w ← xpow ((λ a, (1 + cos (a - shfz)) / 2)%R
             <$> enclosed_angle (vsub p.1 center) (vsub p.2 center)) zeta;
  Some (2 * w * exp (- eta * ((d1 + d2) / 2 - shfa) ^ 2)
          * _cutoff_cosine d1 (Rca K) * _cutoff_cosine d2 (Rca K))%R.

Definition angular_row (K : constants) (center : vec3) (pairs : list (vec3 * vec3))
    : list (option R) :=
  concat (concat (concat ((λ e, (λ z, (λ rs, (λ zs,
    xsum (angular_term K e z rs zs center <$> pairs))
    <$> ShfZ K) <$> ShfA K) <$> Zeta K) <$> EtaA K))).

(** The selector of label [s] once the first [k] atoms are processed. *)
Definition selector_upto (atoms : nat) (species : list string) (k : nat) (s : string)
    : list Z :=
  tabulate atoms (λ j, if decide (j < k ∧ species !! j = Some s) then 1%Z else 0%Z).

(** Positions of the listed atoms in one conformation. *)
Definition gather (conf : list vec3) (idx : list nat) : list vec3 :=
  (λ j, nth j conf vzero) <$> idx.

Definition gather2 (conf : list vec3) (idx : list (nat * nat)) : list (vec3 * vec3) :=
  (λ p, (nth p.1 conf vzero, nth p.2 conf vzero)) <$> idx.

(** The radial block of atom [i] and label [s] in one conformation. *)
Definition radial_block_row (self : NeighborAEV) (c : tensor vec3)
    (species : list string) (conf : list vec3) (i : nat) (s : string) : list R :=
  radial_row (self_constants self) (nth i conf vzero)
    (gather conf (neighbors_of c species (Rcr (self_constants self)) i s)).

(** The angular block of atom [i] and the label pair [jk] in one
    conformation. *)
Definition angular_block_row (self : NeighborAEV) (c : tensor vec3)
    (species : list string) (conf : list vec3) (i : nat) (jk : string * string)
    : list (option R) :=
  angular_row (self_constants self) (nth i conf vzero)
    (gather2 conf (pairs_of c species (Rca (self_constants self)) i jk)).

(** The two results of a call, block by block. *)
Definition radial_expected (self : NeighborAEV) (c : tensor vec3)
    (species : list string) : list (list (list R)) :=
  (λ conf, (λ i, concat ((λ s, radial_block_row self c species conf i s)
                           <$> self_species self))
             <$> seq 0 (shape1 c)) <$> rows c.

Definition angular_expected (self : NeighborAEV) (c : tensor vec3)
    (species : list string) : list (list (list (option R))) :=
  (λ conf, (λ i, concat ((λ jk, angular_block_row self c species conf i jk)
                           <$> combinations_with_replacement (self_species self)))
             <$> seq 0 (shape1 c)) <$> rows c.

(** The real power [b ^ z] of a base [b >= 0] with exponent [z > 0]. *)
Definition real_pow (b z : R) : R := if decide (b = 0%R) then 0%R else Rpower b z.

(** Conformation [n] of a batch as a batch of its own. *)
Definition conformation_alone (c : tensor vec3) (n : nat) : tensor vec3 :=
  Tensor 1 (shape1 c) [nth n (rows c) []].

(** Binomial coefficients. *)
Fixpoint binom (n k : nat) : nat :=
  match n, k with
  | _, 0 => 1
  | 0, S _ => 0
  | S n', S k' => binom n' k' + binom n' (S k')
  end.

(** A nested list has the shape (B, A, L). *)
Definition has_shape {T} (B A L : nat) (t : list (list (list T))) : Prop :=
  length t = B ∧
  Forall (λ m, length m = A ∧ Forall (λ v, length v = L) m) t.

(** A usable engine: its vocabulary and its constant sets are not empty. *)
Definition engine_ok (self : NeighborAEV) : Prop :=
  0 < length (self_species self) ∧
  0 < per_species_radial_length self ∧
  0 < per_species_angular_length self.

(** The input is a rectangular tensor over at least one atom, with one
    label per atom. *)
Definition valid_input (coordinates : tensor vec3) (species : list string) : Prop :=
  tensor_wf coordinates ∧ 0 < shape1 coordinates ∧
  length species = shape1 coordinates.

(** ** Concrete engines and inputs *)

(** Scenario A of the specification: two hydrogen atoms at distance 1,
    EtaR = {16}, ShfR = {1}, Rcr = 5. *)
Definition scenario_A_constants : constants :=
  Constants 5 5 [16%R] [1%R] [8%R] [1%R] [1%R] [0%R].

Definition scenario_A_engine : NeighborAEV :=
  Build_NeighborAEV scenario_A_constants ["H"%string].

Definition scenario_A_coordinates : tensor vec3 :=
  Tensor 1 2 [[Vec3 0 0 0; Vec3 1 0 0]].

Definition scenario_A_species : list string := ["H"; "H"]%string.


(** An engine without species, one without radial widths, and an input
    without atoms. *)
Definition no_species_engine : NeighborAEV :=
  Build_NeighborAEV scenario_A_constants [].

Definition no_EtaR_engine : NeighborAEV :=
  Build_NeighborAEV (Constants 5 5 [] [1%R] [8%R] [1%R] [1%R] [0%R]) ["H"%string].

Definition no_atoms_coordinates : tensor vec3 := Tensor 1 0 [[]].

(** Three hydrogen atoms in two conformations.  In the first, atom 1 sits
    on atom 0 and atom 2 is out of range; in the second, all are in range. *)
Definition overlap_first : list vec3 := [Vec3 0 0 0; Vec3 0 0 0; Vec3 10 0 0].

Definition overlap_second : list vec3 := [Vec3 0 0 0; Vec3 0 1 0; Vec3 1 0 0].

Definition overlap_batch : tensor vec3 := Tensor 2 3 [overlap_first; overlap_second].

Definition overlap_alone : tensor vec3 := Tensor 1 3 [overlap_first].

Definition overlap_species : list string := ["H"; "H"; "H"]%string.

(** Three hydrogen atoms at a right angle seen from atom 0; atom 2 is
    out of range in the first conformation and in range in the second. *)
Definition right_angle_first : list vec3 := [Vec3 0 0 0; Vec3 1 0 0; Vec3 0 10 0].

Definition right_angle_second : list vec3 := [Vec3 0 0 0; Vec3 1 0 0; Vec3 0 1 0].

Definition right_angle_batch : tensor vec3 :=
  Tensor 2 3 [right_angle_first; right_angle_second].

(** An engine with a negative Zeta exponent and the angle shift -pi/2. *)
Definition negative_zeta_engine : NeighborAEV :=
  Build_NeighborAEV (Constants 5 5 [16%R] [1%R] [8%R] [(-1)%R] [1%R] [(- (PI / 2))%R])
                    ["H"%string].


(** ** Operations on inputs and results *)

(** A tensor of neighbor pairs with the two atoms of every pair exchanged. *)
Definition swap_pairs (t : tensor (vec3 * vec3)) : tensor (vec3 * vec3) :=
  Tensor (shape0 t) (shape1 t) ((λ r : list (vec3 * vec3), prod_swap <$> r) <$> rows t).

(** [torch.cat([a, b], dim=1)] of two neighbor tensors over the same
    conformations. *)
Definition cat_neighbors {T} (a b : tensor T) : tensor T :=
  Tensor (shape0 a) (shape1 a + shape1 b) (zip_with app (rows a) (rows b)).

(** Every position of a coordinate tensor moved by [g]. *)
Definition transform (g : vec3 → vec3) (c : tensor vec3) : tensor vec3 :=
  Tensor (shape0 c) (shape1 c) ((λ conf : list vec3, g <$> conf) <$> rows c).

(** [g] keeps the inner products of the difference vectors, as a
    translation, a rotation and a reflection do. *)
Definition rigid_motion (g : vec3 → vec3) : Prop :=
  ∀ a b o, inner (vsub (g a) (g o)) (vsub (g b) (g o)) = inner (vsub a o) (vsub b o).

(** The translation by the vector [t]. *)
Definition translation (t x : vec3) : vec3 :=
  Vec3 (vx x + vx t) (vy x + vy t) (vz x + vz t).

(** The rotation about the z axis by the angle [theta]. *)
Definition rotation_z (theta : R) (x : vec3) : vec3 :=
  Vec3 (cos theta * vx x - sin theta * vy x) (sin theta * vx x + cos theta * vy x) (vz x).

(** The reflection at the plane x = 0. *)
Definition reflection_x (x : vec3) : vec3 := Vec3 (- vx x) (vy x) (vz x).

(** [[species[j] for j in p]]: the labels of the atoms listed in the
    order [p]. *)
Definition reorder_labels (p : list nat) (species : list string) : list string :=
  (λ j, nth j species ""%string) <$> p.

(** [t.index_select(1, p)] of a result: its rows listed in the order [p],
    in every conformation. *)
Definition reorder_atoms {T} (p : list nat) (t : list (list (list T)))
    : list (list (list T)) :=
  (λ m : list (list T), (λ j, nth j m []) <$> p) <$> t.

(** [coordinates.index_select(0, q)]: the conformations listed in the
    order [q]. *)
Definition select_conformations (q : list nat) (c : tensor vec3) : tensor vec3 :=
  Tensor (length q) (shape1 c) ((λ n, nth n (rows c) []) <$> q).

(** ** More concrete inputs *)

(** One center atom, with two of its neighbors in both orders and each
    of them alone. *)
Definition one_center : list vec3 := [Vec3 0 0 0].

Definition two_neighbors : tensor vec3 := Tensor 1 2 [[Vec3 1 0 0; Vec3 0 2 0]].

Definition two_neighbors_reversed : tensor vec3 := Tensor 1 2 [[Vec3 0 2 0; Vec3 1 0 0]].

Definition one_neighbor : tensor vec3 := Tensor 1 1 [[Vec3 1 0 0]].

Definition other_neighbor : tensor vec3 := Tensor 1 1 [[Vec3 0 2 0]].

(** Two pairs of neighbors of that center, in both orders and each of
    them alone. *)
Definition two_pairs : tensor (vec3 * vec3) :=
  Tensor 1 2 [[(Vec3 1 0 0, Vec3 0 2 0); (Vec3 0 0 1, Vec3 1 0 0)]].

Definition two_pairs_reversed : tensor (vec3 * vec3) :=
  Tensor 1 2 [[(Vec3 0 0 1, Vec3 1 0 0); (Vec3 1 0 0, Vec3 0 2 0)]].

Definition one_pair : tensor (vec3 * vec3) := Tensor 1 1 [[(Vec3 1 0 0, Vec3 0 2 0)]].

Definition other_pair : tensor (vec3 * vec3) := Tensor 1 1 [[(Vec3 0 0 1, Vec3 1 0 0)]].

(** The labels of scenario A followed by one label more than there are
    atoms. *)
Definition three_labels : list string := ["H"; "H"; "C"]%string.

(** One atom in two conformations. *)
Definition single_atom_coordinates : tensor vec3 :=
  Tensor 2 1 [[Vec3 0 0 0]; [Vec3 1 2 3]].

(** A batch without conformations, over two atoms. *)
Definition no_conformations : tensor vec3 := Tensor 0 2 [].

(** Three hydrogen atoms on a line; the third is far from the first two,
    at two different places. *)
Definition far_atom_coordinates : tensor vec3 :=
  Tensor 1 3 [[Vec3 0 0 0; Vec3 1 0 0; Vec3 10 0 0]].

Definition far_atom_moved : tensor vec3 :=
  Tensor 1 3 [[Vec3 0 0 0; Vec3 1 0 0; Vec3 20 0 0]].

(** The engine of scenario A with other angular constants. *)
Definition other_angular_engine : NeighborAEV :=
  Build_NeighborAEV (Constants 5 3 [16%R] [1%R] [4%R] [2%R] [0%R] [1%R]) ["H"%string].

(** ** The cutoff function *)

Section Cutoff.
Local Open Scope R_scope.

Lemma cutoff_inside (r Rc : R) :
  r <= Rc → _cutoff_cosine r Rc = 0.5 * cos (PI * r / Rc) + 0.5.
Proof. intros H. unfold _cutoff_cosine. by rewrite decide_True. Qed.

Lemma cutoff_outside (r Rc : R) : Rc < r → _cutoff_cosine r Rc = 0.
Proof.
  intros H. unfold _cutoff_cosine. rewrite decide_False; [done | lra].
Qed.

Lemma cutoff_nonneg (r Rc : R) : 0 <= _cutoff_cosine r Rc.
Proof.
  unfold _cutoff_cosine. case_decide; [|lra].
  pose proof (COS_bound (PI * r / Rc)). lra.
Qed.

Lemma cutoff_angle_range (r Rc : R) :
  0 < Rc → 0 <= r <= Rc → 0 <= PI * r / Rc <= PI.
Proof.
  intros HRc [H0 H1]. pose proof PI_RGT_0 as Hpi.
  assert (Hq : 0 <= r / Rc <= 1).
  { split.
    - apply Rle_mult_inv_pos; lra.
    - apply (Rmult_le_reg_r Rc); [lra|]. field_simplify; lra. }
  replace (PI * r / Rc) with (PI * (r / Rc)) by (field; lra).
  split; [apply Rmult_le_pos; lra|].
  rewrite <- (Rmult_1_r PI) at 2. apply Rmult_le_compat_l; lra.
Qed.

(** C9: for Rc > 0 the cutoff function is the cosine ramp inside the
    radius and 0 outside, fc(Rc, Rc) = 0, fc(0, Rc) = 1, and fc is
    monotonically non-increasing on [0, Rc]. *)
Theorem cutoff_cosine_spec (Rc : R) (HRc : 0 < Rc) :
  (∀ r, r <= Rc → _cutoff_cosine r Rc = 0.5 * cos (PI * r / Rc) + 0.5) ∧
  (∀ r, Rc < r → _cutoff_cosine r Rc = 0) ∧
  _cutoff_cosine Rc Rc = 0 ∧
  _cutoff_cosine 0 Rc = 1 ∧
  (∀ r1 r2, 0 <= r1 → r1 <= r2 → r2 <= Rc →
     _cutoff_cosine r2 Rc <= _cutoff_cosine r1 Rc).
Proof.
  split; [intros r; apply cutoff_inside|].
  split; [intros r; apply cutoff_outside|].
  split; [|split].
  - rewrite cutoff_inside by lra.
    replace (PI * Rc / Rc) with PI by (field; lra). rewrite cos_PI. lra.
  - rewrite cutoff_inside by lra.
    replace (PI * 0 / Rc) with 0 by (field; lra). rewrite cos_0. lra.
  - intros r1 r2 H0 H12 H2. rewrite !cutoff_inside by lra.
    destruct (cutoff_angle_range r1 Rc) as [? ?]; [lra|lra|].
    destruct (cutoff_angle_range r2 Rc) as [? ?]; [lra|lra|].
    assert (PI * r1 / Rc <= PI * r2 / Rc).
    { unfold Rdiv. apply Rmult_le_compat_r.
      - left. by apply Rinv_0_lt_compat.
      - apply Rmult_le_compat_l; [pose proof PI_RGT_0; lra | lra]. }
    pose proof (cos_decr_1 (PI * r1 / Rc) (PI * r2 / Rc)). lra.
Qed.

Lemma cutoff_cosine_spec_witness :
  0 < 5 ∧ _cutoff_cosine 5 5 = 0 ∧ _cutoff_cosine 0 5 = 1.
Proof.
  assert (H : 0 < 5) by lra. split; [exact H|].
  destruct (cutoff_cosine_spec 5 H) as (_ & _ & Hc & H0 & _). by split.
Defined.

End Cutoff.

(** ** Lists and tensors *)


Lemma length_tabulate {T} (n : nat) (g : nat → T) : length (tabulate n g) = n.
Proof. unfold tabulate. by rewrite length_fmap, length_seq. Qed.

Lemma lookup_tabulate {T} (n i : nat) (g : nat → T) :
  i < n → tabulate n g !! i = Some (g i).
Proof.
  intros Hi. unfold tabulate. rewrite list_lookup_fmap, lookup_seq_lt by done.
  done.
Qed.

Lemma nth_tabulate {T} (n i : nat) (g : nat → T) (d : T) :
  i < n → nth i (tabulate n g) d = g i.
Proof. intros Hi. apply nth_lookup_Some. by apply lookup_tabulate. Qed.

Lemma nth_fmap_lt {T U} (f : T → U) (l : list T) (i : nat) (d : U) (d' : T) :
  i < length l → nth i (f <$> l) d = f (nth i l d').
Proof.
  intros Hi. destruct (lookup_lt_is_Some_2 l i Hi) as [x Hx].
  rewrite (nth_lookup_Some l i d' x Hx).
  apply nth_lookup_Some. by rewrite list_lookup_fmap, Hx.
Qed.

Lemma tabulate_nth {T U} (f : T → U) (l : list T) (d : T) :
  tabulate (length l) (λ i, f (nth i l d)) = f <$> l.
Proof.
  apply list_eq. intros i. destruct (decide (i < length l)) as [Hi|Hi].
  - rewrite lookup_tabulate by done. rewrite list_lookup_fmap.
    destruct (lookup_lt_is_Some_2 l i Hi) as [x Hx].
    by rewrite (nth_lookup_Some l i d x Hx), Hx.
  - rewrite !lookup_ge_None_2; [done | rewrite length_fmap; lia |
      rewrite length_tabulate; lia].
Qed.

Lemma tabulate_ext {T} (n : nat) (g h : nat → T) :
  (∀ i, i < n → g i = h i) → tabulate n g = tabulate n h.
Proof.
  intros E. apply list_fmap_ext. intros i x Hx%lookup_seq. apply E. lia.
Qed.

Lemma zip_with_fmap_same {T U V W} (g : U → V → W) (h1 : T → U) (h2 : T → V)
    (l : list T) :
  zip_with g (h1 <$> l) (h2 <$> l) = (λ x, g (h1 x) (h2 x)) <$> l.
Proof. induction l as [|x l IH]; csimpl; [done | by rewrite IH]. Qed.

Lemma zip_with_fmap_self {T V W} (g : T → V → W) (h : T → V) (l : list T) :
  zip_with g l (h <$> l) = (λ x, g x (h x)) <$> l.
Proof. induction l as [|x l IH]; csimpl; [done | by rewrite IH]. Qed.

Lemma mapM_total {T U} (g : T → option U) (h : T → U) (l : list T) :
  (∀ x, x ∈ l → g x = Some (h x)) → mapM g l = Some (h <$> l).
Proof.
  intros E. apply mapM_Some_2. induction l as [|x l IH]; simpl; constructor.
  - apply E. left.
  - apply IH. intros y Hy. apply E. by right.
Qed.

Lemma lookup_concat_rect {T} (t : list (list T)) (w i j : nat) (r : list T) (x : T) :
  Forall (λ v, length v = w) t → t !! i = Some r → r !! j = Some x →
  concat t !! (i * w + j) = Some x.
Proof.
  intros Hw. revert i. induction Hw as [|v t Hv Hw IH]; intros i Hi Hj; [done|].
  destruct i as [|i]; simpl in *.
  - simplify_eq. by apply lookup_app_l_Some.
  - rewrite lookup_app_r by lia.
    replace (w + i * w + j - length v) with (i * w + j) by lia. by apply IH.
Qed.

Lemma length_concat_rect {T} (t : list (list T)) (w : nat) :
  Forall (λ v, length v = w) t → length (concat t) = length t * w.
Proof.
  induction 1 as [|v t Hv Hw IH]; simpl; [done|].
  rewrite length_app, IH. lia.
Qed.


Lemma fmap_zip_with {T U V W} (g : V → W) (f : T → U → V) (a : list T) (b : list U) :
  g <$> zip_with f a b = zip_with (λ x y, g (f x y)) a b.
Proof.
  revert b. induction a as [|x a IH]; intros [|y b]; csimpl; [done..|].
  by rewrite IH.
Qed.

Lemma fmap_ext_all {T U} (f g : T → U) (l : list T) :
  (∀ x, f x = g x) → f <$> l = g <$> l.
Proof. intros E. apply list_fmap_ext. intros; apply E. Qed.

Lemma zip_with_ext_all {T U V} (f g : T → U → V) (a : list T) (b : list U) :
  (∀ x y, f x y = g x y) → zip_with f a b = zip_with g a b.
Proof. intros E. apply zip_with_ext; [|done..]. intros; apply E. Qed.

(** ** [radial_subaev] in closed form *)

Lemma sum_dim1_radial_spec (F : R → R → R → R) (Eta Shf r : list R) :
  sum_dim1_radial (length Eta) (length Shf)
    ((λ d, (λ e, (λ sh, F e sh d) <$> Shf) <$> Eta) <$> r)
  = (λ e, (λ sh, Rsum (F e sh <$> r)) <$> Shf) <$> Eta.
Proof.
  unfold sum_dim1_radial.
  rewrite <- (tabulate_nth (λ e, (λ sh, Rsum (F e sh <$> r)) <$> Shf) Eta 0%R).
  apply tabulate_ext. intros i Hi.
  rewrite <- (tabulate_nth (λ sh, Rsum (F (nth i Eta 0%R) sh <$> r)) Shf 0%R).
  apply tabulate_ext. intros j Hj. f_equal.
  rewrite <- list_fmap_compose. apply fmap_ext_all. intros d. simpl.
  rewrite (nth_fmap_lt _ Eta i [] 0%R) by done.
  by rewrite (nth_fmap_lt _ Shf j 0%R 0%R) by done.
Qed.

Lemma radial_subaev_closed (self : NeighborAEV) (center : list vec3)
    (neighbors : tensor vec3) :
  shape1 neighbors ≠ 0 → per_species_radial_length self ≠ 0 →
  radial_subaev self center neighbors
  = Some (zip_with (radial_row (self_constants self)) center (rows neighbors)).
Proof.
  intros HN HL. unfold radial_subaev, view_infer.
  rewrite (decide_False (P:=shape1 neighbors = 0)) by done.
  cbn [mbind option_bind].
  rewrite (decide_False (P:=per_species_radial_length self = 0)) by done.
  f_equal.
  rewrite zip_with_fmap_self, !fmap_zip_with.
  apply zip_with_ext_all. intros c r. cbv beta.
  rewrite zip_with_fmap_self. unfold radial_row. f_equal.
  etrans; [apply (sum_dim1_radial_spec (λ e sh d,
    (0.25 * exp (- e * (d - sh) ^ 2) * _cutoff_cosine d (Rcr (self_constants self)))%R))|].
  apply fmap_ext_all. intros e. apply fmap_ext_all. intros sh.
  f_equal. by rewrite <- !list_fmap_compose.
Qed.

(** ** [angular_subaev] in closed form *)

Lemma sum_dim1_angular_spec {X} (F : R → R → R → R → X → option R)
    (E Z A S : list R) (r : list X) :
  sum_dim1_angular (length E) (length Z) (length A) (length S)
    ((λ d, (λ e, (λ z, (λ rs, (λ zs, F e z rs zs d) <$> S) <$> A) <$> Z) <$> E) <$> r)
  = (λ e, (λ z, (λ rs, (λ zs, xsum (F e z rs zs <$> r)) <$> S) <$> A) <$> Z) <$> E.
Proof.
  unfold sum_dim1_angular.
  rewrite <- (tabulate_nth _ E 0%R). apply tabulate_ext. intros e He.
  rewrite <- (tabulate_nth _ Z 0%R). apply tabulate_ext. intros z Hz.
  rewrite <- (tabulate_nth _ A 0%R). apply tabulate_ext. intros a Ha.
  rewrite <- (tabulate_nth _ S 0%R). apply tabulate_ext. intros s Hs.
  f_equal. rewrite <- list_fmap_compose. apply fmap_ext_all. intros d.
  unfold compose.
  rewrite (nth_fmap_lt _ E e [] 0%R) by done.
  rewrite (nth_fmap_lt _ Z z [] 0%R) by done.
  rewrite (nth_fmap_lt _ A a [] 0%R) by done.
  by rewrite (nth_fmap_lt _ S s None 0%R) by done.
Qed.

Lemma angular_subaev_closed (self : NeighborAEV) (center : list vec3)
    (neighbors : tensor (vec3 * vec3)) :
  shape1 neighbors ≠ 0 → per_species_angular_length self ≠ 0 →
  angular_subaev self center neighbors
  = Some (zip_with (angular_row (self_constants self)) center (rows neighbors)).
Proof.
  intros HN HL. unfold angular_subaev, view_infer.
  rewrite (decide_False (P:=shape1 neighbors = 0)) by done.
  cbn [mbind option_bind].
  rewrite (decide_False (P:=shape1 neighbors * 2 = 0)) by lia.
  cbn [mbind option_bind].
  rewrite (decide_False (P:=per_species_angular_length self = 0)) by done.
  f_equal.
  set (V := zip_with _ center (rows neighbors)).
  rewrite <- !list_fmap_compose.
  rewrite !zip_with_fmap_same.
  rewrite <- !list_fmap_compose.
  rewrite !zip_with_fmap_same.
  rewrite <- !list_fmap_compose.
  unfold V. rewrite fmap_zip_with.
  apply zip_with_ext_all. intros c r. unfold compose. cbv beta.
  rewrite <- !list_fmap_compose.
  rewrite !zip_with_fmap_same.
  rewrite <- !list_fmap_compose.
  rewrite !zip_with_fmap_same.
  unfold compose. cbv beta.
  unfold angular_row. do 3 f_equal.
  exact (sum_dim1_angular_spec
           (λ e z rs zs x, angular_term (self_constants self) e z rs zs c x) _ _ _ _ r).
Qed.

(** ** The neighbor relation *)

Lemma Zsum_indicator_nonneg {X} (P : X → Prop) `{∀ x, Decision (P x)} (l : list X) :
  (0 ≤ Zsum ((λ x, if decide (P x) then 1 else 0) <$> l))%Z.
Proof.
  induction l as [|x l IH]; csimpl; [done|]. unfold Zsum in *. simpl.
  case_decide; lia.
Qed.

Lemma Zsum_indicator_pos {X} (P : X → Prop) `{∀ x, Decision (P x)} (l : list X) :
  (0 < Zsum ((λ x, if decide (P x) then 1 else 0) <$> l))%Z ↔ Exists P l.
Proof.
  induction l as [|x l IH]; csimpl.
  - split; [unfold Zsum; simpl; lia | by intros ?%Exists_nil].
  - pose proof (Zsum_indicator_nonneg P l) as Hn.
    rewrite Exists_cons, <- IH. unfold Zsum in *. simpl. case_decide; intuition lia.
Qed.

Lemma in_cutoff_row (c : tensor vec3) (cutoff : R) (i : nat) :
  tensor_wf c → i < shape1 c →
  in_cutoff (shape1 c) (R_distances c) cutoff !! i
  = Some (tabulate (shape1 c) (λ j, if decide (adjacent c cutoff i j) then 1%Z else 0%Z)).
Proof.
  intros [_ Hwf] Hi. unfold in_cutoff.
  rewrite lookup_zip_with, list_lookup_fmap.
  unfold sum_dim0, one_minus_eye. rewrite !lookup_tabulate by done.
  cbn [fmap option_fmap option_map mbind option_bind]. f_equal.
  unfold tabulate. rewrite <- list_fmap_compose, zip_with_fmap_same.
  apply list_fmap_ext. intros j ? [-> Hj]%lookup_seq. simpl.
  unfold R_distances, R_vecs. rewrite <- !list_fmap_compose.
  rewrite (list_fmap_ext _
    (λ conf, if decide (distance (nth i conf vzero) (nth j conf vzero) <= cutoff)%R
             then 1%Z else 0%Z) (rows c)).
  2:{ intros n conf Hc. simpl.
      assert (length conf = shape1 c) as Hlen.
      { rewrite Forall_lookup in Hwf. by eapply Hwf. }
      rewrite (nth_fmap_lt _ _ i [] []) by (rewrite ?length_fmap; lia).
      rewrite (nth_fmap_lt _ _ i [] []) by (rewrite ?length_fmap; lia).
      rewrite (nth_fmap_lt _ _ i [] vzero) by lia.
      rewrite (nth_fmap_lt _ _ j 0%Z 0%R) by (rewrite ?length_fmap; lia).
      rewrite (nth_fmap_lt _ _ j 0%R vzero) by (rewrite ?length_fmap; lia).
      rewrite (nth_fmap_lt _ _ j vzero vzero) by lia. done. }
  unfold adjacent.
  destruct (decide (0 < _)%Z) as [Hp|Hp]; rewrite Zsum_indicator_pos in Hp;
    repeat case_decide; try done; try lia; tauto.
Qed.

(** ** The species selectors *)

Lemma insert_tabulate {T} (n k : nat) (x : T) (g : nat → T) :
  <[k := x]> (tabulate n g) = tabulate n (λ j, if decide (j = k) then x else g j).
Proof.
  apply list_eq. intros j. destruct (decide (j < n)) as [Hj|Hj].
  - rewrite lookup_tabulate by done. destruct (decide (j = k)) as [->|Hne].
    + rewrite list_lookup_insert_eq; [done | by rewrite length_tabulate].
    + rewrite list_lookup_insert_ne by done. by rewrite lookup_tabulate.
  - rewrite !lookup_ge_None_2;
      [done | rewrite length_tabulate; lia | rewrite length_insert, length_tabulate; lia].
Qed.

Lemma species_selectors_prefix (atoms : nat) (species : list string) (k : nat) :
  k ≤ atoms → atoms ≤ length species →
  ∃ m, foldl (species_selectors_step atoms species) (Some ∅) (seq 0 k) = Some m ∧
       ∀ s, m !! s = if decide (s ∈ take k species)
                     then Some (selector_upto atoms species k s) else None.
Proof.
  intros Hk Hlen. induction k as [|k IH].
  - exists ∅. split; [done|]. intros s. rewrite lookup_empty.
    rewrite decide_False; [done|]. rewrite take_0. apply not_elem_of_nil.
  - destruct IH as (m & Hm & Hlook); [lia|].
    rewrite seq_S, foldl_app, Hm. simpl.
    destruct (lookup_lt_is_Some_2 species k) as [s0 Hs0]; [lia|].
    rewrite Hs0. simpl. eexists. split; [done|]. intros s.
    assert (Htake : ∀ x, x ∈ take (S k) species ↔ x ∈ take k species ∨ x = s0).
    { intros x. rewrite (take_S_r _ _ _ Hs0), elem_of_app, list_elem_of_singleton.
      done. }
    set (m' := match m !! s0 with
               | Some _ => m
               | None => <[s0 := replicate atoms 0%Z]> m
               end).
    assert (Hm' : ∀ x, m' !! x = if decide (x ∈ take (S k) species)
                                 then Some (selector_upto atoms species k x) else None).
    { intros x. unfold m'. pose proof (Hlook s0) as H0.
      destruct (decide (s0 ∈ take k species)) as [Hin|Hnin].
      - rewrite H0, Hlook. apply decide_ext. rewrite Htake.
        split; [by left | by intros [?| ->]].
      - rewrite H0. destruct (decide (x = s0)) as [->|Hne].
        + rewrite lookup_insert_eq, decide_True by (apply Htake; by right).
          f_equal. unfold selector_upto, tabulate.
          rewrite <- (fmap_replicate (λ _ : nat, 0%Z) atoms 0).
          apply list_eq. intros j. rewrite !list_lookup_fmap.
          destruct (decide (j < atoms)) as [Hj|Hj].
          * rewrite lookup_replicate_2, lookup_seq_lt by done. simpl.
            rewrite decide_False; [done|]. intros [Hjk Hsp].
            apply Hnin, elem_of_take. eauto.
          * rewrite (lookup_ge_None_2 (replicate _ _)) by (rewrite length_replicate; lia).
            by rewrite lookup_ge_None_2 by (rewrite length_seq; lia).
        + rewrite lookup_insert_ne, Hlook by done. apply decide_ext. rewrite Htake.
          split; [by left | by intros [?|?]]. }
    destruct (decide (s = s0)) as [->|Hne].
    + rewrite lookup_alter_eq, Hm', !decide_True by (apply Htake; by right).
      simpl. f_equal. unfold selector_upto. rewrite insert_tabulate.
      apply tabulate_ext. intros j Hj.
      destruct (decide (j = k)) as [->|Hjk].
      * by rewrite decide_True by (split; [lia | done]).
      * apply decide_ext. split; intros [? ?]; (split; [lia | done]).
    + rewrite lookup_alter_ne, Hm' by done.
      case_decide; [|done]. f_equal. apply tabulate_ext. intros j Hj.
      apply decide_ext. split; intros [Hjk Hsp]; (split; [|done]); [lia|].
      destruct (decide (j = k)) as [->|]; [congruence | lia].
Qed.

Lemma species_selectors_spec (atoms : nat) (species : list string) :
  atoms ≤ length species →
  ∃ m, species_selectors atoms species = Some m ∧
       ∀ s, m !! s = if decide (s ∈ take atoms species)
                     then Some (selector_upto atoms species atoms s) else None.
Proof. intros H. by apply species_selectors_prefix. Qed.

(** ** The neighbor lists of a call *)

Lemma filter_ext_in {T} (P Q : T → Prop) `{!∀ x, Decision (P x), !∀ x, Decision (Q x)}
    (l : list T) :
  (∀ x, x ∈ l → P x ↔ Q x) → filter P l = filter Q l.
Proof.
  induction l as [|a l IH]; intros E; [done|].
  rewrite !filter_cons.
  rewrite IH by (intros x Hx; apply E; by right).
  apply decide_ext, E. left.
Qed.

Lemma nonzero_selected (c : tensor vec3) (species : list string) (cutoff : R)
    (i : nat) (s : string) :
  nonzero (zip_with Z.mul
    (tabulate (shape1 c) (λ j, if decide (adjacent c cutoff i j) then 1%Z else 0%Z))
    (selector_upto (shape1 c) species (shape1 c) s))
  = neighbors_of c species cutoff i s.
Proof.
  unfold nonzero, neighbors_of, selector_upto.
  unfold tabulate.
  rewrite (zip_with_fmap_same Z.mul _ _ (seq 0 (shape1 c))).
  rewrite length_fmap, length_seq.
  apply filter_ext_in. intros j [_ Hj]%elem_of_seq. simpl in Hj.
  rewrite (nth_fmap_lt _ _ j 0%Z 0) by (rewrite length_seq; lia).
  rewrite seq_nth by lia. simpl.
  repeat case_decide; try lia; intuition lia.
Qed.

Lemma neighbors_of_absent (c : tensor vec3) (species : list string) (cutoff : R)
    (i : nat) (s : string) :
  s ∉ take (shape1 c) species → neighbors_of c species cutoff i s = [].
Proof.
  intros Hs. unfold neighbors_of.
  rewrite (filter_ext_in _ (λ _, False)).
  - induction (seq 0 (shape1 c)) as [|x l IH]; [done|].
    rewrite filter_cons_False; [exact IH | tauto].
  - intros j [_ Hj]%elem_of_seq. split; [|done]. intros [_ Hsp].
    apply Hs, elem_of_take. exists j. split; [done | lia].
Qed.

Section NeighborLists.
Variables (self : NeighborAEV) (c : tensor vec3) (species : list string).
Variable m : gmap string (list Z).
Hypothesis Hwf : tensor_wf c.
Hypothesis Hm : ∀ s, m !! s = if decide (s ∈ take (shape1 c) species)
                               then Some (selector_upto (shape1 c) species (shape1 c) s)
                               else None.

Let K := self_constants self.
Let sn := species_neighbors (in_cutoff (shape1 c) (R_distances c) (Rcr K))
                            (in_cutoff (shape1 c) (R_distances c) (Rca K)) m.

Lemma species_neighbors_absent (s : string) :
  s ∉ take (shape1 c) species → sn !! s = None.
Proof.
  intros Hs. unfold sn, species_neighbors. rewrite lookup_fmap, Hm.
  by rewrite decide_False.
Qed.

Lemma species_neighbors_present (s : string) (i : nat) :
  s ∈ take (shape1 c) species → i < shape1 c →
  ∃ nb, sn !! s = Some nb ∧
        nonzero (nth i nb.1 []) = neighbors_of c species (Rcr K) i s ∧
        nonzero (nth i nb.2 []) = neighbors_of c species (Rca K) i s.
Proof.
  intros Hs Hi. unfold sn, species_neighbors. rewrite lookup_fmap, Hm.
  rewrite decide_True by done. simpl. eexists. split; [done|]. simpl.
  split.
  - erewrite nth_lookup_Some;
      [|by rewrite list_lookup_fmap, (in_cutoff_row c (Rcr K) i Hwf Hi)].
    apply nonzero_selected.
  - erewrite nth_lookup_Some;
      [|by rewrite list_lookup_fmap, (in_cutoff_row c (Rca K) i Hwf Hi)].
    apply nonzero_selected.
Qed.

End NeighborLists.

(** ** The radial half of a call *)

Lemma fmap_const_replicate {T U} (v : U) (l : list T) :
  (λ _, v) <$> l = replicate (length l) v.
Proof. induction l as [|x l IH]; csimpl; [done | by rewrite IH]. Qed.

Lemma concat_replicate_replicate {T} (n k : nat) (v : T) :
  concat (replicate n (replicate k v)) = replicate (n * k) v.
Proof.
  induction n as [|n IH]; simpl; [done|]. by rewrite IH, replicate_add.
Qed.

Lemma radial_row_nil (K : constants) (x : vec3) :
  radial_row K x [] = replicate (length (EtaR K) * length (ShfR K)) 0%R.
Proof.
  unfold radial_row. csimpl. unfold Rsum. simpl.
  rewrite (fmap_const_replicate 0%R (ShfR K)).
  rewrite (fmap_const_replicate _ (EtaR K)).
  apply concat_replicate_replicate.
Qed.

Lemma torch_cat1_fmap {S X T} (g : X → S → list T) (rs : list X) (ss : list S) :
  ss ≠ [] →
  torch_cat1 ((λ s, (λ conf, g conf s) <$> rs) <$> ss)
  = Some ((λ conf, concat ((λ s, g conf s) <$> ss)) <$> rs).
Proof.
  intros Hss. destruct ss as [|s0 ss]; [done|]. unfold torch_cat1.
  change ((λ s, (λ conf, g conf s) <$> rs) <$> s0 :: ss)
    with (((λ conf, g conf s0) <$> rs) :: ((λ s, (λ conf, g conf s) <$> rs) <$> ss)).
  cbv beta iota. rewrite length_fmap. f_equal.
  change (((λ conf, g conf s0) <$> rs) :: ((λ s, (λ conf, g conf s) <$> rs) <$> ss))
    with ((λ s, (λ conf, g conf s) <$> rs) <$> s0 :: ss).
  destruct rs as [|r0 rs']; [done|]. set (rs := r0 :: rs').
  rewrite <- (tabulate_nth (λ conf, concat ((λ s, g conf s) <$> s0 :: ss)) rs r0).
  apply tabulate_ext. intros n Hn. f_equal.
  rewrite <- list_fmap_compose. apply fmap_ext_all. intros s.
  unfold compose. by rewrite (nth_fmap_lt _ rs n [] r0).
Qed.

Lemma torch_stack1_fmap {I X T} (g : X → I → list T) (rs : list X) (ixs : list I) :
  ixs ≠ [] →
  torch_stack1 ((λ i, (λ conf, g conf i) <$> rs) <$> ixs)
  = Some ((λ conf, (λ i, g conf i) <$> ixs) <$> rs).
Proof.
  intros Hixs. destruct ixs as [|i0 ixs]; [done|]. unfold torch_stack1.
  change ((λ i, (λ conf, g conf i) <$> rs) <$> i0 :: ixs)
    with (((λ conf, g conf i0) <$> rs) :: ((λ i, (λ conf, g conf i) <$> rs) <$> ixs)).
  cbv beta iota. rewrite length_fmap. f_equal.
  change (((λ conf, g conf i0) <$> rs) :: ((λ i, (λ conf, g conf i) <$> rs) <$> ixs))
    with ((λ i, (λ conf, g conf i) <$> rs) <$> i0 :: ixs).
  destruct rs as [|r0 rs']; [done|]. set (rs := r0 :: rs').
  rewrite <- (tabulate_nth (λ conf, (λ i, g conf i) <$> i0 :: ixs) rs r0).
  apply tabulate_ext. intros n Hn.
  rewrite <- list_fmap_compose. apply fmap_ext_all. intros i.
  unfold compose. by rewrite (nth_fmap_lt _ rs n [] r0).
Qed.

Lemma zip_select_gather {T} (g : vec3 → list vec3 → T) (c : tensor vec3)
    (i : nat) (idx : list nat) :
  zip_with g (select1 c i) (rows (index_select c idx))
  = (λ conf, g (nth i conf vzero) (gather conf idx)) <$> rows c.
Proof. unfold select1, index_select. simpl. apply zip_with_fmap_same. Qed.

Section RadialHalf.
Variables (self : NeighborAEV) (c : tensor vec3) (species : list string).
Variable m : gmap string (list Z).
Hypothesis Hwf : tensor_wf c.
Hypothesis Hm : ∀ s, m !! s = if decide (s ∈ take (shape1 c) species)
                               then Some (selector_upto (shape1 c) species (shape1 c) s)
                               else None.
Hypothesis HL : 0 < per_species_radial_length self.

Let K := self_constants self.
Let sn := species_neighbors (in_cutoff (shape1 c) (R_distances c) (Rcr K))
                            (in_cutoff (shape1 c) (R_distances c) (Rca K)) m.

Lemma radial_zero_block (i : nat) (s : string) :
  neighbors_of c species (Rcr K) i s = [] →
  zeros (shape0 c) (per_species_radial_length self)
  = (λ conf, radial_block_row self c species conf i s) <$> rows c.
Proof.
  intros Hnil. unfold radial_block_row, zeros. fold K. rewrite Hnil.
  destruct Hwf as [<- _]. rewrite <- fmap_const_replicate.
  apply fmap_ext_all. intros conf. unfold gather. csimpl.
  by rewrite radial_row_nil.
Qed.

Lemma radial_block_closed (i : nat) (s : string) :
  i < shape1 c →
  radial_block self c sn i s
  = Some ((λ conf, radial_block_row self c species conf i s) <$> rows c).
Proof.
  intros Hi. unfold radial_block.
  destruct (decide (s ∈ take (shape1 c) species)) as [Hs|Hs].
  - destruct (species_neighbors_present self c species m Hwf Hm s i Hs Hi)
      as (nb & Hnb & Hr & _).
    fold K sn in Hnb, Hr. rewrite Hnb, Hr.
    case_decide as Hlen.
    + rewrite radial_subaev_closed; [|simpl; lia|lia].
      f_equal. apply zip_select_gather.
    + f_equal. apply radial_zero_block.
      destruct (neighbors_of _ _ _ _ _); [done | simpl in Hlen; lia].
  - pose proof (species_neighbors_absent self c species m Hm s Hs) as Hnone.
    fold K sn in Hnone. rewrite Hnone.
    f_equal. apply radial_zero_block. by apply neighbors_of_absent.
Qed.

Lemma radial_aevs_closed :
  0 < shape1 c → 0 < length (self_species self) →
  radial_aevs self c sn = Some (radial_expected self c species).
Proof.
  intros HA HS. unfold radial_aevs.
  rewrite (mapM_total _
    (λ i, (λ conf, concat ((λ s, radial_block_row self c species conf i s)
                             <$> self_species self)) <$> rows c)).
  - simpl. apply torch_stack1_fmap.
    destruct (shape1 c); [lia | done].
  - intros i [_ Hi]%elem_of_seq. simpl in Hi.
    rewrite (mapM_total _
      (λ s, (λ conf, radial_block_row self c species conf i s) <$> rows c)).
    + simpl. apply torch_cat1_fmap.
      destruct (self_species self); [simpl in HS; lia | done].
    + intros s _. by apply radial_block_closed.
Qed.

End RadialHalf.

(** ** Neighbor pairs *)

Lemma combinations2_fmap {T U} (f : T → U) (l : list T) :
  combinations2 (f <$> l) = (λ p, (f p.1, f p.2)) <$> combinations2 l.
Proof.
  induction l as [|x l IH]; csimpl; [done|].
  rewrite fmap_app, IH, <- !list_fmap_compose. done.
Qed.

Lemma cartesian_prod2_fmap {T U} (f : T → U) (a b : list T) :
  cartesian_prod2 (f <$> a) (f <$> b) = (λ p, (f p.1, f p.2)) <$> cartesian_prod2 a b.
Proof.
  unfold cartesian_prod2. induction a as [|x a IH]; csimpl; [done|].
  rewrite fmap_app, IH, <- !list_fmap_compose. done.
Qed.

Lemma triangle_step (n : nat) : n + n * (n - 1) / 2 = S n * (S n - 1) / 2.
Proof.
  replace (S n * (S n - 1)) with (n * (n - 1) + n * 2)
    by (destruct n; [done | rewrite !Nat.sub_succ, !Nat.sub_0_r; nia]).
  rewrite Nat.div_add by done. lia.
Qed.

Lemma length_combinations2 {T} (l : list T) :
  length (combinations2 l) = length l * (length l - 1) / 2.
Proof.
  induction l as [|x l IH]; [done|].
  cbn [combinations2 length]. rewrite length_app, length_fmap, IH.
  apply triangle_step.
Qed.

Lemma length_cartesian_prod2 {T} (a b : list T) :
  length (cartesian_prod2 a b) = length a * length b.
Proof.
  unfold cartesian_prod2. induction a as [|x a IH]; csimpl; [done|].
  by rewrite length_app, length_fmap, IH.
Qed.

Lemma combinations2_short {T} (l : list T) : length l ≤ 1 → combinations2 l = [].
Proof. destruct l as [|x [|y l]]; simpl; [done | done | lia]. Qed.

Lemma cartesian_prod2_nil_r {T} (a : list T) : cartesian_prod2 a [] = [].
Proof. unfold cartesian_prod2. induction a as [|x a IH]; csimpl; done. Qed.

Lemma angular_row_nil (K : constants) (x : vec3) :
  angular_row K x []
  = replicate (length (EtaA K) * length (Zeta K) * length (ShfA K) * length (ShfZ K))
              (Some 0%R).
Proof.
  unfold angular_row. csimpl. unfold xsum. simpl.
  rewrite (fmap_const_replicate (Some 0%R) (ShfZ K)).
  rewrite (fmap_const_replicate _ (ShfA K)).
  rewrite (fmap_const_replicate _ (Zeta K)).
  rewrite (fmap_const_replicate _ (EtaA K)).
  by rewrite !concat_replicate_replicate.
Qed.

(** ** The neighbor pairs of a call *)

Section AngularPairs.
Variables (self : NeighborAEV) (c : tensor vec3) (species : list string).
Variable m : gmap string (list Z).
Hypothesis Hwf : tensor_wf c.
Hypothesis Hm : ∀ s, m !! s = if decide (s ∈ take (shape1 c) species)
                               then Some (selector_upto (shape1 c) species (shape1 c) s)
                               else None.

Let K := self_constants self.
Let sn := species_neighbors (in_cutoff (shape1 c) (R_distances c) (Rcr K))
                            (in_cutoff (shape1 c) (R_distances c) (Rca K)) m.

Lemma angular_neighbors_closed (i : nat) (jk : string * string) :
  i < shape1 c →
  angular_neighbors c sn i jk
  = if decide (pairs_of c species (Rca K) i jk = []) then None
    else Some (Tensor (shape0 c) (length (pairs_of c species (Rca K) i jk))
                 ((λ conf, gather2 conf (pairs_of c species (Rca K) i jk)) <$> rows c)).
Proof.
  intros Hi. unfold angular_neighbors, pairs_of.
  destruct (decide (jk.1 ∈ take (shape1 c) species)) as [Hj|Hj]; cycle 1.
  { pose proof (species_neighbors_absent self c species m Hm _ Hj) as Hnone.
    fold K sn in Hnone. rewrite Hnone.
    rewrite (neighbors_of_absent c species (Rca K) i jk.1 Hj).
    rewrite decide_True; [done|]. by case_decide. }
  destruct (species_neighbors_present self c species m Hwf Hm _ i Hj Hi)
    as (nj & Hnj & _ & Hja).
  fold K sn in Hnj, Hja. rewrite Hnj.
  destruct (decide (jk.2 ∈ take (shape1 c) species)) as [Hk|Hk]; cycle 1.
  { pose proof (species_neighbors_absent self c species m Hm _ Hk) as Hnone.
    fold K sn in Hnone. rewrite Hnone.
    rewrite (neighbors_of_absent c species (Rca K) i jk.2 Hk).
    rewrite (decide_False (P:=jk.1 = jk.2)) by congruence.
    by rewrite cartesian_prod2_nil_r, decide_True. }
  destruct (species_neighbors_present self c species m Hwf Hm _ i Hk Hi)
    as (nk & Hnk & _ & Hka).
  fold K sn in Hnk, Hka. rewrite Hnk. cbv zeta. rewrite Hja, Hka.
  set (Uj := neighbors_of c species (Rca K) i jk.1).
  set (Uk := neighbors_of c species (Rca K) i jk.2).
  destruct (decide (jk.1 ≠ jk.2 ∧ 0 < length Uj)) as [[Hne HUj]|Hno].
  - rewrite (decide_False (P:=jk.1 = jk.2)) by done.
    destruct (decide (0 < length Uk)) as [HUk|HUk].
    + rewrite decide_False.
      2:{ intros E%(f_equal length). rewrite length_cartesian_prod2 in E.
          simpl in E. nia. }
      f_equal. unfold cartesian_prod, index_select. simpl.
      rewrite length_cartesian_prod2. f_equal.
      rewrite zip_with_fmap_same. apply fmap_ext_all. intros conf.
      unfold gather2. apply (cartesian_prod2_fmap (λ j, nth j conf vzero)).
    + rewrite decide_True; [done|].
      destruct Uk; [apply cartesian_prod2_nil_r | simpl in HUk; lia].
  - destruct (decide (1 < length Uj)) as [HUj|HUj].
    + assert (jk.1 = jk.2) as Heq.
      { destruct (decide (jk.1 = jk.2)); [done|]. exfalso. apply Hno. split; [done|lia]. }
      rewrite (decide_True (P:=jk.1 = jk.2)) by done.
      assert (length Uj * (length Uj - 1) / 2 ≠ 0) as Hpos.
      { intros E. apply Nat.div_small_iff in E; [|done]. nia. }
      rewrite decide_False.
      2:{ intros E%(f_equal length). rewrite length_combinations2 in E. done. }
      f_equal. unfold combinations, index_select. simpl.
      rewrite length_combinations2. f_equal.
      rewrite <- list_fmap_compose. apply fmap_ext_all. intros conf.
      unfold gather2, compose. apply (combinations2_fmap (λ j, nth j conf vzero)).
    + rewrite decide_True; [done|]. case_decide.
      * apply combinations2_short. lia.
      * assert (length Uj = 0) as HU0.
        { destruct (decide (0 < length Uj)); [|lia]. exfalso. by apply Hno. }
        by destruct Uj.
Qed.

End AngularPairs.

(** ** The angular half of a call *)

Section AngularHalf.
Variables (self : NeighborAEV) (c : tensor vec3) (species : list string).
Variable m : gmap string (list Z).
Hypothesis Hwf : tensor_wf c.
Hypothesis Hm : ∀ s, m !! s = if decide (s ∈ take (shape1 c) species)
                               then Some (selector_upto (shape1 c) species (shape1 c) s)
                               else None.
Hypothesis HL : 0 < per_species_angular_length self.

Let K := self_constants self.
Let sn := species_neighbors (in_cutoff (shape1 c) (R_distances c) (Rcr K))
                            (in_cutoff (shape1 c) (R_distances c) (Rca K)) m.

Lemma angular_block_closed (i : nat) (jk : string * string) :
  i < shape1 c →
  angular_block self c sn i jk
  = Some ((λ conf, angular_block_row self c species conf i jk) <$> rows c).
Proof.
  intros Hi. unfold angular_block.
  pose proof (angular_neighbors_closed self c species m Hwf Hm i jk Hi) as Hnb.
  fold K sn in Hnb. rewrite Hnb.
  unfold angular_block_row. fold K.
  destruct (decide (pairs_of c species (Rca K) i jk = [])) as [Hnil|Hnil].
  - rewrite Hnil. f_equal. unfold xzeros.
    destruct Hwf as [<- _]. rewrite <- fmap_const_replicate.
    apply fmap_ext_all. intros conf. unfold gather2. csimpl.
    by rewrite angular_row_nil.
  - rewrite angular_subaev_closed; [|simpl|lia].
    + f_equal. unfold select1. simpl. apply zip_with_fmap_same.
    + destruct (pairs_of _ _ _ _ _); [done | simpl; lia].
Qed.

Lemma angular_aevs_closed :
  0 < shape1 c → 0 < length (self_species self) →
  angular_aevs self c sn = Some (angular_expected self c species).
Proof.
  intros HA HS. unfold angular_aevs.
  rewrite (mapM_total _
    (λ i, (λ conf, concat ((λ jk, angular_block_row self c species conf i jk)
             <$> combinations_with_replacement (self_species self))) <$> rows c)).
  - simpl. apply torch_stack1_fmap.
    destruct (shape1 c); [lia | done].
  - intros i [_ Hi]%elem_of_seq. simpl in Hi.
    rewrite (mapM_total _
      (λ jk, (λ conf, angular_block_row self c species conf i jk) <$> rows c)).
    + simpl. apply torch_cat1_fmap.
      destruct (self_species self); [simpl in HS; lia | done].
    + intros jk _. by apply angular_block_closed.
Qed.

End AngularHalf.

(** ** The call in closed form *)

Lemma NeighborAEV_call_closed (self : NeighborAEV) (c : tensor vec3)
    (species : list string) :
  engine_ok self → valid_input c species →
  NeighborAEV_call self c species
  = Some (radial_expected self c species, angular_expected self c species).
Proof.
  intros (HS & HLr & HLa) (Hwf & HA & Hlen). unfold NeighborAEV_call.
  destruct (species_selectors_spec (shape1 c) species) as (m & -> & Hm); [lia|].
  simpl.
  rewrite (radial_aevs_closed self c species m Hwf Hm HLr HA HS). simpl.
  by rewrite (angular_aevs_closed self c species m Hwf Hm HLa HA HS).
Qed.

(** ** Shapes *)

Lemma length_radial_row (K : constants) (x : vec3) (nb : list vec3) :
  length (radial_row K x nb) = length (EtaR K) * length (ShfR K).
Proof.
  unfold radial_row.
  rewrite (length_concat_rect _ (length (ShfR K))), length_fmap; [done|].
  apply Forall_fmap, Forall_true. intros e. simpl. by rewrite length_fmap.
Qed.

Lemma length_angular_row (K : constants) (x : vec3) (ps : list (vec3 * vec3)) :
  length (angular_row K x ps)
  = length (EtaA K) * length (Zeta K) * length (ShfA K) * length (ShfZ K).
Proof.
  unfold angular_row.
  rewrite (length_concat_rect _ (length (ShfZ K))).
  - rewrite (length_concat_rect _ (length (ShfA K))).
    + rewrite (length_concat_rect _ (length (Zeta K))), length_fmap; [done|].
      apply Forall_fmap, Forall_true. intros e. simpl. by rewrite length_fmap.
    + apply Forall_concat, Forall_fmap, Forall_true. intros e. simpl.
      apply Forall_fmap, Forall_true. intros z. simpl. by rewrite length_fmap.
  - apply Forall_concat, Forall_concat, Forall_fmap, Forall_true. intros e. simpl.
    apply Forall_fmap, Forall_true. intros z. simpl.
    apply Forall_fmap, Forall_true. intros a. simpl. by rewrite length_fmap.
Qed.

Lemma binom_1 (n : nat) : binom n 1 = n.
Proof. induction n as [|n IH]; simpl; [done|]. destruct n; simpl in *; lia. Qed.

Lemma length_combinations_with_replacement {T} (l : list T) :
  length (combinations_with_replacement l) = binom (length l + 1) 2.
Proof.
  induction l as [|x l IH]; [done|].
  cbn [combinations_with_replacement length].
  rewrite length_app, length_fmap, IH. cbn [length].
  replace (S (length l) + 1) with (S (length l + 1)) by lia.
  cbn [binom]. fold (binom (length l + 1) 1). rewrite binom_1. lia.
Qed.

Lemma radial_expected_shape (self : NeighborAEV) (c : tensor vec3)
    (species : list string) :
  tensor_wf c →
  has_shape (shape0 c) (shape1 c)
            (length (self_species self) * per_species_radial_length self)
            (radial_expected self c species).
Proof.
  intros [HB _]. unfold has_shape, radial_expected. split.
  - by rewrite length_fmap.
  - apply Forall_fmap, Forall_true. intros conf. simpl. split.
    + by rewrite length_fmap, length_seq.
    + apply Forall_fmap, Forall_true. intros i. simpl.
      rewrite (length_concat_rect _ (per_species_radial_length self)), length_fmap;
        [done|].
      apply Forall_fmap, Forall_true. intros s. simpl. apply length_radial_row.
Qed.

Lemma angular_expected_shape (self : NeighborAEV) (c : tensor vec3)
    (species : list string) :
  tensor_wf c →
  has_shape (shape0 c) (shape1 c)
            (binom (length (self_species self) + 1) 2 * per_species_angular_length self)
            (angular_expected self c species).
Proof.
  intros [HB _]. unfold has_shape, angular_expected. split.
  - by rewrite length_fmap.
  - apply Forall_fmap, Forall_true. intros conf. simpl. split.
    + by rewrite length_fmap, length_seq.
    + apply Forall_fmap, Forall_true. intros i. simpl.
      rewrite (length_concat_rect _ (per_species_angular_length self)), length_fmap,
        length_combinations_with_replacement; [done|].
      apply Forall_fmap, Forall_true. intros jk. simpl. apply length_angular_row.
Qed.

(** ** Every returned result is the expected one *)

Lemma mapM_returned {T U} (f : T → option U) (g : T → U) (l : list T) (k : list U) :
  mapM f l = Some k → (∀ x y, x ∈ l → f x = Some y → y = g x) → k = g <$> l.
Proof.
  intros Hk%mapM_Some Hg. induction Hk as [|x y l k Hxy Hk IH]; [done|].
  csimpl. f_equal.
  - apply Hg; [left | done].
  - apply IH. intros x' y' Hx'. apply Hg. by right.
Qed.

Lemma rows_of_length_0 {X T} (g : X → list T) (rs : list X) :
  (∀ x, length (g x) = 0) → g <$> rs = replicate (length rs) [].
Proof.
  intros Hg. rewrite <- fmap_const_replicate. apply fmap_ext_all.
  intros x. by apply nil_length_inv.
Qed.

Lemma radial_subaev_no_length (self : NeighborAEV) (center : list vec3)
    (neighbors : tensor vec3) :
  per_species_radial_length self = 0 → radial_subaev self center neighbors = None.
Proof.
  intros HL. unfold radial_subaev.
  destruct (view_infer (shape1 neighbors) _) as [d|]; [|done].
  cbn [mbind option_bind]. unfold view_infer. by rewrite decide_True.
Qed.

Lemma angular_subaev_no_length (self : NeighborAEV) (center : list vec3)
    (neighbors : tensor (vec3 * vec3)) :
  per_species_angular_length self = 0 → angular_subaev self center neighbors = None.
Proof.
  intros HL. unfold angular_subaev.
  destruct (view_infer (shape1 neighbors) _) as [d|]; [|done].
  cbn [mbind option_bind].
  destruct (view_infer (shape1 neighbors * 2) _) as [d'|]; [|done].
  cbn [mbind option_bind]. unfold view_infer. by rewrite decide_True.
Qed.

Section Returned.
Variables (self : NeighborAEV) (c : tensor vec3) (species : list string).
Variable m : gmap string (list Z).
Hypothesis Hwf : tensor_wf c.
Hypothesis Hm : ∀ s, m !! s = if decide (s ∈ take (shape1 c) species)
                               then Some (selector_upto (shape1 c) species (shape1 c) s)
                               else None.

Let K := self_constants self.
Let sn := species_neighbors (in_cutoff (shape1 c) (R_distances c) (Rcr K))
                            (in_cutoff (shape1 c) (R_distances c) (Rca K)) m.

Lemma radial_block_returned (i : nat) (s : string) (b : list (list R)) :
  i < shape1 c → radial_block self c sn i s = Some b →
  b = (λ conf, radial_block_row self c species conf i s) <$> rows c.
Proof.
  intros Hi Hb. destruct (decide (0 < per_species_radial_length self)) as [HL|HL].
  - pose proof (radial_block_closed self c species m Hwf Hm HL i s Hi) as Hclosed.
    fold K sn in Hclosed. congruence.
  - assert (per_species_radial_length self = 0) as HL0 by lia.
    assert (b = zeros (shape0 c) (per_species_radial_length self)) as ->.
    { unfold radial_block in Hb. destruct (sn !! s) as [nb|]; [|congruence].
      case_decide; [|congruence].
      by rewrite radial_subaev_no_length in Hb. }
    unfold zeros. rewrite HL0. destruct Hwf as [<- _]. symmetry.
    apply rows_of_length_0. intros conf. unfold radial_block_row.
    rewrite length_radial_row. exact HL0.
Qed.

Lemma angular_block_returned (i : nat) (jk : string * string)
    (b : list (list (option R))) :
  i < shape1 c → angular_block self c sn i jk = Some b →
  b = (λ conf, angular_block_row self c species conf i jk) <$> rows c.
Proof.
  intros Hi Hb. destruct (decide (0 < per_species_angular_length self)) as [HL|HL].
  - pose proof (angular_block_closed self c species m Hwf Hm HL i jk Hi) as Hclosed.
    fold K sn in Hclosed. congruence.
  - assert (per_species_angular_length self = 0) as HL0 by lia.
    assert (b = xzeros (shape0 c) (per_species_angular_length self)) as ->.
    { unfold angular_block in Hb.
      destruct (angular_neighbors c sn i jk) as [nb|]; [|congruence].
      by rewrite angular_subaev_no_length in Hb. }
    unfold xzeros. rewrite HL0. destruct Hwf as [<- _]. symmetry.
    apply rows_of_length_0. intros conf. unfold angular_block_row.
    rewrite length_angular_row. exact HL0.
Qed.

Lemma radial_aevs_returned (radial : list (list (list R))) :
  radial_aevs self c sn = Some radial → radial = radial_expected self c species.
Proof.
  unfold radial_aevs. intros Hr.
  destruct (mapM _ (seq 0 (shape1 c))) as [l|] eqn:Hl; [|done].
  cbn [mbind option_bind] in Hr.
  apply (mapM_returned _
    (λ i, (λ conf, concat ((λ s, radial_block_row self c species conf i s)
                             <$> self_species self)) <$> rows c)) in Hl.
  - subst l. destruct (seq 0 (shape1 c)) as [|i0 ixs] eqn:Hseq; [done|].
    rewrite torch_stack1_fmap in Hr by done. unfold radial_expected.
    rewrite Hseq. congruence.
  - intros i y [_ Hi]%elem_of_seq Hy. simpl in Hi.
    destruct (mapM _ (self_species self)) as [blocks|] eqn:Hblocks; [|done].
    cbn [mbind option_bind] in Hy.
    apply (mapM_returned _
      (λ s, (λ conf, radial_block_row self c species conf i s) <$> rows c)) in Hblocks.
    + subst blocks. destruct (self_species self) as [|s0 ss]; [done|].
      rewrite torch_cat1_fmap in Hy by done. congruence.
    + intros s b _. by apply radial_block_returned.
Qed.

Lemma angular_aevs_returned (angular : list (list (list (option R)))) :
  angular_aevs self c sn = Some angular → angular = angular_expected self c species.
Proof.
  unfold angular_aevs. intros Hr.
  destruct (mapM _ (seq 0 (shape1 c))) as [l|] eqn:Hl; [|done].
  cbn [mbind option_bind] in Hr.
  apply (mapM_returned _
    (λ i, (λ conf, concat ((λ jk, angular_block_row self c species conf i jk)
             <$> combinations_with_replacement (self_species self))) <$> rows c)) in Hl.
  - subst l. destruct (seq 0 (shape1 c)) as [|i0 ixs] eqn:Hseq; [done|].
    rewrite torch_stack1_fmap in Hr by done. unfold angular_expected.
    rewrite Hseq. congruence.
  - intros i y [_ Hi]%elem_of_seq Hy. simpl in Hi.
    destruct (mapM _ (combinations_with_replacement (self_species self)))
      as [blocks|] eqn:Hblocks; [|done].
    cbn [mbind option_bind] in Hy.
    apply (mapM_returned _
      (λ jk, (λ conf, angular_block_row self c species conf i jk) <$> rows c)) in Hblocks.
    + subst blocks.
      destruct (combinations_with_replacement (self_species self)) as [|s0 ss]; [done|].
      rewrite torch_cat1_fmap in Hy by done. congruence.
    + intros jk b _. by apply angular_block_returned.
Qed.

End Returned.

Lemma NeighborAEV_call_returned (self : NeighborAEV) (c : tensor vec3)
    (species : list string) (radial : list (list (list R)))
    (angular : list (list (list (option R)))) :
  valid_input c species →
  NeighborAEV_call self c species = Some (radial, angular) →
  radial = radial_expected self c species ∧ angular = angular_expected self c species.
Proof.
  intros (Hwf & HA & Hlen). unfold NeighborAEV_call.
  destruct (species_selectors_spec (shape1 c) species) as (m & -> & Hm); [lia|].
  cbn [mbind option_bind]. intros Hcall.
  destruct (radial_aevs self c _) as [r|] eqn:Hr; [|done].
  cbn [mbind option_bind] in Hcall.
  destruct (angular_aevs self c _) as [a|] eqn:Ha; [|done].
  cbn [mbind option_bind] in Hcall. injection Hcall as <- <-.
  split.
  - by apply (radial_aevs_returned self c species m).
  - by apply (angular_aevs_returned self c species m).
Qed.

(** ** The shape of the result *)

(** C1 (amended): on every rectangular input over at least one atom, the
    call of an engine with a non-empty vocabulary and non-empty constant sets
    returns, and every result that a call returns is a radial tensor of shape
    (B, A, S * |EtaR| * |ShfR|) and an angular tensor of shape
    (B, A, C(S+1,2) * |EtaA| * |Zeta| * |ShfA| * |ShfZ|), whatever the
    neighbors are. *)
Theorem call_shape (self : NeighborAEV) (c : tensor vec3) (species : list string) :
  valid_input c species →
  (engine_ok self →
   ∃ radial angular, NeighborAEV_call self c species = Some (radial, angular)) ∧
  ∀ radial angular,
    NeighborAEV_call self c species = Some (radial, angular) →
    has_shape (shape0 c) (shape1 c)
      (length (self_species self)
       * (length (EtaR (self_constants self)) * length (ShfR (self_constants self))))
      radial ∧
    has_shape (shape0 c) (shape1 c)
      (binom (length (self_species self) + 1) 2
       * (length (EtaA (self_constants self)) * length (Zeta (self_constants self))
          * length (ShfA (self_constants self)) * length (ShfZ (self_constants self))))
      angular.
Proof.
  intros Hin. split.
  { intros Hok. eexists _, _. by apply NeighborAEV_call_closed. }
  intros radial angular [-> ->]%NeighborAEV_call_returned; [|done].
  destruct Hin as (Hwf & _). split.
  - by apply radial_expected_shape.
  - by apply angular_expected_shape.
Qed.

Lemma scenario_A_engine_ok : engine_ok scenario_A_engine.
Proof. unfold engine_ok. cbn. lia. Qed.

Lemma scenario_A_valid : valid_input scenario_A_coordinates scenario_A_species.
Proof.
  unfold valid_input, tensor_wf. cbn. repeat split; try lia.
  by repeat constructor.
Qed.

Lemma call_shape_witness :
  valid_input scenario_A_coordinates scenario_A_species ∧
  ∃ radial angular,
    NeighborAEV_call scenario_A_engine scenario_A_coordinates scenario_A_species
    = Some (radial, angular) ∧
    has_shape 1 2 (1 * (1 * 1)) radial ∧
    has_shape 1 2 (binom (1 + 1) 2 * (1 * 1 * 1 * 1)) angular.
Proof.
  split; [exact scenario_A_valid|].
  destruct (call_shape scenario_A_engine scenario_A_coordinates scenario_A_species
              scenario_A_valid) as (Hreturns & Hshape).
  destruct (Hreturns scenario_A_engine_ok) as (radial & angular & Hcall).
  exists radial, angular. split; [exact Hcall|].
  exact (Hshape radial angular Hcall).
Defined.

(** ** Calls that raise *)

Lemma norm_vsub_self (a : vec3) : norm (vsub a a) = 0%R.
Proof.
  unfold norm, sum_sq, vsub. simpl.
  replace ((vx a - vx a) * ((vx a - vx a) * 1) + (vy a - vy a) * ((vy a - vy a) * 1)
           + (vz a - vz a) * ((vz a - vz a) * 1))%R with 0%R by ring.
  apply sqrt_0.
Qed.

Lemma distance_unit_x : distance (Vec3 0 0 0) (Vec3 1 0 0) = 1%R.
Proof.
  unfold distance, norm, sum_sq, vsub. simpl.
  replace ((1 - 0) * ((1 - 0) * 1) + (0 - 0) * ((0 - 0) * 1) + (0 - 0) * ((0 - 0) * 1))%R
    with 1%R by lra.
  apply sqrt_1.
Qed.

Lemma scenario_A_adjacent (cutoff : R) :
  (1 <= cutoff)%R → adjacent scenario_A_coordinates cutoff 0 1.
Proof.
  intros H. split; [done|]. apply Exists_cons_hd. simpl.
  by rewrite distance_unit_x.
Qed.

Lemma scenario_A_neighbors (cutoff : R) :
  (1 <= cutoff)%R →
  neighbors_of scenario_A_coordinates scenario_A_species cutoff 0 "H" = [1].
Proof.
  intros H. unfold neighbors_of. simpl.
  rewrite filter_cons_False by (intros [[? _] _]; done).
  rewrite filter_cons_True by (split; [by apply scenario_A_adjacent | done]).
  done.
Qed.

Lemma no_species_raises :
  NeighborAEV_call no_species_engine scenario_A_coordinates scenario_A_species = None.
Proof.
  unfold NeighborAEV_call.
  destruct (species_selectors_spec (shape1 scenario_A_coordinates) scenario_A_species)
    as (m & -> & _); [simpl; lia|].
  done.
Qed.

Lemma no_atoms_raises :
  NeighborAEV_call scenario_A_engine no_atoms_coordinates [] = None.
Proof. done. Qed.

Lemma no_EtaR_raises :
  NeighborAEV_call no_EtaR_engine scenario_A_coordinates scenario_A_species = None.
Proof.
  unfold NeighborAEV_call.
  destruct (species_selectors_spec (shape1 scenario_A_coordinates) scenario_A_species)
    as (m & -> & Hm); [simpl; lia|].
  destruct scenario_A_valid as (Hwf & _).
  destruct (species_neighbors_present no_EtaR_engine scenario_A_coordinates
              scenario_A_species m Hwf Hm "H" 0) as (nb & Hnb & Hr & _);
    [simpl; apply list_elem_of_here | simpl; lia |].
  rewrite scenario_A_neighbors in Hr by (simpl; lra).
  cbn [mbind option_bind]. unfold radial_aevs.
  change (seq 0 (shape1 scenario_A_coordinates)) with [0; 1].
  change (self_species no_EtaR_engine) with ["H"%string].
  set (sn := species_neighbors _ _ m) in *.
  assert (radial_block no_EtaR_engine scenario_A_coordinates sn 0 "H" = None) as Hblock.
  { unfold radial_block. rewrite Hnb. cbv beta iota zeta.
    rewrite Hr. rewrite decide_True by (simpl; lia). done. }
  cbn [mapM]. by rewrite Hblock.
Qed.

(** C1 as stated fails: valid inputs on which the call raises instead of
    returning tensors, for an empty vocabulary, for an empty constant set
    and for an input without atoms. *)
Lemma call_shape_counterexample :
  (valid_input scenario_A_coordinates scenario_A_species ∧
   NeighborAEV_call no_species_engine scenario_A_coordinates scenario_A_species = None) ∧
  (valid_input scenario_A_coordinates scenario_A_species ∧
   NeighborAEV_call no_EtaR_engine scenario_A_coordinates scenario_A_species = None) ∧
  (tensor_wf no_atoms_coordinates ∧ length ([] : list string) = shape1 no_atoms_coordinates ∧
   NeighborAEV_call scenario_A_engine no_atoms_coordinates [] = None).
Proof.
  split; [split; [exact scenario_A_valid | exact no_species_raises]|].
  split; [split; [exact scenario_A_valid | exact no_EtaR_raises]|].
  split; [|split; [done | exact no_atoms_raises]].
  split; [done | by repeat constructor].
Qed.

(** ** The neighbor relation of a call *)

Lemma adjacent_iff (c : tensor vec3) (cutoff : R) (i j : nat) :
  tensor_wf c →
  adjacent c cutoff i j ↔
  i ≠ j ∧ ∃ n, n < shape0 c ∧ (distance (coord c n i) (coord c n j) <= cutoff)%R.
Proof.
  intros [HB _]. unfold adjacent, coord. rewrite Exists_exists.
  split; intros [Hne H]; (split; [done|]).
  - destruct H as (conf & [n Hn]%list_elem_of_lookup_1 & Hd).
    exists n. split.
    + rewrite <- HB. by eapply lookup_lt_Some.
    + by rewrite (nth_lookup_Some _ _ _ _ Hn).
  - destruct H as (n & Hn & Hd). rewrite <- HB in Hn.
    destruct (lookup_lt_is_Some_2 _ _ Hn) as [conf Hconf].
    exists conf. split; [by eapply list_elem_of_lookup_2|].
    by rewrite (nth_lookup_Some _ _ _ _ Hconf) in Hd.
Qed.

(** C5: in the mask that a call builds for a cutoff radius (in_Rcr for Rcr,
    in_Rca for Rca), entry (i, j) is 1 exactly when i and j are different
    atoms whose distance is at most the cutoff in at least one conformation
    of the batch, and 0 otherwise; the diagonal is 0 although the distance of
    an atom to itself is 0. *)
Theorem neighbor_relation (c : tensor vec3) (cutoff : R) (i j : nat) :
  tensor_wf c → i < shape1 c → j < shape1 c →
  let mask := in_cutoff (shape1 c) (R_distances c) cutoff in
  (nth j (nth i mask []) 0%Z = 1%Z ∨ nth j (nth i mask []) 0%Z = 0%Z) ∧
  (nth j (nth i mask []) 0%Z = 1%Z ↔
     i ≠ j ∧ ∃ n, n < shape0 c ∧ (distance (coord c n i) (coord c n j) <= cutoff)%R) ∧
  nth i (nth i mask []) 0%Z = 0%Z ∧
  (∀ n, distance (coord c n i) (coord c n i) = 0%R).
Proof.
  intros Hwf Hi Hj mask. unfold mask.
  rewrite (nth_lookup_Some _ _ _ _ (in_cutoff_row c cutoff i Hwf Hi)).
  rewrite !nth_tabulate by done.
  rewrite <- (adjacent_iff c cutoff i j Hwf).
  split; [case_decide; auto|]. split; [|split].
  - case_decide; split; done.
  - rewrite decide_False; [done|]. by intros [? _].
  - intros n. apply norm_vsub_self.
Qed.

Lemma neighbor_relation_witness :
  tensor_wf scenario_A_coordinates ∧
  nth 1 (nth 0 (in_cutoff 2 (R_distances scenario_A_coordinates) 5) []) 0%Z = 1%Z ∧
  nth 0 (nth 0 (in_cutoff 2 (R_distances scenario_A_coordinates) 5) []) 0%Z = 0%Z.
Proof.
  destruct scenario_A_valid as (Hwf & _). split; [exact Hwf|].
  assert (0 < shape1 scenario_A_coordinates) as H0 by (simpl; lia).
  assert (1 < shape1 scenario_A_coordinates) as H1 by (simpl; lia).
  destruct (neighbor_relation scenario_A_coordinates 5 0 1 Hwf H0 H1)
    as (_ & Hiff & Hdiag & _).
  split; [|exact Hdiag]. apply Hiff. split; [done|].
  exists 0. split; [simpl; lia|]. change (distance (Vec3 0 0 0) (Vec3 1 0 0) <= 5)%R.
  rewrite distance_unit_x. lra.
Defined.

(** ** Blocks of the result *)

Lemma concat_block {T} (t : list (list T)) (w i : nat) (r : list T) :
  Forall (λ v, length v = w) t → t !! i = Some r →
  take w (drop (i * w) (concat t)) = r.
Proof.
  intros Hw. revert i. induction Hw as [|v t Hv Hw IH]; intros i Hi; [done|].
  destruct i as [|i]; simpl in *.
  - simplify_eq. by apply take_app_length'.
  - replace (w + i * w) with (length v + i * w) by lia.
    rewrite drop_app_add. by apply IH.
Qed.

Section Blocks.
Variables (self : NeighborAEV) (c : tensor vec3) (species : list string).
Hypothesis Hwf : tensor_wf c.
Variables n i : nat.
Hypothesis Hn : n < shape0 c.
Hypothesis Hi : i < shape1 c.

Let K := self_constants self.
Let conf := nth n (rows c) [].

Lemma radial_expected_row :
  nth i (nth n (radial_expected self c species) []) []
  = concat ((λ s, radial_block_row self c species conf i s) <$> self_species self).
Proof.
  unfold radial_expected. destruct Hwf as [HB _].
  rewrite (nth_fmap_lt _ _ n [] []) by lia.
  rewrite (nth_fmap_lt _ _ i [] 0) by (rewrite length_seq; lia).
  by rewrite seq_nth by lia.
Qed.

Lemma angular_expected_row :
  nth i (nth n (angular_expected self c species) []) []
  = concat ((λ jk, angular_block_row self c species conf i jk)
              <$> combinations_with_replacement (self_species self)).
Proof.
  unfold angular_expected. destruct Hwf as [HB _].
  rewrite (nth_fmap_lt _ _ n [] []) by lia.
  rewrite (nth_fmap_lt _ _ i [] 0) by (rewrite length_seq; lia).
  by rewrite seq_nth by lia.
Qed.

Lemma radial_expected_block (si : nat) :
  si < length (self_species self) →
  take (per_species_radial_length self)
       (drop (si * per_species_radial_length self)
             (nth i (nth n (radial_expected self c species) []) []))
  = radial_block_row self c species conf i (nth si (self_species self) ""%string).
Proof.
  intros Hsi. rewrite radial_expected_row. apply concat_block.
  - apply Forall_fmap, Forall_true. intros s. simpl. apply length_radial_row.
  - rewrite list_lookup_fmap.
    destruct (lookup_lt_is_Some_2 _ _ Hsi) as [s Hs].
    by rewrite (nth_lookup_Some _ _ _ _ Hs), Hs.
Qed.

Lemma angular_expected_block (p : nat) :
  p < length (combinations_with_replacement (self_species self)) →
  take (per_species_angular_length self)
       (drop (p * per_species_angular_length self)
             (nth i (nth n (angular_expected self c species) []) []))
  = angular_block_row self c species conf i
      (nth p (combinations_with_replacement (self_species self)) (""%string, ""%string)).
Proof.
  intros Hp. rewrite angular_expected_row. apply concat_block.
  - apply Forall_fmap, Forall_true. intros s. simpl. apply length_angular_row.
  - rewrite list_lookup_fmap.
    destruct (lookup_lt_is_Some_2 _ _ Hp) as [s Hs].
    by rewrite (nth_lookup_Some _ _ _ _ Hs), Hs.
Qed.

End Blocks.

(** C7: on a valid input the call of a usable engine returns, and in every
    result that a call returns an atom without radial neighbors of a species
    has the zero vector as its radial block for that species, in every
    conformation, and an atom whose neighbor-pair list for a species pair is
    empty has the zero vector as its angular block for that pair. *)
Theorem zero_fill (self : NeighborAEV) (c : tensor vec3) (species : list string) :
  valid_input c species →
  (engine_ok self →
   ∃ radial angular, NeighborAEV_call self c species = Some (radial, angular)) ∧
  ∀ radial angular,
    NeighborAEV_call self c species = Some (radial, angular) →
    (∀ n i si,
       n < shape0 c → i < shape1 c → si < length (self_species self) →
       neighbors_of c species (Rcr (self_constants self)) i
                    (nth si (self_species self) ""%string) = [] →
       take (per_species_radial_length self)
            (drop (si * per_species_radial_length self) (nth i (nth n radial []) []))
       = replicate (per_species_radial_length self) 0%R) ∧
    (∀ n i p,
       n < shape0 c → i < shape1 c →
       p < length (combinations_with_replacement (self_species self)) →
       pairs_of c species (Rca (self_constants self)) i
                (nth p (combinations_with_replacement (self_species self))
                     (""%string, ""%string)) = [] →
       take (per_species_angular_length self)
            (drop (p * per_species_angular_length self) (nth i (nth n angular []) []))
       = replicate (per_species_angular_length self) (Some 0%R)).
Proof.
  intros Hin. split.
  { intros Hok. eexists _, _. by apply NeighborAEV_call_closed. }
  intros radial angular [-> ->]%NeighborAEV_call_returned; [|done].
  destruct Hin as (Hwf & _). split.
  - intros n i si Hn Hi Hsi Hnil.
    rewrite radial_expected_block by done.
    unfold radial_block_row. rewrite Hnil. apply radial_row_nil.
  - intros n i p Hn Hi Hp Hnil.
    rewrite angular_expected_block by done.
    unfold angular_block_row. rewrite Hnil. apply angular_row_nil.
Qed.

Lemma scenario_A_pairs :
  pairs_of scenario_A_coordinates scenario_A_species 5 0 ("H"%string, "H"%string) = [].
Proof.
  unfold pairs_of. rewrite decide_True by done. simpl.
  by rewrite scenario_A_neighbors by lra.
Qed.

Lemma zero_fill_witness :
  valid_input scenario_A_coordinates scenario_A_species ∧
  ∃ radial angular,
    NeighborAEV_call scenario_A_engine scenario_A_coordinates scenario_A_species
    = Some (radial, angular) ∧
    take 1 (drop (0 * 1) (nth 0 (nth 0 angular []) [])) = [Some 0%R].
Proof.
  split; [exact scenario_A_valid|].
  destruct (zero_fill scenario_A_engine scenario_A_coordinates scenario_A_species
              scenario_A_valid) as (Hreturns & Hzero).
  destruct (Hreturns scenario_A_engine_ok) as (radial & angular & Hcall).
  exists radial, angular. split; [exact Hcall|].
  destruct (Hzero radial angular Hcall) as (_ & Hang).
  apply (Hang 0 0 0); [simpl; lia | simpl; lia | simpl; lia |].
  exact scenario_A_pairs.
Defined.

(** ** Entries of the radial result *)

Lemma lookup_fmap_nth {T U} (f : T → U) (l : list T) (i : nat) (d : T) :
  i < length l → (f <$> l) !! i = Some (f (nth i l d)).
Proof.
  intros Hi. rewrite list_lookup_fmap.
  destruct (lookup_lt_is_Some_2 _ _ Hi) as [x Hx].
  by rewrite (nth_lookup_Some _ _ _ _ Hx), Hx.
Qed.

Lemma radial_row_lookup (K : constants) (x : vec3) (nb : list vec3) (e sh : nat) :
  e < length (EtaR K) → sh < length (ShfR K) →
  radial_row K x nb !! (e * length (ShfR K) + sh)
  = Some (Rsum ((λ y, radial_term K (nth e (EtaR K) 0%R) (nth sh (ShfR K) 0%R)
                                    (distance x y)) <$> nb)).
Proof.
  intros He Hsh. unfold radial_row.
  eapply lookup_concat_rect.
  - apply Forall_fmap, Forall_true. intros ?. simpl. by rewrite length_fmap.
  - by rewrite (lookup_fmap_nth _ _ _ 0%R) by done.
  - by rewrite (lookup_fmap_nth _ _ _ 0%R) by done.
Qed.






(** ** Entries of the angular result *)

Lemma angular_row_lookup (K : constants) (x : vec3) (ps : list (vec3 * vec3))
    (e z a q : nat) :
  e < length (EtaA K) → z < length (Zeta K) →
  a < length (ShfA K) → q < length (ShfZ K) →
  angular_row K x ps
    !! (((e * length (Zeta K) + z) * length (ShfA K) + a) * length (ShfZ K) + q)
  = Some (xsum (angular_term K (nth e (EtaA K) 0%R) (nth z (Zeta K) 0%R)
                               (nth a (ShfA K) 0%R) (nth q (ShfZ K) 0%R) x <$> ps)).
Proof.
  intros He Hz Ha Hq. unfold angular_row.
  eapply lookup_concat_rect.
  - apply Forall_concat, Forall_concat, Forall_fmap, Forall_true. intros ?. simpl.
    apply Forall_fmap, Forall_true. intros ?. simpl.
    apply Forall_fmap, Forall_true. intros ?. simpl. by rewrite length_fmap.
  - eapply lookup_concat_rect.
    + apply Forall_concat, Forall_fmap, Forall_true. intros ?. simpl.
      apply Forall_fmap, Forall_true. intros ?. simpl. by rewrite length_fmap.
    + eapply lookup_concat_rect.
      * apply Forall_fmap, Forall_true. intros ?. simpl. by rewrite length_fmap.
      * by rewrite (lookup_fmap_nth _ _ _ 0%R) by done.
      * by rewrite (lookup_fmap_nth _ _ _ 0%R) by done.
    + by rewrite (lookup_fmap_nth _ _ _ 0%R) by done.
  - by rewrite (lookup_fmap_nth _ _ _ 0%R) by done.
Qed.

Lemma angular_expected_entry (self : NeighborAEV) (c : tensor vec3)
    (species : list string) (n i p e z a q : nat) :
  tensor_wf c →
  n < shape0 c → i < shape1 c →
  p < length (combinations_with_replacement (self_species self)) →
  e < length (EtaA (self_constants self)) →
  z < length (Zeta (self_constants self)) →
  a < length (ShfA (self_constants self)) →
  q < length (ShfZ (self_constants self)) →
  nth (p * per_species_angular_length self
       + (((e * length (Zeta (self_constants self)) + z)
           * length (ShfA (self_constants self)) + a)
          * length (ShfZ (self_constants self)) + q))
      (nth i (nth n (angular_expected self c species) []) []) None
  = xsum ((λ jk : nat * nat,
          let u := vsub (coord c n jk.1) (coord c n i) in
          let v := vsub (coord c n jk.2) (coord c n i) in
          let d1 := norm u in
          let d2 := norm v in
          let angle := xacos (xdiv (0.95 * inner u v) (d1 * d2)) in
          w ← xpow ((λ ang, (1 + cos (ang - nth q (ShfZ (self_constants self)) 0)) / 2)%R
                     <$> angle) (nth z (Zeta (self_constants self)) 0%R);
          Some (2 * w
                * exp (- nth e (EtaA (self_constants self)) 0
                         * ((d1 + d2) / 2 - nth a (ShfA (self_constants self)) 0) ^ 2)
                * _cutoff_cosine d1 (Rca (self_constants self))
                * _cutoff_cosine d2 (Rca (self_constants self)))%R)
          <$> pairs_of c species (Rca (self_constants self)) i
                (nth p (combinations_with_replacement (self_species self))
                     (""%string, ""%string))).
Proof.
  intros Hwf Hn Hi Hp He Hz Ha Hq.
  rewrite angular_expected_row by done.
  apply nth_lookup_Some. eapply lookup_concat_rect.
  - apply Forall_fmap, Forall_true. intros s. simpl. apply length_angular_row.
  - by rewrite (lookup_fmap_nth _ _ _ (""%string, ""%string)) by done.
  - unfold angular_block_row. rewrite angular_row_lookup by done.
    f_equal. unfold gather2. rewrite <- list_fmap_compose. done.
Qed.

Lemma angular_entry_general (self : NeighborAEV) (c : tensor vec3) (species : list string) :
  valid_input c species →
  (engine_ok self →
   ∃ radial angular, NeighborAEV_call self c species = Some (radial, angular)) ∧
  ∀ radial angular,
    NeighborAEV_call self c species = Some (radial, angular) →
    ∀ n i p e z a q,
      n < shape0 c → i < shape1 c →
      p < length (combinations_with_replacement (self_species self)) →
      e < length (EtaA (self_constants self)) →
      z < length (Zeta (self_constants self)) →
      a < length (ShfA (self_constants self)) →
      q < length (ShfZ (self_constants self)) →
      nth (p * per_species_angular_length self
           + (((e * length (Zeta (self_constants self)) + z)
               * length (ShfA (self_constants self)) + a)
              * length (ShfZ (self_constants self)) + q))
          (nth i (nth n angular []) []) None
      = xsum ((λ jk : nat * nat,
          let u := vsub (coord c n jk.1) (coord c n i) in
          let v := vsub (coord c n jk.2) (coord c n i) in
          let d1 := norm u in
          let d2 := norm v in
          let angle := xacos (xdiv (0.95 * inner u v) (d1 * d2)) in
          w ← xpow ((λ ang, (1 + cos (ang - nth q (ShfZ (self_constants self)) 0)) / 2)%R
                     <$> angle) (nth z (Zeta (self_constants self)) 0%R);
          Some (2 * w
                * exp (- nth e (EtaA (self_constants self)) 0
                         * ((d1 + d2) / 2 - nth a (ShfA (self_constants self)) 0) ^ 2)
                * _cutoff_cosine d1 (Rca (self_constants self))
                * _cutoff_cosine d2 (Rca (self_constants self)))%R)
          <$> pairs_of c species (Rca (self_constants self)) i
                (nth p (combinations_with_replacement (self_species self))
                     (""%string, ""%string))).
Proof.
  intros Hin. split.
  { intros Hok. eexists _, _. by apply NeighborAEV_call_closed. }
  intros radial angular [-> ->]%NeighborAEV_call_returned; [|done].
  destruct Hin as (Hwf & _). intros n i p e z a q Hn Hi Hp He Hz Ha Hq.
  by apply angular_expected_entry.
Qed.

(** ** The enclosed angle *)

Section Angle.
Local Open Scope R_scope.

Lemma sum_sq_nonneg (v : vec3) : 0 <= sum_sq v.
Proof. unfold sum_sq. destruct v as [x y z]. simpl. nra. Qed.

Lemma norm_nonneg (v : vec3) : 0 <= norm v.
Proof. apply sqrt_pos. Qed.

Lemma norm_sqr (v : vec3) : norm v * norm v = sum_sq v.
Proof. apply sqrt_sqrt, sum_sq_nonneg. Qed.

Lemma cauchy_schwarz_sq (u v : vec3) : inner u v * inner u v <= sum_sq u * sum_sq v.
Proof.
  destruct u as [a b c], v as [x y z]. unfold inner, sum_sq. simpl.
  pose proof (Rle_0_sqr (a * y - b * x)) as H1.
  pose proof (Rle_0_sqr (a * z - c * x)) as H2.
  pose proof (Rle_0_sqr (b * z - c * y)) as H3.
  unfold Rsqr in *. nra.
Qed.

Lemma cauchy_schwarz (u v : vec3) : Rabs (inner u v) <= norm u * norm v.
Proof.
  pose proof (norm_nonneg u) as Hu. pose proof (norm_nonneg v) as Hv.
  rewrite <- (Rabs_pos_eq (norm u * norm v)) by nra.
  apply Rsqr_le_abs_0. unfold Rsqr.
  replace (norm u * norm v * (norm u * norm v))
    with ((norm u * norm u) * (norm v * norm v)) by ring.
  rewrite !norm_sqr. apply cauchy_schwarz_sq.
Qed.

Lemma cos_angle_bound (u v : vec3) :
  0 < norm u → 0 < norm v →
  Rabs (0.95 * inner u v / (norm u * norm v)) <= 0.95.
Proof.
  intros Hu Hv. assert (0 < norm u * norm v) as Hp by nra.
  unfold Rdiv. rewrite !Rabs_mult, (Rabs_pos_eq 0.95) by lra.
  rewrite (Rabs_pos_eq (/ _)) by (left; by apply Rinv_0_lt_compat).
  rewrite Rmult_assoc. rewrite <- (Rmult_1_r 0.95) at 2.
  apply Rmult_le_compat_l; [lra|].
  apply (Rmult_le_reg_r (norm u * norm v)); [done|].
  rewrite Rmult_assoc, Rinv_l, Rmult_1_r, Rmult_1_l by lra.
  apply cauchy_schwarz.
Qed.

Lemma enclosed_angle_defined (u v : vec3) :
  0 < norm u → 0 < norm v →
  enclosed_angle u v = Some (acos (0.95 * inner u v / (norm u * norm v))).
Proof.
  intros Hu Hv. unfold enclosed_angle, xdiv, xacos.
  rewrite decide_False by nra. simpl.
  pose proof (cos_angle_bound u v Hu Hv) as Hb.
  set (x := 0.95 * inner u v / (norm u * norm v)) in *.
  pose proof (Rle_abs x) as Hx1. pose proof (Rle_abs (- x)) as Hx2.
  rewrite Rabs_Ropp in Hx2. by rewrite decide_True by lra.
Qed.

Lemma enclosed_angle_undefined (u v : vec3) :
  norm u * norm v = 0 → enclosed_angle u v = None.
Proof. intros H0. unfold enclosed_angle, xdiv. by rewrite decide_True. Qed.

Lemma angular_term_real (K : constants) (eta zeta shfa shfz : R) (center : vec3)
    (p : vec3 * vec3) :
  0 < distance center p.1 → 0 < distance center p.2 → 0 < zeta →
  angular_term K eta zeta shfa shfz center p
  = Some (2 * real_pow ((1 + cos (acos (0.95 * inner (vsub p.1 center) (vsub p.2 center)
                                          / (distance center p.1 * distance center p.2))
                                  - shfz)) / 2) zeta
            * exp (- eta * ((distance center p.1 + distance center p.2) / 2 - shfa) ^ 2)
            * _cutoff_cosine (distance center p.1) (Rca K)
            * _cutoff_cosine (distance center p.2) (Rca K)).
Proof.
  intros H1 H2 Hz. unfold angular_term, distance in *.
  rewrite enclosed_angle_defined by done. simpl.
  set (b := (1 + cos _) / 2).
  assert (0 <= b) as Hb.
  { unfold b. match goal with |- context [cos ?x] => pose proof (COS_bound x) end. lra. }
  unfold xpow, real_pow. rewrite (decide_False (P:=zeta = 0)) by lra. simpl.
  destruct (decide (b = 0)) as [Hb0|Hb0].
  - by rewrite decide_True.
  - by rewrite decide_True by lra.
Qed.

End Angle.






(** ** The pair lists *)

Lemma elem_of_cartesian_prod2 {T} (l k : list T) (a b : T) :
  (a, b) ∈ cartesian_prod2 l k ↔ a ∈ l ∧ b ∈ k.
Proof.
  unfold cartesian_prod2. rewrite list_elem_of_bind. split.
  - intros (x & (y & [= -> ->] & Hy)%list_elem_of_fmap & Hx). done.
  - intros [Ha Hb]. exists a. split; [|done]. apply list_elem_of_fmap. eauto.
Qed.

Lemma NoDup_cartesian_prod2 {T} (l k : list T) :
  NoDup l → NoDup k → NoDup (cartesian_prod2 l k).
Proof.
  intros Hl Hk. unfold cartesian_prod2. apply NoDup_bind; [| |done].
  - intros x1 x2 [a b] _ _ (y1 & [= -> ->] & _)%list_elem_of_fmap
      (y2 & [= -> ->] & _)%list_elem_of_fmap. done.
  - intros x _. apply NoDup_fmap_2; [|done]. by intros ?? [=].
Qed.

Lemma cartesian_prod2_nil_iff {T} (l k : list T) :
  cartesian_prod2 l k = [] ↔ l = [] ∨ k = [].
Proof.
  split.
  - intros E%(f_equal length). rewrite length_cartesian_prod2 in E. simpl in E.
    destruct l, k; simpl in *; auto; lia.
  - intros [-> | ->]; [done | apply cartesian_prod2_nil_r].
Qed.

Lemma combinations2_nil_iff {T} (l : list T) :
  combinations2 l = [] ↔ length l < 2.
Proof.
  split.
  - destruct l as [|x [|y l]]; simpl; [lia | lia | done].
  - intros H. apply combinations2_short. lia.
Qed.

Lemma elem_of_combinations2 (l : list nat) (a b : nat) :
  StronglySorted lt l →
  (a, b) ∈ combinations2 l ↔ a ∈ l ∧ b ∈ l ∧ a < b.
Proof.
  induction l as [|x l IH]; intros Hs.
  - simpl. split; [by intros ?%elem_of_nil | by intros [?%elem_of_nil _]].
  - apply StronglySorted_cons in Hs as [Hx Hs]. rewrite Forall_forall in Hx.
    cbn [combinations2]. rewrite elem_of_app, list_elem_of_fmap, IH by done.
    rewrite !elem_of_cons. split.
    + intros [(y & [= -> ->] & Hy)|(Ha & Hb & Hab)]; [|by auto].
      split; [by left|]. split; [by right|]. by apply Hx.
    + intros ([->|Ha] & [->|Hb] & Hab); [lia | left; eauto | | right; done].
      apply Hx in Ha. lia.
Qed.

Lemma NoDup_combinations2 (l : list nat) :
  StronglySorted lt l → NoDup (combinations2 l).
Proof.
  induction l as [|x l IH]; intros Hs; [constructor|].
  pose proof Hs as Hs'.
  apply StronglySorted_cons in Hs as [Hx Hs]. rewrite Forall_forall in Hx.
  cbn [combinations2]. apply NoDup_app. split; [|split; [|by apply IH]].
  - apply NoDup_fmap_2; [by intros ?? [=]|].
    clear -Hs. induction Hs as [|y l Hs IH Hy]; constructor; [|done].
    intros Hin. rewrite Forall_forall in Hy. apply Hy in Hin. lia.
  - intros [a b] (y & [= -> ->] & Hy)%list_elem_of_fmap Hin.
    apply elem_of_combinations2 in Hin as (Ha & _); [|done].
    apply Hx in Ha. lia.
Qed.

Lemma StronglySorted_seq (a n : nat) : StronglySorted lt (seq a n).
Proof.
  revert a. induction n as [|n IH]; intros a; simpl; constructor; [apply IH|].
  apply Forall_forall. intros x Hx%elem_of_seq. lia.
Qed.

Lemma StronglySorted_filter (P : nat → Prop) `{!∀ x, Decision (P x)} (l : list nat) :
  StronglySorted lt l → StronglySorted lt (filter P l).
Proof.
  induction 1 as [|x l Hs IH Hx]; [constructor|].
  rewrite filter_cons. case_decide; [|done]. constructor; [done|].
  rewrite Forall_forall in *. intros y [_ Hy]%list_elem_of_filter. by apply Hx.
Qed.

Lemma neighbors_of_sorted (c : tensor vec3) (species : list string) (cutoff : R)
    (i : nat) (s : string) :
  StronglySorted lt (neighbors_of c species cutoff i s).
Proof. apply StronglySorted_filter, StronglySorted_seq. Qed.

Lemma elem_of_neighbors_of (c : tensor vec3) (species : list string) (cutoff : R)
    (i : nat) (s : string) (a : nat) :
  a ∈ neighbors_of c species cutoff i s
  ↔ a < shape1 c ∧ adjacent c cutoff i a ∧ species !! a = Some s.
Proof.
  unfold neighbors_of. rewrite list_elem_of_filter, elem_of_seq. intuition lia.
Qed.

(** C6: for every center atom i and species pair (j, k), the neighbor
    pairs that the call hands to [angular_subaev] are the positions of an
    index-pair list without duplicates which, for j = k, holds exactly the
    pairs a < b of angular neighbors of species j (none when there are fewer
    than two) and, for j <> k, exactly the pairs of an angular neighbor of
    species j with one of species k (none when either set is empty); when
    the list is empty the block is the zero block and nothing is raised. *)
Theorem neighbor_pairs (self : NeighborAEV) (c : tensor vec3) (species : list string) :
  valid_input c species →
  ∃ m, species_selectors (shape1 c) species = Some m ∧
    let K := self_constants self in
    let sn := species_neighbors (in_cutoff (shape1 c) (R_distances c) (Rcr K))
                                (in_cutoff (shape1 c) (R_distances c) (Rca K)) m in
    ∀ i j k, i < shape1 c →
      let Uj := neighbors_of c species (Rca K) i j in
      let Uk := neighbors_of c species (Rca K) i k in
      let pairs := pairs_of c species (Rca K) i (j, k) in
      angular_neighbors c sn i (j, k)
      = (if decide (pairs = []) then None
         else Some (Tensor (shape0 c) (length pairs)
                      ((λ conf, gather2 conf pairs) <$> rows c))) ∧
      (pairs = [] →
       angular_block self c sn i (j, k)
       = Some (xzeros (shape0 c) (per_species_angular_length self))) ∧
      NoDup pairs ∧
      (j = k →
         (∀ a b, (a, b) ∈ pairs ↔ a ∈ Uj ∧ b ∈ Uj ∧ a < b) ∧
         (pairs = [] ↔ length Uj < 2)) ∧
      (j ≠ k →
         (∀ a b, (a, b) ∈ pairs ↔ a ∈ Uj ∧ b ∈ Uk) ∧
         (pairs = [] ↔ Uj = [] ∨ Uk = [])).
Proof.
  intros (Hwf & HA & Hlen).
  destruct (species_selectors_spec (shape1 c) species) as (m & Hsel & Hm); [lia|].
  exists m. split; [done|]. intros K sn i j k Hi Uj Uk pairs.
  pose proof (angular_neighbors_closed self c species m Hwf Hm i (j, k) Hi) as Hclosed.
  fold K sn pairs in Hclosed. split; [done|]. split; [|split; [|split]].
  - intros Hnil. unfold angular_block. fold K sn. rewrite Hclosed.
    by rewrite decide_True.
  - unfold pairs, pairs_of. simpl. destruct (decide (j = k)).
    + apply NoDup_combinations2, neighbors_of_sorted.
    + apply NoDup_cartesian_prod2; eapply NoDup_filter, NoDup_seq.
  - intros ->. unfold pairs, pairs_of. simpl. rewrite decide_True by done. split.
    + intros a b. apply elem_of_combinations2, neighbors_of_sorted.
    + apply combinations2_nil_iff.
  - intros Hne. unfold pairs, pairs_of. simpl. rewrite decide_False by done. split.
    + intros a b. apply elem_of_cartesian_prod2.
    + apply cartesian_prod2_nil_iff.
Qed.

Lemma neighbor_pairs_witness :
  valid_input scenario_A_coordinates scenario_A_species ∧
  ∃ m, species_selectors 2 scenario_A_species = Some m ∧
    angular_neighbors scenario_A_coordinates
      (species_neighbors (in_cutoff 2 (R_distances scenario_A_coordinates) 5)
                         (in_cutoff 2 (R_distances scenario_A_coordinates) 5) m)
      0 ("H"%string, "H"%string) = None.
Proof.
  split; [exact scenario_A_valid|].
  destruct (neighbor_pairs scenario_A_engine scenario_A_coordinates scenario_A_species
              scenario_A_valid) as (m & Hsel & Hall).
  exists m. split; [exact Hsel|].
  destruct (Hall 0 "H"%string "H"%string) as (Hnb & _); [simpl; lia|].
  etrans; [exact Hnb|]. apply decide_True. exact scenario_A_pairs.
Defined.

(** ** Labels outside the vocabulary *)





(** ** An atom on top of another *)

Lemma distance_along_x (x : R) : (0 <= x)%R → distance (Vec3 0 0 0) (Vec3 x 0 0) = x.
Proof.
  intros Hx. unfold distance, norm, sum_sq, vsub. simpl.
  replace ((x - 0) * ((x - 0) * 1) + (0 - 0) * ((0 - 0) * 1) + (0 - 0) * ((0 - 0) * 1))%R
    with (x * x)%R by ring.
  by apply sqrt_square.
Qed.

Lemma overlap_batch_valid : valid_input overlap_batch overlap_species.
Proof.
  unfold valid_input, tensor_wf. cbn. repeat split; try lia.
  by repeat constructor.
Qed.

Lemma overlap_alone_valid : valid_input overlap_alone overlap_species.
Proof.
  unfold valid_input, tensor_wf. cbn. repeat split; try lia.
  by repeat constructor.
Qed.

Lemma overlap_batch_neighbors :
  neighbors_of overlap_batch overlap_species 5 0 "H" = [1; 2].
Proof.
  unfold neighbors_of. simpl.
  rewrite filter_cons_False by (intros [[? _] _]; done).
  rewrite filter_cons_True.
  2:{ split; [|done]. split; [done|]. apply Exists_cons_hd. simpl.
      change (distance (Vec3 0 0 0) (Vec3 0 0 0) <= 5)%R.
      unfold distance. rewrite norm_vsub_self. lra. }
  rewrite filter_cons_True; [done|].
  split; [|done]. split; [done|]. apply Exists_cons_tl, Exists_cons_hd. simpl.
  rewrite distance_unit_x. lra.
Qed.

Lemma overlap_alone_neighbors :
  neighbors_of overlap_alone overlap_species 5 0 "H" = [1].
Proof.
  unfold neighbors_of. simpl.
  rewrite filter_cons_False by (intros [[? _] _]; done).
  rewrite filter_cons_True.
  2:{ split; [|done]. split; [done|]. apply Exists_cons_hd. simpl.
      change (distance (Vec3 0 0 0) (Vec3 0 0 0) <= 5)%R.
      unfold distance. rewrite norm_vsub_self. lra. }
  rewrite filter_cons_False; [done|].
  intros [[_ Hex] _]. apply Exists_cons in Hex as [Hd|Hnil].
  - simpl in Hd. rewrite distance_along_x in Hd by lra. lra.
  - by apply Exists_nil in Hnil.
Qed.

Lemma overlap_batch_entry :
  ∃ radial angular,
    NeighborAEV_call scenario_A_engine overlap_batch overlap_species
    = Some (radial, angular) ∧
    nth 0 (nth 0 (nth 0 angular []) []) None = None.
Proof.
  destruct (angular_entry_general scenario_A_engine overlap_batch overlap_species overlap_batch_valid)
    as (Hreturns & Hentries).
  destruct (Hreturns scenario_A_engine_ok) as (radial & angular & Hcall).
  pose proof (Hentries radial angular Hcall) as Hentry.
  exists radial, angular. split; [exact Hcall|].
  specialize (Hentry 0 0 0 0 0 0 0). simpl in Hentry.
  rewrite Hentry by lia. clear Hentry.
  unfold pairs_of. rewrite decide_True by done.
  change (Rca scenario_A_constants) with 5%R. simpl.
  rewrite overlap_batch_neighbors. simpl.
  unfold coord. simpl. rewrite norm_vsub_self.
  unfold xdiv. rewrite decide_True by lra. simpl.
  unfold xpow. by rewrite decide_False by lra.
Qed.

Lemma overlap_alone_entry :
  ∃ radial angular,
    NeighborAEV_call scenario_A_engine overlap_alone overlap_species
    = Some (radial, angular) ∧
    nth 0 (nth 0 (nth 0 angular []) []) None = Some 0%R.
Proof.
  destruct (angular_entry_general scenario_A_engine overlap_alone overlap_species overlap_alone_valid)
    as (Hreturns & Hentries).
  destruct (Hreturns scenario_A_engine_ok) as (radial & angular & Hcall).
  pose proof (Hentries radial angular Hcall) as Hentry.
  exists radial, angular. split; [exact Hcall|].
  specialize (Hentry 0 0 0 0 0 0 0). simpl in Hentry.
  rewrite Hentry by lia. clear Hentry.
  unfold pairs_of. rewrite decide_True by done.
  change (Rca scenario_A_constants) with 5%R. simpl.
  by rewrite overlap_alone_neighbors.
Qed.

(** C10: in exact real arithmetic, for two displacement vectors of positive
    length the dot product is bounded by the product of the lengths
    (Cauchy-Schwarz), so the argument of acos is defined and at most 0.95 in
    absolute value, and the angle is defined; when the product of the
    lengths is 0, as it is when a neighbor coincides with the center, the
    quotient is undefined, and the call does not guard against it: on a valid
    input with an atom on top of the center an entry of the angular result is
    non-finite. *)
Theorem acos_argument_domain :
  (∀ u v : vec3, (0 < norm u)%R → (0 < norm v)%R →
     (Rabs (inner u v) <= norm u * norm v)%R ∧
     xdiv (0.95 * inner u v) (norm u * norm v)
     = Some (0.95 * inner u v / (norm u * norm v))%R ∧
     (Rabs (0.95 * inner u v / (norm u * norm v)) <= 0.95)%R ∧
     enclosed_angle u v = Some (acos (0.95 * inner u v / (norm u * norm v)))) ∧
  (∀ u v : vec3, (norm u * norm v = 0)%R →
     xdiv (0.95 * inner u v) (norm u * norm v) = None ∧
     enclosed_angle u v = None) ∧
  (∀ center a b : vec3, a = center ∨ b = center →
     enclosed_angle (vsub a center) (vsub b center) = None) ∧
  (valid_input overlap_batch overlap_species ∧
   coord overlap_batch 0 1 = coord overlap_batch 0 0 ∧
   ∃ radial angular,
     NeighborAEV_call scenario_A_engine overlap_batch overlap_species
     = Some (radial, angular) ∧
     nth 0 (nth 0 (nth 0 angular []) []) None = None).
Proof.
  split; [|split; [|split]].
  - intros u v Hu Hv. split; [apply cauchy_schwarz|]. split.
    + unfold xdiv. rewrite decide_False; [done|]. nra.
    + split; [by apply cos_angle_bound | by apply enclosed_angle_defined].
  - intros u v H0. split; [|by apply enclosed_angle_undefined].
    unfold xdiv. by rewrite decide_True.
  - intros center a b [-> | ->]; apply enclosed_angle_undefined;
      rewrite norm_vsub_self; lra.
  - split; [exact overlap_batch_valid|]. split; [done|]. exact overlap_batch_entry.
Qed.

Lemma acos_argument_domain_witness :
  (0 < norm (Vec3 1 0 0))%R ∧ (0 < norm (Vec3 0 1 0))%R ∧
  enclosed_angle (Vec3 1 0 0) (Vec3 0 1 0)
  = Some (acos (0.95 * inner (Vec3 1 0 0) (Vec3 0 1 0)
                / (norm (Vec3 1 0 0) * norm (Vec3 0 1 0)))).
Proof.
  assert (0 < norm (Vec3 1 0 0))%R as Hu.
  { apply sqrt_lt_R0. unfold sum_sq. simpl. lra. }
  assert (0 < norm (Vec3 0 1 0))%R as Hv.
  { apply sqrt_lt_R0. unfold sum_sq. simpl. lra. }
  split; [exact Hu|]. split; [exact Hv|].
  destruct acos_argument_domain as [Hpos _].
  destruct (Hpos (Vec3 1 0 0) (Vec3 0 1 0) Hu Hv) as (_ & _ & _ & Hangle).
  exact Hangle.
Defined.

(** ** The union neighbor list against the exact one *)

Lemma filter_fmap_pair {T} (P : T → Prop) `{!∀ x, Decision (P x)} (x : T) (l : list T) :
  filter (λ p : T * T, P p.1 ∧ P p.2) (pair x <$> l)
  = if decide (P x) then pair x <$> filter P l else [].
Proof.
  induction l as [|y l IH]; csimpl; [by case_decide|].
  rewrite !filter_cons, IH. simpl.
  destruct (decide (P x)), (decide (P y)); simpl.
  - by rewrite decide_True.
  - by rewrite decide_False by tauto.
  - by rewrite decide_False by tauto.
  - by rewrite decide_False by tauto.
Qed.

Lemma combinations2_filter {T} (P : T → Prop) `{!∀ x, Decision (P x)} (l : list T) :
  combinations2 (filter P l) = filter (λ p, P p.1 ∧ P p.2) (combinations2 l).
Proof.
  induction l as [|x l IH]; [done|].
  cbn [combinations2]. rewrite filter_app, filter_fmap_pair, <- IH, filter_cons.
  by destruct (decide (P x)).
Qed.

Lemma cartesian_prod2_filter {T} (P : T → Prop) `{!∀ x, Decision (P x)} (a b : list T) :
  cartesian_prod2 (filter P a) (filter P b)
  = filter (λ p, P p.1 ∧ P p.2) (cartesian_prod2 a b).
Proof.
  unfold cartesian_prod2. induction a as [|x a IH]; [done|].
  csimpl. rewrite filter_app, filter_fmap_pair, <- IH, filter_cons.
  by destruct (decide (P x)).
Qed.

Lemma Rsum_filter_zero {T} (P : T → Prop) `{!∀ x, Decision (P x)} (f : T → R)
    (l : list T) :
  (∀ x, x ∈ l → ¬ P x → f x = 0%R) → Rsum (f <$> filter P l) = Rsum (f <$> l).
Proof.
  induction l as [|x l IH]; intros Hz; [done|].
  rewrite filter_cons. csimpl.
  assert (Rsum (f <$> filter P l) = Rsum (f <$> l)) as IH'.
  { apply IH. intros y Hy. apply Hz. by right. }
  destruct (decide (P x)) as [HP|HP]; csimpl; unfold Rsum in *; simpl.
  - by rewrite IH'.
  - rewrite IH', (Hz x) by (done || left). lra.
Qed.

Lemma xsum_filter_zero {T} (P : T → Prop) `{!∀ x, Decision (P x)} (f : T → option R)
    (l : list T) :
  (∀ x, x ∈ l → ¬ P x → f x = Some 0%R) → xsum (f <$> filter P l) = xsum (f <$> l).
Proof.
  induction l as [|x l IH]; intros Hz; [done|].
  rewrite filter_cons. csimpl.
  assert (xsum (f <$> filter P l) = xsum (f <$> l)) as IH'.
  { apply IH. intros y Hy. apply Hz. by right. }
  destruct (decide (P x)) as [HP|HP]; csimpl; unfold xsum in *; simpl.
  - by rewrite IH'.
  - rewrite IH', (Hz x) by (done || left).
    destruct (foldr xadd (Some 0%R) (f <$> l)) as [y|]; simpl; [|done].
    f_equal. lra.
Qed.

Section UnionList.
Variables (c : tensor vec3) (species : list string) (n : nat).
Hypothesis Hwf : tensor_wf c.
Hypothesis Hn : n < shape0 c.

Let conf := nth n (rows c) [].

Lemma conformation_lookup : rows c !! n = Some conf.
Proof.
  destruct Hwf as [HB _]. rewrite <- HB in Hn.
  destruct (lookup_lt_is_Some_2 _ _ Hn) as [x Hx].
  unfold conf. by rewrite (nth_lookup_Some _ _ _ _ Hx).
Qed.

Lemma conformation_alone_valid :
  valid_input c species → valid_input (conformation_alone c n) species.
Proof.
  intros (_ & HA & Hlen). unfold valid_input, tensor_wf. simpl.
  split; [|done]. split; [done|]. constructor; [|constructor].
  destruct Hwf as [_ Hrows]. rewrite Forall_lookup in Hrows.
  apply (Hrows n). apply conformation_lookup.
Qed.

Lemma neighbors_of_alone (cutoff : R) (i : nat) (s : string) :
  neighbors_of (conformation_alone c n) species cutoff i s
  = filter (λ j, (distance (nth i conf vzero) (nth j conf vzero) <= cutoff)%R)
           (neighbors_of c species cutoff i s).
Proof.
  unfold neighbors_of. rewrite list_filter_filter. simpl.
  apply list_filter_iff. intros j. unfold adjacent. simpl. fold conf.
  rewrite Exists_cons, Exists_nil. split.
  - intros [[Hne [Hd|[]]] Hsp]. split; [done|]. split; [|done]. split; [done|].
    apply Exists_exists. exists conf. split; [|done].
    eapply list_elem_of_lookup_2, conformation_lookup.
  - intros [Hd [[Hne _] Hsp]]. auto.
Qed.

Lemma pairs_of_alone (cutoff : R) (i : nat) (jk : string * string) :
  pairs_of (conformation_alone c n) species cutoff i jk
  = filter (λ p : nat * nat,
      (distance (nth i conf vzero) (nth p.1 conf vzero) <= cutoff)%R ∧
      (distance (nth i conf vzero) (nth p.2 conf vzero) <= cutoff)%R)
      (pairs_of c species cutoff i jk).
Proof.
  unfold pairs_of. rewrite !neighbors_of_alone. case_decide.
  - exact (combinations2_filter
      (λ j, (distance (nth i conf vzero) (nth j conf vzero) <= cutoff)%R) _).
  - exact (cartesian_prod2_filter
      (λ j, (distance (nth i conf vzero) (nth j conf vzero) <= cutoff)%R) _ _).
Qed.

End UnionList.

Lemma elem_of_pairs_of (c : tensor vec3) (species : list string) (cutoff : R)
    (i : nat) (jk : string * string) (a b : nat) :
  (a, b) ∈ pairs_of c species cutoff i jk →
  a ∈ neighbors_of c species cutoff i jk.1 ∧ b ∈ neighbors_of c species cutoff i jk.2.
Proof.
  unfold pairs_of. case_decide as Heq.
  - rewrite <- Heq. intros (Ha & Hb & _)%elem_of_combinations2; [done|].
    apply neighbors_of_sorted.
  - by intros ?%elem_of_cartesian_prod2.
Qed.

Lemma xpow_defined (b z : R) :
  (0 <= b)%R → (0 <= z)%R → ∃ w, xpow (Some b) z = Some w.
Proof.
  intros Hb Hz. unfold xpow. destruct (decide (z = 0%R)); [by eexists|]. simpl.
  destruct (decide (b = 0%R)).
  - rewrite decide_True by lra. by eexists.
  - rewrite decide_True by lra. by eexists.
Qed.

Lemma angular_term_outside (K : constants) (eta zeta shfa shfz : R) (center : vec3)
    (p : vec3 * vec3) :
  (0 < distance center p.1)%R → (0 < distance center p.2)%R → (0 <= zeta)%R →
  ¬ ((distance center p.1 <= Rca K)%R ∧ (distance center p.2 <= Rca K)%R) →
  angular_term K eta zeta shfa shfz center p = Some 0%R.
Proof.
  intros H1 H2 Hz Hout. unfold angular_term.
  unfold distance in H1, H2. rewrite enclosed_angle_defined by done. simpl.
  match goal with |- context [xpow (Some ?b) zeta] =>
    destruct (xpow_defined b zeta) as [w ->]; [|done|] end.
  { match goal with |- context [cos ?x] => pose proof (COS_bound x) end. lra. }
  simpl. f_equal.
  destruct (decide (distance center p.1 <= Rca K)%R) as [Hin|Hfar].
  - rewrite (cutoff_outside (distance center p.2)) by lra. lra.
  - rewrite (cutoff_outside (distance center p.1)) by lra. lra.
Qed.

Lemma exp_le_1 (x : R) : (x <= 0)%R → (exp x <= 1)%R.
Proof.
  intros [Hx| ->].
  - rewrite <- exp_0. left. by apply exp_increasing.
  - rewrite exp_0. lra.
Qed.

Lemma exp_width_bound (eta x : R) :
  (0 <= eta)%R → (0 < exp (- eta * x ^ 2) <= 1)%R.
Proof.
  intros Heta. split; [apply exp_pos|].
  apply exp_le_1. pose proof (pow2_ge_0 x). nra.
Qed.

Lemma xpow_bounded (b z : R) :
  (0 <= b <= 1)%R → (0 <= z)%R → ∃ w, xpow (Some b) z = Some w ∧ (0 <= w <= 1)%R.
Proof.
  intros [Hb0 Hb1] Hz. unfold xpow.
  destruct (decide (z = 0%R)); [exists 1%R; split; [done | lra]|]. simpl.
  destruct (decide (b = 0%R)).
  - rewrite decide_True by lra. exists 0%R. split; [done | lra].
  - rewrite decide_True by lra. exists (Rpower b z). split; [done|].
    unfold Rpower. split; [left; apply exp_pos|].
    apply exp_le_1.
    assert (ln b <= 0)%R as Hln.
    { rewrite <- ln_1. destruct Hb1 as [Hlt| ->]; [|lra].
      left. apply ln_increasing; lra. }
    nra.
Qed.

Lemma angular_power_bounded (u v : vec3) (zeta shfz : R) :
  (0 < norm u)%R → (0 < norm v)%R → (0 <= zeta)%R →
  ∃ w, xpow ((λ a, (1 + cos (a - shfz)) / 2)%R <$> enclosed_angle u v) zeta = Some w
       ∧ (0 <= w <= 1)%R.
Proof.
  intros Hu Hv Hz. rewrite enclosed_angle_defined by done. simpl.
  apply xpow_bounded; [|done].
  match goal with |- context [cos ?x] => pose proof (COS_bound x) end. lra.
Qed.

Section UnionBlocks.
Variables (self : NeighborAEV) (c : tensor vec3) (species : list string) (n : nat).
Hypothesis Hwf : tensor_wf c.
Hypothesis Hn : n < shape0 c.

Let K := self_constants self.
Let conf := nth n (rows c) [].

Lemma radial_block_row_alone (i : nat) (s : string) :
  radial_block_row self (conformation_alone c n) species conf i s
  = radial_block_row self c species conf i s.
Proof.
  unfold radial_block_row. rewrite (neighbors_of_alone c species n Hwf Hn).
  fold conf K. unfold radial_row. f_equal.
  apply fmap_ext_all. intros e. apply fmap_ext_all. intros sh.
  unfold gather. rewrite <- !list_fmap_compose.
  apply (Rsum_filter_zero _ _ _). intros j _ Hfar. unfold compose, radial_term.
  rewrite cutoff_outside by lra. lra.
Qed.

Lemma angular_block_row_alone (i : nat) (jk : string * string) :
  (∀ j, j < shape1 c → j ≠ i →
        (0 < distance (nth i conf vzero) (nth j conf vzero))%R) →
  Forall (λ z, (0 <= z)%R) (Zeta K) →
  angular_block_row self (conformation_alone c n) species conf i jk
  = angular_block_row self c species conf i jk.
Proof.
  intros Hdist Hzeta. unfold angular_block_row.
  rewrite (pairs_of_alone c species n Hwf Hn). fold conf K.
  unfold angular_row. do 3 f_equal.
  apply fmap_ext_all. intros e. apply list_fmap_ext. intros kz z Hz.
  apply fmap_ext_all. intros rs. apply fmap_ext_all. intros zs.
  unfold gather2. rewrite <- !list_fmap_compose.
  apply (xsum_filter_zero _ _ _). intros [a b] Hab Hfar. unfold compose.
  apply elem_of_pairs_of in Hab as [Ha Hb].
  apply elem_of_neighbors_of in Ha as (Ha & [Hai _] & _).
  apply elem_of_neighbors_of in Hb as (Hb & [Hbi _] & _).
  apply angular_term_outside; simpl.
  - apply Hdist; [done | congruence].
  - apply Hdist; [done | congruence].
  - rewrite Forall_lookup in Hzeta. by eapply Hzeta.
  - exact Hfar.
Qed.

End UnionBlocks.

(** C2 (amended): on a valid batch the call of a usable engine returns,
    for the batch and for each of its conformations alone, and beyond the
    cutoff the cutoff weight is 0.  For a width eta >= 0 the exponential
    factor of a radial summand lies in (0, 1] and the summand of a neighbor
    beyond Rcr is 0; when no EtaR value is negative, every conformation
    gets, from the shared union neighbor list, exactly the radial values it
    gets alone with its own neighbor list.  For eta >= 0, zeta >= 0 and two
    atoms at positive distances from the center, the power of an angular
    summand is defined and lies in [0, 1], its exponential factor lies in
    (0, 1], and the summand is 0 as soon as one of the two atoms is beyond
    Rca; when no EtaA value and no Zeta exponent is negative, every
    conformation in which no two atoms coincide gets exactly the same
    angular values. *)
Theorem union_list_equivalence (self : NeighborAEV) (c : tensor vec3)
    (species : list string) (n : nat) :
  valid_input c species → n < shape0 c →
  let K := self_constants self in
  (engine_ok self →
   ∃ radial angular radial1 angular1,
     NeighborAEV_call self c species = Some (radial, angular) ∧
     NeighborAEV_call self (conformation_alone c n) species = Some (radial1, angular1)) ∧
  (∀ cutoff d, (cutoff < d)%R → _cutoff_cosine d cutoff = 0%R) ∧
  (∀ eta shf d, (0 <= eta)%R →
     (0 < exp (- eta * (d - shf) ^ 2) <= 1)%R ∧
     ((Rcr K < d)%R → radial_term K eta shf d = 0%R)) ∧
  (∀ eta zeta shfa shfz center (p : vec3 * vec3),
     (0 <= eta)%R → (0 <= zeta)%R →
     (0 < distance center p.1)%R → (0 < distance center p.2)%R →
     (∃ w, xpow ((λ a, (1 + cos (a - shfz)) / 2)%R
                   <$> enclosed_angle (vsub p.1 center) (vsub p.2 center)) zeta = Some w
           ∧ (0 <= w <= 1)%R) ∧
     (0 < exp (- eta * ((distance center p.1 + distance center p.2) / 2 - shfa) ^ 2)
      <= 1)%R ∧
     (¬ ((distance center p.1 <= Rca K)%R ∧ (distance center p.2 <= Rca K)%R) →
      angular_term K eta zeta shfa shfz center p = Some 0%R)) ∧
  ∀ radial angular radial1 angular1,
    NeighborAEV_call self c species = Some (radial, angular) →
    NeighborAEV_call self (conformation_alone c n) species = Some (radial1, angular1) →
    (Forall (λ eta, (0 <= eta)%R) (EtaR K) → nth n radial [] = nth 0 radial1 []) ∧
    ((∀ i j, i < shape1 c → j < shape1 c → i ≠ j →
        (0 < distance (coord c n i) (coord c n j))%R) →
     Forall (λ eta, (0 <= eta)%R) (EtaA K) →
     Forall (λ z, (0 <= z)%R) (Zeta K) →
     nth n angular [] = nth 0 angular1 []).
Proof.
  intros Hin Hn K. pose proof Hin as (Hwf & HA & Hlen).
  pose proof (conformation_alone_valid c species n Hwf Hn Hin) as Hin1.
  split; [|split; [|split; [|split]]].
  { intros Hok. eexists _, _, _, _. split; by apply NeighborAEV_call_closed. }
  { intros cutoff d Hd. by apply cutoff_outside. }
  { intros eta shf d Heta. split; [by apply exp_width_bound|].
    intros Hd. unfold radial_term. rewrite cutoff_outside by done. lra. }
  { intros eta zeta shfa shfz center p Heta Hzeta H1 H2.
    split; [by apply angular_power_bounded|].
    split; [by apply exp_width_bound|].
    intros Hfar. by apply angular_term_outside. }
  intros radial angular radial1 angular1
    [-> ->]%NeighborAEV_call_returned [-> ->]%NeighborAEV_call_returned; [|done..].
  destruct Hwf as [HB Hrows]. split.
  - intros _. unfold radial_expected. rewrite (nth_fmap_lt _ _ n [] []) by lia. simpl.
    apply fmap_ext_all. intros i. f_equal. apply fmap_ext_all. intros s.
    symmetry. by apply radial_block_row_alone.
  - intros Hdist _ Hzeta.
    unfold angular_expected. rewrite (nth_fmap_lt _ _ n [] []) by lia. simpl.
    apply list_fmap_ext. intros k i [-> Hi]%lookup_seq. simpl. f_equal.
    apply fmap_ext_all. intros jk.
    symmetry. apply angular_block_row_alone; [done | done | | done].
    intros j Hj Hne. apply Hdist; [done | done | congruence].
Qed.

(** ** The union neighbor list on concrete batches *)

Lemma right_angle_valid : valid_input right_angle_batch overlap_species.
Proof.
  unfold valid_input, tensor_wf. cbn. repeat split; try lia.
  by repeat constructor.
Qed.

Lemma right_angle_distinct (i j : nat) :
  i < 3 → j < 3 → i ≠ j →
  (0 < distance (coord right_angle_batch 0 i) (coord right_angle_batch 0 j))%R.
Proof.
  intros Hi Hj Hne.
  destruct i as [|[|[|i]]], j as [|[|[|j]]]; try lia;
    (apply sqrt_lt_R0; unfold sum_sq; simpl; lra).
Qed.

Lemma union_list_equivalence_witness :
  valid_input right_angle_batch overlap_species ∧ 0 < 2 ∧
  ∃ radial angular radial1 angular1,
    NeighborAEV_call scenario_A_engine right_angle_batch overlap_species
    = Some (radial, angular) ∧
    NeighborAEV_call scenario_A_engine (conformation_alone right_angle_batch 0)
                     overlap_species
    = Some (radial1, angular1) ∧
    nth 0 radial [] = nth 0 radial1 [] ∧
    nth 0 angular [] = nth 0 angular1 [].
Proof.
  assert (0 < 2) as H02 by lia.
  split; [exact right_angle_valid|]. split; [exact H02|].
  destruct (union_list_equivalence scenario_A_engine right_angle_batch overlap_species 0
              right_angle_valid H02) as (Hreturns & _ & _ & _ & Hequal).
  destruct (Hreturns scenario_A_engine_ok)
    as (radial & angular & radial1 & angular1 & Hcall & Hcall1).
  exists radial, angular, radial1, angular1.
  split; [exact Hcall|]. split; [exact Hcall1|].
  destruct (Hequal radial angular radial1 angular1 Hcall Hcall1) as (Hrad & Hang).
  split.
  - apply Hrad. simpl. constructor; [lra | constructor].
  - apply Hang.
    + exact right_angle_distinct.
    + simpl. constructor; [lra | constructor].
    + simpl. constructor; [lra | constructor].
Defined.

Lemma distance_along_y (y : R) : (0 <= y)%R → distance (Vec3 0 0 0) (Vec3 0 y 0) = y.
Proof.
  intros Hy. unfold distance, norm, sum_sq, vsub. simpl.
  replace ((0 - 0) * ((0 - 0) * 1) + (y - 0) * ((y - 0) * 1) + (0 - 0) * ((0 - 0) * 1))%R
    with (y * y)%R by ring.
  by apply sqrt_square.
Qed.

Lemma negative_zeta_engine_ok : engine_ok negative_zeta_engine.
Proof. unfold engine_ok. cbn. lia. Qed.

Lemma right_angle_batch_neighbors :
  neighbors_of right_angle_batch overlap_species 5 0 "H" = [1; 2].
Proof.
  unfold neighbors_of. simpl.
  rewrite filter_cons_False by (intros [[? _] _]; done).
  rewrite filter_cons_True.
  2:{ split; [|done]. split; [done|]. apply Exists_cons_hd. simpl.
      rewrite distance_unit_x. lra. }
  rewrite filter_cons_True; [done|].
  split; [|done]. split; [done|]. apply Exists_cons_tl, Exists_cons_hd. simpl.
  rewrite distance_along_y by lra. lra.
Qed.

Lemma right_angle_alone_neighbors :
  neighbors_of (conformation_alone right_angle_batch 0) overlap_species 5 0 "H" = [1].
Proof.
  unfold neighbors_of. simpl.
  rewrite filter_cons_False by (intros [[? _] _]; done).
  rewrite filter_cons_True.
  2:{ split; [|done]. split; [done|]. apply Exists_cons_hd. simpl.
      rewrite distance_unit_x. lra. }
  rewrite filter_cons_False; [done|].
  intros [[_ Hex] _]. apply Exists_cons in Hex as [Hd|Hnil].
  - simpl in Hd. rewrite distance_along_y in Hd by lra. lra.
  - by apply Exists_nil in Hnil.
Qed.

Lemma right_angle_batch_entry :
  ∃ radial angular,
    NeighborAEV_call negative_zeta_engine right_angle_batch overlap_species
    = Some (radial, angular) ∧
    nth 0 (nth 0 (nth 0 angular []) []) None = None.
Proof.
  destruct (angular_entry_general negative_zeta_engine right_angle_batch overlap_species right_angle_valid)
    as (Hreturns & Hentries).
  destruct (Hreturns negative_zeta_engine_ok) as (radial & angular & Hcall).
  pose proof (Hentries radial angular Hcall) as Hentry.
  exists radial, angular. split; [exact Hcall|].
  specialize (Hentry 0 0 0 0 0 0 0).
  change (nth 0 (nth 0 (nth 0 angular []) []) None) with
    (nth (0 * per_species_angular_length negative_zeta_engine
          + (((0 * length (Zeta (self_constants negative_zeta_engine)) + 0)
              * length (ShfA (self_constants negative_zeta_engine)) + 0)
             * length (ShfZ (self_constants negative_zeta_engine)) + 0))
         (nth 0 (nth 0 angular []) []) None).
  rewrite Hentry by (simpl; lia). clear Hentry.
  unfold pairs_of. rewrite decide_True by done.
  change (Rca (self_constants negative_zeta_engine)) with 5%R.
  change (nth 0 (combinations_with_replacement (self_species negative_zeta_engine))
              (""%string, ""%string)).1 with "H"%string.
  rewrite right_angle_batch_neighbors.
  change (combinations2 [1; 2]) with [(1, 2)].
  cbn [fmap list_fmap]. cbv zeta.
  change (coord right_angle_batch 0 (1, 2).1) with (Vec3 1 0 0).
  change (coord right_angle_batch 0 (1, 2).2) with (Vec3 0 10 0).
  change (coord right_angle_batch 0 0) with (Vec3 0 0 0).
  change (nth 0 (ShfZ (self_constants negative_zeta_engine)) 0%R) with (- (PI / 2))%R.
  change (nth 0 (Zeta (self_constants negative_zeta_engine)) 0%R) with (-1)%R.
  change (norm (vsub (Vec3 1 0 0) (Vec3 0 0 0)))
    with (distance (Vec3 0 0 0) (Vec3 1 0 0)).
  change (norm (vsub (Vec3 0 10 0) (Vec3 0 0 0)))
    with (distance (Vec3 0 0 0) (Vec3 0 10 0)).
  rewrite distance_unit_x, distance_along_y by lra.
  assert (inner (vsub (Vec3 1 0 0) (Vec3 0 0 0)) (vsub (Vec3 0 10 0) (Vec3 0 0 0)) = 0%R)
    as -> by (unfold inner, vsub; simpl; lra).
  unfold xdiv. rewrite decide_False by lra.
  replace (0.95 * 0 / (1 * 10))%R with 0%R by lra.
  unfold xacos. cbn [mbind option_bind]. rewrite decide_True by lra.
  rewrite acos_0. cbn [fmap option_fmap option_map].
  replace (PI / 2 - - (PI / 2))%R with PI by lra. rewrite cos_PI.
  unfold xpow. rewrite decide_False by lra. cbn [mbind option_bind].
  rewrite decide_True by lra. rewrite decide_False by lra. done.
Qed.

Lemma right_angle_alone_entry :
  ∃ radial angular,
    NeighborAEV_call negative_zeta_engine (conformation_alone right_angle_batch 0)
                     overlap_species
    = Some (radial, angular) ∧
    nth 0 (nth 0 (nth 0 angular []) []) None = Some 0%R.
Proof.
  assert (valid_input (conformation_alone right_angle_batch 0) overlap_species) as Hvalid.
  { destruct right_angle_valid as (Hwf & _).
    apply conformation_alone_valid; [done | simpl; lia | exact right_angle_valid]. }
  destruct (angular_entry_general negative_zeta_engine (conformation_alone right_angle_batch 0) overlap_species Hvalid)
    as (Hreturns & Hentries).
  destruct (Hreturns negative_zeta_engine_ok) as (radial & angular & Hcall).
  pose proof (Hentries radial angular Hcall) as Hentry.
  exists radial, angular. split; [exact Hcall|].
  specialize (Hentry 0 0 0 0 0 0 0).
  change (nth 0 (nth 0 (nth 0 angular []) []) None) with
    (nth (0 * per_species_angular_length negative_zeta_engine
          + (((0 * length (Zeta (self_constants negative_zeta_engine)) + 0)
              * length (ShfA (self_constants negative_zeta_engine)) + 0)
             * length (ShfZ (self_constants negative_zeta_engine)) + 0))
         (nth 0 (nth 0 angular []) []) None).
  rewrite Hentry by (simpl; lia). clear Hentry.
  unfold pairs_of. rewrite decide_True by done.
  change (Rca (self_constants negative_zeta_engine)) with 5%R.
  change (nth 0 (combinations_with_replacement (self_species negative_zeta_engine))
              (""%string, ""%string)).1 with "H"%string.
  by rewrite right_angle_alone_neighbors.
Qed.

(** C2 as stated fails on two batches: one where an atom sits on the center
    atom in a conformation in which another union neighbor is out of range,
    and one with a negative Zeta exponent; in both the union list leaves a
    non-finite angular entry where the conformation alone has 0. *)
Lemma union_list_counterexample :
  (engine_ok scenario_A_engine ∧ valid_input overlap_batch overlap_species ∧
   ∃ radial angular radial1 angular1,
     NeighborAEV_call scenario_A_engine overlap_batch overlap_species
     = Some (radial, angular) ∧
     NeighborAEV_call scenario_A_engine (conformation_alone overlap_batch 0)
                      overlap_species
     = Some (radial1, angular1) ∧
     nth 0 (nth 0 (nth 0 angular []) []) None = None ∧
     nth 0 (nth 0 (nth 0 angular1 []) []) None = Some 0%R ∧
     nth 0 angular [] ≠ nth 0 angular1 []) ∧
  (engine_ok negative_zeta_engine ∧ valid_input right_angle_batch overlap_species ∧
   ∃ radial angular radial1 angular1,
     NeighborAEV_call negative_zeta_engine right_angle_batch overlap_species
     = Some (radial, angular) ∧
     NeighborAEV_call negative_zeta_engine (conformation_alone right_angle_batch 0)
                      overlap_species
     = Some (radial1, angular1) ∧
     nth 0 (nth 0 (nth 0 angular []) []) None = None ∧
     nth 0 (nth 0 (nth 0 angular1 []) []) None = Some 0%R ∧
     nth 0 angular [] ≠ nth 0 angular1 []).
Proof.
  split.
  - split; [exact scenario_A_engine_ok|]. split; [exact overlap_batch_valid|].
    destruct overlap_batch_entry as (radial & angular & Hcall & Hentry).
    destruct overlap_alone_entry as (radial1 & angular1 & Hcall1 & Hentry1).
    exists radial, angular, radial1, angular1.
    split; [exact Hcall|]. split; [exact Hcall1|].
    split; [exact Hentry|]. split; [exact Hentry1|].
    intros Heq. rewrite Heq in Hentry. congruence.
  - split; [exact negative_zeta_engine_ok|]. split; [exact right_angle_valid|].
    destruct right_angle_batch_entry as (radial & angular & Hcall & Hentry).
    destruct right_angle_alone_entry as (radial1 & angular1 & Hcall1 & Hentry1).
    exists radial, angular, radial1, angular1.
    split; [exact Hcall|]. split; [exact Hcall1|].
    split; [exact Hentry|]. split; [exact Hentry1|].
    intros Heq. rewrite Heq in Hentry. congruence.
Qed.

(** ** The two methods on any input *)

Lemma radial_subaev_total (self : NeighborAEV) (center : list vec3)
    (neighbors : tensor vec3) :
  radial_subaev self center neighbors
  = if decide (shape1 neighbors = 0 ∨ per_species_radial_length self = 0) then None
    else Some (zip_with (radial_row (self_constants self)) center (rows neighbors)).
Proof.
  case_decide as H.
  - destruct (decide (per_species_radial_length self = 0)) as [HL|HL].
    + by apply radial_subaev_no_length.
    + destruct H as [HN|?]; [|done]. unfold radial_subaev, view_infer.
      by rewrite decide_True.
  - apply radial_subaev_closed; tauto.
Qed.

Lemma angular_subaev_total (self : NeighborAEV) (center : list vec3)
    (neighbors : tensor (vec3 * vec3)) :
  angular_subaev self center neighbors
  = if decide (shape1 neighbors = 0 ∨ per_species_angular_length self = 0) then None
    else Some (zip_with (angular_row (self_constants self)) center (rows neighbors)).
Proof.
  case_decide as H.
  - destruct (decide (per_species_angular_length self = 0)) as [HL|HL].
    + by apply angular_subaev_no_length.
    + destruct H as [HN|?]; [|done]. unfold angular_subaev, view_infer.
      by rewrite (decide_True (P:=shape1 neighbors = 0)).
  - apply angular_subaev_closed; tauto.
Qed.

Lemma nth_zip_with {T U V} (f : T → U → V) (a : list T) (b : list U) (n : nat)
    (d : V) (da : T) (db : U) :
  n < length a → n < length b →
  nth n (zip_with f a b) d = f (nth n a da) (nth n b db).
Proof.
  intros Ha Hb.
  destruct (lookup_lt_is_Some_2 a n Ha) as [x Hx].
  destruct (lookup_lt_is_Some_2 b n Hb) as [y Hy].
  rewrite (nth_lookup_Some a n da x Hx), (nth_lookup_Some b n db y Hy).
  apply nth_lookup_Some. by rewrite lookup_zip_with, Hx; simpl; rewrite Hy.
Qed.

(** X1: [radial_subaev], called on a center of B positions and a rectangular
    tensor of N neighbors per conformation, raises exactly when N = 0 or
    when [per_species_radial_length()] is 0 (the two [view(-1, ...)] of
    lines 49 and 60); otherwise it returns B rows of
    [per_species_radial_length()] entries, and the entry of conformation n
    at position e * |ShfR| + sh is the sum over the N given neighbors of
    0.25 * exp(-EtaR[e] * (d - ShfR[sh])^2) * fc(d, Rcr), with d the
    distance from the center to the neighbor. *)
Theorem radial_subaev_contract (self : NeighborAEV) (center : list vec3)
    (neighbors : tensor vec3) :
  tensor_wf neighbors → length center = shape0 neighbors →
  let K := self_constants self in
  (radial_subaev self center neighbors = None
   ↔ shape1 neighbors = 0 ∨ per_species_radial_length self = 0) ∧
  ∀ ret, radial_subaev self center neighbors = Some ret →
    length ret = shape0 neighbors ∧
    Forall (λ r, length r = per_species_radial_length self) ret ∧
    ∀ n e sh, n < shape0 neighbors → e < length (EtaR K) → sh < length (ShfR K) →
      nth (e * length (ShfR K) + sh) (nth n ret []) 0%R
      = Rsum ((λ x, let d := distance (nth n center vzero) x in
                 (0.25 * exp (- nth e (EtaR K) 0 * (d - nth sh (ShfR K) 0) ^ 2)
                  * _cutoff_cosine d (Rcr K))%R) <$> nth n (rows neighbors) []).
Proof.
  intros [HB Hrows] Hc K. rewrite radial_subaev_total. split.
  - case_decide; [done|]. split; [done | tauto].
  - intros ret Hret. case_decide as Hno; [done|]. injection Hret as <-.
    split; [|split].
    + rewrite length_zip_with. lia.
    + apply Forall_forall. intros r (x & nb & -> & _ & _)%elem_of_zip_with.
      apply length_radial_row.
    + intros n e sh Hn He Hsh.
      rewrite (nth_zip_with _ _ _ n [] vzero []) by lia.
      apply nth_lookup_Some. by rewrite (radial_row_lookup K _ _ e sh He Hsh).
Qed.

Lemma radial_subaev_contract_witness :
  tensor_wf two_neighbors ∧ length one_center = shape0 two_neighbors ∧
  ∃ ret, radial_subaev scenario_A_engine one_center two_neighbors = Some ret ∧
    length ret = 1 ∧
    nth (0 * 1 + 0) (nth 0 ret []) 0%R
    = Rsum ((λ x, let d := distance (nth 0 one_center vzero) x in
               (0.25 * exp (- nth 0 [16%R] 0 * (d - nth 0 [1%R] 0) ^ 2)
                * _cutoff_cosine d 5)%R) <$> nth 0 (rows two_neighbors) []).
Proof.
  assert (tensor_wf two_neighbors) as Hwf.
  { split; [done|]. by repeat constructor. }
  split; [exact Hwf|]. split; [done|].
  destruct (radial_subaev_contract scenario_A_engine one_center two_neighbors Hwf eq_refl)
    as [Hnone Hsome].
  destruct (radial_subaev scenario_A_engine one_center two_neighbors) as [ret|] eqn:E.
  - exists ret. split; [done|].
    destruct (Hsome ret eq_refl) as (Hlen & _ & Hentry).
    split; [exact Hlen|].
    apply (Hentry 0 0 0); simpl; lia.
  - exfalso. destruct Hnone as [Hnone _].
    destruct (Hnone eq_refl) as [H|H]; vm_compute in H; lia.
Defined.

Lemma two_pairs_wf : tensor_wf two_pairs.
Proof. split; [done|]. by repeat constructor. Qed.

(** X2: [angular_subaev], called on a center of B positions and a
    rectangular tensor of N neighbor pairs per conformation, raises exactly
    when N = 0 or when [per_species_angular_length()] is 0; otherwise it
    returns B rows of [per_species_angular_length()] entries, and the entry
    of conformation n at position ((e * |Zeta| + z) * |ShfA| + a) * |ShfZ| + q
    is the sum over the N given pairs of the angular term for EtaA[e],
    Zeta[z], ShfA[a] and ShfZ[q], non-finite as soon as one summand is. *)
Theorem angular_subaev_contract (self : NeighborAEV) (center : list vec3)
    (neighbors : tensor (vec3 * vec3)) :
  tensor_wf neighbors → length center = shape0 neighbors →
  let K := self_constants self in
  (angular_subaev self center neighbors = None
   ↔ shape1 neighbors = 0 ∨ per_species_angular_length self = 0) ∧
  ∀ ret, angular_subaev self center neighbors = Some ret →
    length ret = shape0 neighbors ∧
    Forall (λ r, length r = per_species_angular_length self) ret ∧
    ∀ n e z a q, n < shape0 neighbors →
      e < length (EtaA K) → z < length (Zeta K) →
      a < length (ShfA K) → q < length (ShfZ K) →
      nth (((e * length (Zeta K) + z) * length (ShfA K) + a) * length (ShfZ K) + q)
          (nth n ret []) None
      = xsum (angular_term K (nth e (EtaA K) 0%R) (nth z (Zeta K) 0%R)
                (nth a (ShfA K) 0%R) (nth q (ShfZ K) 0%R) (nth n center vzero)
              <$> nth n (rows neighbors) []).
Proof.
  intros [HB Hrows] Hc K. rewrite angular_subaev_total. split.
  - case_decide; [done|]. split; [done | tauto].
  - intros ret Hret. case_decide as Hno; [done|]. injection Hret as <-.
    split; [|split].
    + rewrite length_zip_with. lia.
    + apply Forall_forall. intros r (x & nb & -> & _ & _)%elem_of_zip_with.
      apply length_angular_row.
    + intros n e z a q Hn He Hz Ha Hq.
      rewrite (nth_zip_with _ _ _ n [] vzero []) by lia.
      apply nth_lookup_Some.
      by rewrite (angular_row_lookup K _ _ e z a q He Hz Ha Hq).
Qed.

Lemma angular_subaev_contract_witness :
  tensor_wf two_pairs ∧ length one_center = shape0 two_pairs ∧
  ∃ ret, angular_subaev scenario_A_engine one_center two_pairs = Some ret ∧
    length ret = 1 ∧
    nth (((0 * 1 + 0) * 1 + 0) * 1 + 0) (nth 0 ret []) None
    = xsum (angular_term scenario_A_constants 8 1 1 0 (Vec3 0 0 0)
            <$> nth 0 (rows two_pairs) []).
Proof.
  split; [exact two_pairs_wf|]. split; [done|].
  destruct (angular_subaev_contract scenario_A_engine one_center two_pairs
              two_pairs_wf eq_refl) as [Hnone Hsome].
  destruct (angular_subaev scenario_A_engine one_center two_pairs) as [ret|] eqn:E.
  - exists ret. split; [done|].
    destruct (Hsome ret eq_refl) as (Hlen & _ & Hentry).
    split; [exact Hlen|].
    apply (Hentry 0 0 0 0 0); simpl; lia.
  - exfalso. destruct Hnone as [Hnone _].
    destruct (Hnone eq_refl) as [H|H]; vm_compute in H; lia.
Defined.

(** ** The order of the neighbors *)

Lemma Rsum_Permutation (l k : list R) : l ≡ₚ k → Rsum l = Rsum k.
Proof. unfold Rsum. induction 1; simpl; lra. Qed.

Lemma xadd_left_comm (a b c : option R) : xadd a (xadd b c) = xadd b (xadd a c).
Proof.
  destruct a, b, c; simpl; try done. f_equal. lra.
Qed.

Lemma xsum_Permutation (l k : list (option R)) : l ≡ₚ k → xsum l = xsum k.
Proof.
  unfold xsum. induction 1 as [|x l k _ IH|x y l|l k m _ IH1 _ IH2]; simpl.
  - done.
  - by rewrite IH.
  - apply xadd_left_comm.
  - congruence.
Qed.

Lemma radial_row_Permutation (K : constants) (x : vec3) (nb nb' : list vec3) :
  nb ≡ₚ nb' → radial_row K x nb = radial_row K x nb'.
Proof.
  intros Hp. unfold radial_row. f_equal.
  apply fmap_ext_all. intros e. apply fmap_ext_all. intros sh.
  apply Rsum_Permutation. by apply fmap_Permutation.
Qed.

Lemma angular_row_Permutation (K : constants) (x : vec3) (ps ps' : list (vec3 * vec3)) :
  ps ≡ₚ ps' → angular_row K x ps = angular_row K x ps'.
Proof.
  intros Hp. unfold angular_row. do 3 f_equal.
  apply fmap_ext_all. intros e. apply fmap_ext_all. intros z.
  apply fmap_ext_all. intros a. apply fmap_ext_all. intros q.
  apply xsum_Permutation. by apply fmap_Permutation.
Qed.

Lemma zip_with_Forall2 {T U V} (R0 : relation U) (f : T → U → V) (a : list T)
    (b b' : list U) :
  (∀ x y y', R0 y y' → f x y = f x y') → Forall2 R0 b b' →
  zip_with f a b = zip_with f a b'.
Proof.
  intros Hf Hb. revert a. induction Hb as [|y y' b b' Hy _ IH]; intros [|x a]; simpl;
    [done..|].
  by rewrite (Hf x y y' Hy), IH.
Qed.

(** X3: [radial_subaev] sums over the neighbors (line 58), so in exact
    arithmetic its result does not depend on the order in which the
    neighbors of a conformation are listed: two neighbor tensors whose rows
    are permutations of one another, conformation by conformation, give the
    same result, and raise on the same inputs. *)
Theorem radial_subaev_neighbor_order (self : NeighborAEV) (center : list vec3)
    (neighbors neighbors' : tensor vec3) :
  shape1 neighbors' = shape1 neighbors →
  Forall2 Permutation (rows neighbors) (rows neighbors') →
  radial_subaev self center neighbors' = radial_subaev self center neighbors.
Proof.
  intros HN Hrows. rewrite !radial_subaev_total, HN.
  case_decide; [done|]. f_equal. symmetry.
  apply (zip_with_Forall2 Permutation); [|done].
  intros x nb nb'. apply radial_row_Permutation.
Qed.

Lemma radial_subaev_neighbor_order_witness :
  radial_subaev scenario_A_engine one_center two_neighbors_reversed
  = radial_subaev scenario_A_engine one_center two_neighbors.
Proof.
  apply radial_subaev_neighbor_order; [done|].
  constructor; [|constructor]. apply Permutation_swap.
Defined.

(** X4: [angular_subaev] sums over the pairs (line 128), so in exact
    arithmetic its result does not depend on the order in which the pairs
    of a conformation are listed. *)
Theorem angular_subaev_pair_order (self : NeighborAEV) (center : list vec3)
    (neighbors neighbors' : tensor (vec3 * vec3)) :
  shape1 neighbors' = shape1 neighbors →
  Forall2 Permutation (rows neighbors) (rows neighbors') →
  angular_subaev self center neighbors' = angular_subaev self center neighbors.
Proof.
  intros HN Hrows. rewrite !angular_subaev_total, HN.
  case_decide; [done|]. f_equal. symmetry.
  apply (zip_with_Forall2 Permutation); [|done].
  intros x nb nb'. apply angular_row_Permutation.
Qed.

Lemma angular_subaev_pair_order_witness :
  angular_subaev scenario_A_engine one_center two_pairs_reversed
  = angular_subaev scenario_A_engine one_center two_pairs.
Proof.
  apply angular_subaev_pair_order; [done|].
  constructor; [|constructor]. apply Permutation_swap.
Defined.

(** ** The two atoms of a pair *)

Section Swap.
Local Open Scope R_scope.

Lemma inner_comm (u v : vec3) : inner u v = inner v u.
Proof. unfold inner. ring. Qed.

Lemma enclosed_angle_comm (u v : vec3) : enclosed_angle u v = enclosed_angle v u.
Proof.
  unfold enclosed_angle. by rewrite (inner_comm u v), (Rmult_comm (norm u)).
Qed.

Lemma angular_term_swap (K : constants) (eta zeta shfa shfz : R) (center : vec3)
    (p : vec3 * vec3) :
  angular_term K eta zeta shfa shfz center (prod_swap p)
  = angular_term K eta zeta shfa shfz center p.
Proof.
  destruct p as [a b]. unfold angular_term. cbn [prod_swap fst snd]. cbv zeta.
  rewrite (enclosed_angle_comm (vsub b center)).
  destruct (xpow _ zeta) as [w|]; [|done]. cbn [mbind option_bind].
  f_equal. rewrite (Rplus_comm (distance center b)). ring.
Qed.

End Swap.

Lemma angular_row_swap (K : constants) (x : vec3) (ps : list (vec3 * vec3)) :
  angular_row K x (prod_swap <$> ps) = angular_row K x ps.
Proof.
  unfold angular_row. do 3 f_equal.
  apply fmap_ext_all. intros e. apply fmap_ext_all. intros z.
  apply fmap_ext_all. intros a. apply fmap_ext_all. intros q.
  f_equal. rewrite <- list_fmap_compose. apply fmap_ext_all. intros p.
  apply angular_term_swap.
Qed.

(** X5: [angular_subaev] treats the two atoms of a pair alike: the product
    of the distances, the inner product, the mean distance and the product
    of the cutoff weights (lines 98-126) are symmetric, so exchanging the
    two atoms of every pair changes nothing, on any input. *)
Theorem angular_subaev_pair_symmetry (self : NeighborAEV) (center : list vec3)
    (neighbors : tensor (vec3 * vec3)) :
  angular_subaev self center (swap_pairs neighbors)
  = angular_subaev self center neighbors.
Proof.
  rewrite !angular_subaev_total. cbn [swap_pairs shape1 rows].
  case_decide; [done|]. f_equal.
  rewrite zip_with_fmap_r. apply zip_with_ext_all. intros x ps.
  apply angular_row_swap.
Qed.

(** ** Sums over neighbors add up *)

Lemma Rsum_app (l k : list R) : Rsum (l ++ k) = (Rsum l + Rsum k)%R.
Proof. unfold Rsum. induction l as [|x l IH]; simpl; lra. Qed.

Lemma xsum_app (l k : list (option R)) : xsum (l ++ k) = xadd (xsum l) (xsum k).
Proof.
  unfold xsum. induction l as [|x l IH]; simpl.
  - by destruct (foldr xadd (Some 0%R) k) as [v|]; simpl; [f_equal; lra|].
  - rewrite IH. destruct x, (foldr xadd (Some 0%R) l), (foldr xadd (Some 0%R) k);
      simpl; try done. f_equal. lra.
Qed.

Lemma zip_with_concat {T} (f : T → T → T) (X Y : list (list T)) :
  Forall2 (λ x y, length x = length y) X Y →
  zip_with f (concat X) (concat Y) = concat (zip_with (zip_with f) X Y).
Proof.
  induction 1 as [|x y X Y Hxy _ IH]; [done|]. simpl.
  by rewrite zip_with_app, IH.
Qed.

Lemma Forall2_fmap_same {X T U} (P : T → U → Prop) (g : X → T) (h : X → U)
    (l : list X) :
  (∀ x, P (g x) (h x)) → Forall2 P (g <$> l) (h <$> l).
Proof. intros H. apply Forall2_fmap, Forall_Forall2_diag, Forall_true, H. Qed.

Lemma Forall2_concat {T U} (P : T → U → Prop) (X : list (list T)) (Y : list (list U)) :
  Forall2 (Forall2 P) X Y → Forall2 P (concat X) (concat Y).
Proof. induction 1; simpl; [done|]. by apply Forall2_app. Qed.

Lemma radial_row_app (K : constants) (x : vec3) (a b : list vec3) :
  radial_row K x (a ++ b) = zip_with Rplus (radial_row K x a) (radial_row K x b).
Proof.
  unfold radial_row. rewrite zip_with_concat.
  - f_equal. rewrite zip_with_fmap_same. apply fmap_ext_all. intros e.
    rewrite zip_with_fmap_same. apply fmap_ext_all. intros sh.
    by rewrite fmap_app, Rsum_app.
  - apply Forall2_fmap_same. intros e. by rewrite !length_fmap.
Qed.

Lemma angular_row_app (K : constants) (x : vec3) (a b : list (vec3 * vec3)) :
  angular_row K x (a ++ b) = zip_with xadd (angular_row K x a) (angular_row K x b).
Proof.
  unfold angular_row. rewrite zip_with_concat.
  - f_equal. rewrite zip_with_concat.
    + f_equal. rewrite zip_with_concat.
      * f_equal. rewrite zip_with_fmap_same. apply fmap_ext_all. intros e.
        rewrite zip_with_fmap_same. apply fmap_ext_all. intros z.
        rewrite zip_with_fmap_same. apply fmap_ext_all. intros s.
        rewrite zip_with_fmap_same. apply fmap_ext_all. intros t.
        by rewrite fmap_app, xsum_app.
      * apply Forall2_fmap_same. intros e. by rewrite !length_fmap.
    + apply Forall2_concat, Forall2_fmap_same. intros e.
      apply Forall2_fmap_same. intros z. by rewrite !length_fmap.
  - apply Forall2_concat, Forall2_concat, Forall2_fmap_same. intros e.
    apply Forall2_fmap_same. intros z. apply Forall2_fmap_same. intros s.
    by rewrite !length_fmap.
Qed.

Lemma zip_with_zip_with_app {T U V} (g : T → list U → list V) (f : V → V → V)
    (center : list T) (A B : list (list U)) :
  (∀ x a b, g x (a ++ b) = zip_with f (g x a) (g x b)) →
  zip_with g center (zip_with app A B)
  = zip_with (zip_with f) (zip_with g center A) (zip_with g center B).
Proof.
  intros Hg. revert A B. induction center as [|x center IH]; intros [|a A] [|b B];
    simpl; try done.
  by rewrite Hg, IH.
Qed.

(** X6: [radial_subaev] is additive over the neighbors: for the
    concatenation along the neighbor axis of two non-empty neighbor tensors
    over the same conformations it returns, in exact arithmetic, the
    entrywise sum of the results for the two parts, and it raises exactly
    when these raise. *)
Theorem radial_subaev_additive (self : NeighborAEV) (center : list vec3)
    (a b : tensor vec3) :
  tensor_wf a → tensor_wf b → shape0 b = shape0 a → length center = shape0 a →
  0 < shape1 a → 0 < shape1 b →
  radial_subaev self center (cat_neighbors a b)
  = (ra ← radial_subaev self center a;
     rb ← radial_subaev self center b;
     Some (zip_with (zip_with Rplus) ra rb)).
Proof.
  intros _ _ _ _ Ha Hb. rewrite !radial_subaev_total. cbn [cat_neighbors shape1 rows].
  destruct (decide (per_species_radial_length self = 0)) as [HL|HL].
  - rewrite !decide_True by (by right). done.
  - rewrite !decide_False by (intros [?|?]; [lia | done]).
    cbn [mbind option_bind]. f_equal.
    apply zip_with_zip_with_app, radial_row_app.
Qed.

Lemma radial_subaev_additive_witness :
  tensor_wf one_neighbor ∧ tensor_wf other_neighbor ∧
  0 < shape1 one_neighbor ∧ 0 < shape1 other_neighbor ∧
  radial_subaev scenario_A_engine one_center (cat_neighbors one_neighbor other_neighbor)
  = (ra ← radial_subaev scenario_A_engine one_center one_neighbor;
     rb ← radial_subaev scenario_A_engine one_center other_neighbor;
     Some (zip_with (zip_with Rplus) ra rb)).
Proof.
  assert (tensor_wf one_neighbor) as Ha by (split; [done | by repeat constructor]).
  assert (tensor_wf other_neighbor) as Hb by (split; [done | by repeat constructor]).
  split; [exact Ha|]. split; [exact Hb|]. split; [simpl; lia|]. split; [simpl; lia|].
  apply (radial_subaev_additive _ _ _ _ Ha Hb); [done | done | simpl; lia | simpl; lia].
Defined.

(** X7: [angular_subaev] is additive over the pairs: for the concatenation
    along the pair axis of two non-empty pair tensors over the same
    conformations it returns, in exact arithmetic, the entrywise sum of the
    results for the two parts (non-finite where one of the two is), and it
    raises exactly when these raise. *)
Theorem angular_subaev_additive (self : NeighborAEV) (center : list vec3)
    (a b : tensor (vec3 * vec3)) :
  tensor_wf a → tensor_wf b → shape0 b = shape0 a → length center = shape0 a →
  0 < shape1 a → 0 < shape1 b →
  angular_subaev self center (cat_neighbors a b)
  = (ra ← angular_subaev self center a;
     rb ← angular_subaev self center b;
     Some (zip_with (zip_with xadd) ra rb)).
Proof.
  intros _ _ _ _ Ha Hb. rewrite !angular_subaev_total. cbn [cat_neighbors shape1 rows].
  destruct (decide (per_species_angular_length self = 0)) as [HL|HL].
  - rewrite !decide_True by (by right). done.
  - rewrite !decide_False by (intros [?|?]; [lia | done]).
    cbn [mbind option_bind]. f_equal.
    apply zip_with_zip_with_app, angular_row_app.
Qed.

Lemma angular_subaev_additive_witness :
  tensor_wf one_pair ∧ tensor_wf other_pair ∧
  0 < shape1 one_pair ∧ 0 < shape1 other_pair ∧
  angular_subaev scenario_A_engine one_center (cat_neighbors one_pair other_pair)
  = (ra ← angular_subaev scenario_A_engine one_center one_pair;
     rb ← angular_subaev scenario_A_engine one_center other_pair;
     Some (zip_with (zip_with xadd) ra rb)).
Proof.
  assert (tensor_wf one_pair) as Ha by (split; [done | by repeat constructor]).
  assert (tensor_wf other_pair) as Hb by (split; [done | by repeat constructor]).
  split; [exact Ha|]. split; [exact Hb|]. split; [simpl; lia|]. split; [simpl; lia|].
  apply (angular_subaev_additive _ _ _ _ Ha Hb); [done | done | simpl; lia | simpl; lia].
Defined.

(** ** The species list *)

Lemma species_selectors_step_None (atoms : nat) (species : list string) (l : list nat) :
  foldl (species_selectors_step atoms species) None l = None.
Proof. induction l as [|i l IH]; [done | exact IH]. Qed.

Lemma species_selectors_short (atoms : nat) (species : list string) :
  length species < atoms → species_selectors atoms species = None.
Proof.
  intros Hlen. unfold species_selectors.
  assert (∀ n, length species < n →
    foldl (species_selectors_step atoms species) (Some ∅) (seq 0 n) = None) as Hn.
  { intros n Hn.
    replace n with (length species + S (n - S (length species))) by lia.
    rewrite seq_app, foldl_app. cbn [seq foldl].
    etrans; [|apply (species_selectors_step_None atoms species)].
    f_equal. unfold species_selectors_step.
    destruct (foldl _ _ _) as [m|]; [|done]. cbn [mbind option_bind].
    by rewrite lookup_ge_None_2. }
  by apply Hn.
Qed.

Lemma species_selectors_take (atoms : nat) (species : list string) :
  species_selectors atoms (take atoms species) = species_selectors atoms species.
Proof.
  unfold species_selectors.
  assert (∀ l acc, Forall (λ i, i < atoms) l →
    foldl (species_selectors_step atoms (take atoms species)) acc l
    = foldl (species_selectors_step atoms species) acc l) as Hext.
  { induction l as [|i l IH]; intros acc Hl; [done|].
    apply Forall_cons in Hl as [Hi Hl]. cbn [foldl]. rewrite IH by done.
    f_equal. unfold species_selectors_step. by rewrite lookup_take_lt. }
  apply Hext, Forall_forall. intros i [_ Hi]%elem_of_seq. lia.
Qed.

Lemma selector_upto_length (atoms : nat) (species : list string) (k : nat) (s : string) :
  length (selector_upto atoms species k s) = atoms.
Proof. apply length_tabulate. Qed.

(** X8: the loop of lines 166-171.  With fewer labels than atoms,
    [species[i]] raises.  Otherwise the dictionary of selectors has exactly
    the labels of the first [atoms] entries of [species] as its keys; the
    selector of a label has length [atoms] and holds 1 at the atoms that
    carry the label and 0 elsewhere; so every atom is selected by the
    selector of its own label. *)
Theorem species_selectors_contract (atoms : nat) (species : list string) :
  (length species < atoms → species_selectors atoms species = None) ∧
  (atoms ≤ length species →
   ∃ m, species_selectors atoms species = Some m ∧
     (∀ s, is_Some (m !! s) ↔ ∃ j, j < atoms ∧ species !! j = Some s) ∧
     (∀ s sel, m !! s = Some sel →
        length sel = atoms ∧
        ∀ j, j < atoms →
          nth j sel 0%Z = if decide (species !! j = Some s) then 1%Z else 0%Z) ∧
     (∀ j, j < atoms → ∃ s sel, species !! j = Some s ∧ m !! s = Some sel ∧
                                nth j sel 0%Z = 1%Z)).
Proof.
  split; [apply species_selectors_short|]. intros Hlen.
  destruct (species_selectors_spec atoms species Hlen) as (m & Hm & Hlook).
  exists m. split; [done|].
  assert (∀ s, s ∈ take atoms species ↔ ∃ j, j < atoms ∧ species !! j = Some s) as Htake.
  { intros s. rewrite elem_of_take. split; intros (j & ? & ?); exists j; done. }
  assert (∀ s j, j < atoms →
    nth j (selector_upto atoms species atoms s) 0%Z
    = if decide (species !! j = Some s) then 1%Z else 0%Z) as Hsel.
  { intros s j Hj. unfold selector_upto. rewrite nth_tabulate by done.
    apply decide_ext. intuition lia. }
  split; [|split].
  - intros s. rewrite Hlook, <- Htake. case_decide; [by split; eauto|].
    split; [by intros [? ?] | done].
  - intros s sel. rewrite Hlook. case_decide; [|done]. intros [= <-].
    split; [apply selector_upto_length | by apply Hsel].
  - intros j Hj. destruct (lookup_lt_is_Some_2 species j) as [s Hs]; [lia|].
    exists s, (selector_upto atoms species atoms s). split; [done|].
    rewrite Hlook, decide_True by (apply Htake; eauto). split; [done|].
    by rewrite Hsel, decide_True.
Qed.

Lemma species_selectors_contract_witness :
  2 ≤ length scenario_A_species ∧
  ∃ m, species_selectors 2 scenario_A_species = Some m ∧
    ∃ sel, m !! "H"%string = Some sel ∧ nth 1 sel 0%Z = 1%Z.
Proof.
  split; [simpl; lia|].
  destruct (species_selectors_contract 2 scenario_A_species) as [_ H].
  destruct H as (m & Hm & _ & _ & Hall); [simpl; lia|].
  exists m. split; [done|].
  destruct (Hall 1) as (s & sel & Hs & Hsel & Hone); [lia|].
  injection Hs as <-. by exists sel.
Defined.

(** X9: the dictionary [species_neighbors] of lines 177-180.  Its keys are
    the labels that occur among the atoms; for such a label s, entry (i, j)
    of its first mask is 1 when j is a neighbor of i within Rcr and carries
    the label s, and 0 otherwise, likewise for the second mask and Rca; the
    indices that [nonzero()] returns for row i (lines 191, 216, 220) are
    the neighbors of i with the label s. *)
Theorem species_neighbors_contract (self : NeighborAEV) (c : tensor vec3)
    (species : list string) :
  tensor_wf c → shape1 c ≤ length species →
  ∃ m, species_selectors (shape1 c) species = Some m ∧
    let K := self_constants self in
    let sn := species_neighbors (in_cutoff (shape1 c) (R_distances c) (Rcr K))
                                (in_cutoff (shape1 c) (R_distances c) (Rca K)) m in
    (∀ s, is_Some (sn !! s) ↔ ∃ j, j < shape1 c ∧ species !! j = Some s) ∧
    ∀ s nb, sn !! s = Some nb →
      ∀ i, i < shape1 c →
        nonzero (nth i nb.1 []) = neighbors_of c species (Rcr K) i s ∧
        nonzero (nth i nb.2 []) = neighbors_of c species (Rca K) i s ∧
        ∀ j, j < shape1 c →
          nth j (nth i nb.1 []) 0%Z
          = (if decide (adjacent c (Rcr K) i j ∧ species !! j = Some s)
             then 1%Z else 0%Z) ∧
          nth j (nth i nb.2 []) 0%Z
          = (if decide (adjacent c (Rca K) i j ∧ species !! j = Some s)
             then 1%Z else 0%Z).
Proof.
  intros Hwf Hlen.
  destruct (species_selectors_spec (shape1 c) species Hlen) as (m & Hm & Hlook).
  exists m. split; [done|]. intros K sn.
  assert (∀ s, s ∈ take (shape1 c) species
               ↔ ∃ j, j < shape1 c ∧ species !! j = Some s) as Htake.
  { intros s. rewrite elem_of_take. split; intros (j & ? & ?); exists j; done. }
  split.
  - intros s. rewrite <- Htake. unfold sn, species_neighbors.
    rewrite lookup_fmap, Hlook. case_decide; [by split; eauto|].
    split; [by intros [? ?] | done].
  - intros s nb Hnb i Hi.
    assert (s ∈ take (shape1 c) species) as Hs.
    { destruct (decide (s ∈ take (shape1 c) species)) as [|Hno]; [done|].
      pose proof (species_neighbors_absent self c species m Hlook s Hno) as Hnone.
      fold K sn in Hnone. congruence. }
    destruct (species_neighbors_present self c species m Hwf Hlook s i Hs Hi)
      as (nb' & Hnb' & Hr & Ha).
    fold K sn in Hnb', Hr, Ha. assert (nb' = nb) as -> by congruence.
    split; [done|]. split; [done|]. intros j Hj.
    unfold sn, species_neighbors in Hnb. rewrite lookup_fmap, Hlook in Hnb.
    rewrite decide_True in Hnb by done. injection Hnb as <-. cbn [fst snd].
    assert (∀ cutoff,
      nth j (nth i ((λ row, zip_with Z.mul row
                               (selector_upto (shape1 c) species (shape1 c) s))
                      <$> in_cutoff (shape1 c) (R_distances c) cutoff) []) 0%Z
      = (if decide (adjacent c cutoff i j ∧ species !! j = Some s)
         then 1%Z else 0%Z)) as Hentry.
    { intros cutoff.
      erewrite (nth_lookup_Some _ i);
        [|by rewrite list_lookup_fmap, (in_cutoff_row c cutoff i Hwf Hi)].
      unfold selector_upto.
      rewrite (nth_zip_with Z.mul _ _ j 0%Z 0%Z 0%Z) by (by rewrite length_tabulate).
      rewrite !nth_tabulate by done.
      repeat case_decide; try done; try lia; tauto. }
    split; apply Hentry.
Qed.

Lemma species_neighbors_contract_witness :
  tensor_wf scenario_A_coordinates ∧
  shape1 scenario_A_coordinates ≤ length scenario_A_species ∧
  ∃ m, species_selectors 2 scenario_A_species = Some m ∧
    ∀ nb,
      species_neighbors (in_cutoff 2 (R_distances scenario_A_coordinates) 5)
                        (in_cutoff 2 (R_distances scenario_A_coordinates) 5) m
        !! "H"%string = Some nb →
      nonzero (nth 0 nb.1 []) = [1].
Proof.
  assert (tensor_wf scenario_A_coordinates) as Hwf by apply scenario_A_valid.
  split; [exact Hwf|]. split; [simpl; lia|].
  destruct (species_neighbors_contract scenario_A_engine scenario_A_coordinates
              scenario_A_species Hwf) as (m & Hm & _ & Hnb); [simpl; lia|].
  exists m. split; [exact Hm|]. intros nb Hlook.
  destruct (Hnb "H"%string nb Hlook 0) as (Hr & _); [simpl; lia|].
  rewrite Hr. apply scenario_A_neighbors. simpl. lra.
Defined.

(** X10: a species list shorter than the number of atoms makes the call
    raise (IndexError at line 168); labels beyond the number of atoms are
    never read, so the call with the list cut to the atoms is the call
    with the whole list. *)
Theorem species_list_length (self : NeighborAEV) (c : tensor vec3)
    (species : list string) :
  (length species < shape1 c → NeighborAEV_call self c species = None) ∧
  NeighborAEV_call self c (take (shape1 c) species) = NeighborAEV_call self c species.
Proof.
  split.
  - intros Hlen. unfold NeighborAEV_call.
    by rewrite species_selectors_short.
  - unfold NeighborAEV_call. by rewrite species_selectors_take.
Qed.

Lemma species_list_length_witness :
  length ["H"%string] < shape1 scenario_A_coordinates ∧
  NeighborAEV_call scenario_A_engine scenario_A_coordinates ["H"%string] = None ∧
  NeighborAEV_call scenario_A_engine scenario_A_coordinates scenario_A_species
  = NeighborAEV_call scenario_A_engine scenario_A_coordinates three_labels.
Proof.
  destruct (species_list_length scenario_A_engine scenario_A_coordinates ["H"%string])
    as [Hshort _].
  destruct (species_list_length scenario_A_engine scenario_A_coordinates three_labels)
    as [_ Hlong].
  split; [simpl; lia|]. split; [apply Hshort; simpl; lia | exact Hlong].
Defined.

(** ** The inputs on which a call raises *)

Lemma torch_cat1_None {T} (blocks : list (list (list T))) :
  torch_cat1 blocks = None ↔ blocks = [].
Proof. by destruct blocks. Qed.

Lemma torch_stack1_None {T} (mats : list (list (list T))) :
  torch_stack1 mats = None ↔ mats = [].
Proof. by destruct mats. Qed.

Lemma mapM_nil_inv {T U} (f : T → option U) (l : list T) :
  mapM f l = Some [] → l = [].
Proof.
  intros H%mapM_Some. by inversion H.
Qed.

Lemma stacked_None {X T} (f : nat → X → option (list (list T))) (xs : list X)
    (atoms : nat) :
  (l ← mapM (λ i, blocks ← mapM (f i) xs; torch_cat1 blocks) (seq 0 atoms);
   torch_stack1 l) = None
  ↔ atoms = 0 ∨ xs = [] ∨ ∃ i x, i < atoms ∧ x ∈ xs ∧ f i x = None.
Proof.
  split.
  - destruct (mapM _ (seq 0 atoms)) as [l|] eqn:Hl; cbn [mbind option_bind].
    + intros ->%torch_stack1_None. apply mapM_nil_inv in Hl.
      left. by destruct atoms.
    + intros _. apply mapM_None, Exists_exists in Hl as (i & [_ Hi]%elem_of_seq & Hblocks).
      destruct (mapM (f i) xs) as [blocks|] eqn:Hb; cbn [mbind option_bind] in Hblocks.
      * apply torch_cat1_None in Hblocks as ->. apply mapM_nil_inv in Hb.
        right. by left.
      * apply mapM_None, Exists_exists in Hb as (x & Hx & Hfx).
        right. right. exists i, x. split; [lia | done].
  - intros [->|[->|(i & x & Hi & Hx & Hfx)]].
    + done.
    + destruct atoms as [|n]; [done|].
      rewrite (proj2 (mapM_None _ (seq 0 (S n)))); [done|].
      apply Exists_exists. exists 0. split; [apply elem_of_seq; lia | done].
    + rewrite (proj2 (mapM_None _ (seq 0 atoms))); [done|].
      apply Exists_exists. exists i. split; [apply elem_of_seq; lia|].
      rewrite (proj2 (mapM_None (f i) xs)); [done|].
      apply Exists_exists. eauto.
Qed.

Section Raises.
Variables (self : NeighborAEV) (c : tensor vec3) (species : list string).
Variable m : gmap string (list Z).
Hypothesis Hwf : tensor_wf c.
Hypothesis Hm : ∀ s, m !! s = if decide (s ∈ take (shape1 c) species)
                               then Some (selector_upto (shape1 c) species (shape1 c) s)
                               else None.

Let K := self_constants self.
Let sn := species_neighbors (in_cutoff (shape1 c) (R_distances c) (Rcr K))
                            (in_cutoff (shape1 c) (R_distances c) (Rca K)) m.

Lemma radial_block_None (i : nat) (s : string) :
  i < shape1 c →
  radial_block self c sn i s = None
  ↔ per_species_radial_length self = 0 ∧ neighbors_of c species (Rcr K) i s ≠ [].
Proof.
  intros Hi. unfold radial_block.
  destruct (decide (s ∈ take (shape1 c) species)) as [Hs|Hs].
  - destruct (species_neighbors_present self c species m Hwf Hm s i Hs Hi)
      as (nb & Hnb & Hr & _).
    fold K sn in Hnb, Hr. rewrite Hnb, Hr.
    destruct (neighbors_of c species (Rcr K) i s) as [|j U] eqn:HU.
    + rewrite decide_False by (simpl; lia). split; [done | by intros [_ ?]].
    + rewrite decide_True by (simpl; lia).
      rewrite radial_subaev_total. cbn [index_select shape1].
      split.
      * case_decide as H; [|done]. intros _. split; [|done].
        destruct H as [H|H]; [simpl in H; lia | done].
      * intros [HL _]. rewrite decide_True; [done | by right].
  - pose proof (species_neighbors_absent self c species m Hm s Hs) as Hnone.
    fold K sn in Hnone. rewrite Hnone.
    rewrite (neighbors_of_absent c species (Rcr K) i s Hs).
    split; [done | by intros [_ ?]].
Qed.

Lemma angular_block_None (i : nat) (jk : string * string) :
  i < shape1 c →
  angular_block self c sn i jk = None
  ↔ per_species_angular_length self = 0 ∧ pairs_of c species (Rca K) i jk ≠ [].
Proof.
  intros Hi. unfold angular_block.
  pose proof (angular_neighbors_closed self c species m Hwf Hm i jk Hi) as Hnb.
  fold K sn in Hnb. rewrite Hnb.
  destruct (decide (pairs_of c species (Rca K) i jk = [])) as [Hnil|Hnil].
  - split; [done | by intros [_ ?]].
  - rewrite angular_subaev_total. cbn [shape1]. split.
    + case_decide as H; [|done]. intros _. split; [|done].
      destruct H as [H|H]; [|done].
      destruct (pairs_of c species (Rca K) i jk); [done | simpl in H; lia].
    + intros [HL _]. rewrite decide_True; [done | by right].
Qed.

Lemma radial_aevs_None :
  radial_aevs self c sn = None
  ↔ shape1 c = 0 ∨ self_species self = [] ∨
    ∃ i s, i < shape1 c ∧ s ∈ self_species self ∧
           per_species_radial_length self = 0 ∧
           neighbors_of c species (Rcr K) i s ≠ [].
Proof.
  unfold radial_aevs. rewrite stacked_None.
  split; (intros [?|[?|(i & s & Hi & Hs & H)]]; [by left | by right; left |]);
    right; right; exists i, s; (split; [done|]); (split; [done|]);
    by apply (radial_block_None i s Hi).
Qed.

Lemma combinations_with_replacement_nil {T} (l : list T) :
  combinations_with_replacement l = [] ↔ l = [].
Proof. by destruct l. Qed.

Lemma angular_aevs_None :
  angular_aevs self c sn = None
  ↔ shape1 c = 0 ∨ self_species self = [] ∨
    ∃ i jk, i < shape1 c ∧ jk ∈ combinations_with_replacement (self_species self) ∧
            per_species_angular_length self = 0 ∧
            pairs_of c species (Rca K) i jk ≠ [].
Proof.
  unfold angular_aevs. rewrite stacked_None, combinations_with_replacement_nil.
  split; (intros [?|[?|(i & s & Hi & Hs & H)]]; [by left | by right; left |]);
    right; right; exists i, s; (split; [done|]); (split; [done|]);
    by apply (angular_block_None i s Hi).
Qed.

End Raises.

Lemma NeighborAEV_call_None (self : NeighborAEV) (c : tensor vec3)
    (species : list string) :
  tensor_wf c →
  NeighborAEV_call self c species = None
  ↔ length species < shape1 c ∨ shape1 c = 0 ∨ self_species self = [] ∨
    (∃ i s, i < shape1 c ∧ s ∈ self_species self ∧
            per_species_radial_length self = 0 ∧
            neighbors_of c species (Rcr (self_constants self)) i s ≠ []) ∨
    (∃ i jk, i < shape1 c ∧ jk ∈ combinations_with_replacement (self_species self) ∧
             per_species_angular_length self = 0 ∧
             pairs_of c species (Rca (self_constants self)) i jk ≠ []).
Proof.
  intros Hwf. unfold NeighborAEV_call.
  destruct (decide (length species < shape1 c)) as [Hshort|Hlong].
  { rewrite species_selectors_short by done. split; [by left | done]. }
  destruct (species_selectors_spec (shape1 c) species) as (m & -> & Hm); [lia|].
  cbn [mbind option_bind].
  pose proof (radial_aevs_None self c species m Hwf Hm) as Hr.
  pose proof (angular_aevs_None self c species m Hwf Hm) as Ha.
  destruct (radial_aevs self c _) as [r|]; cbn [mbind option_bind].
  - destruct (angular_aevs self c _) as [a|]; cbn [mbind option_bind].
    + split; [done|]. intros H. exfalso.
      assert (Some r = None ∨ Some a = None) as [?|?]; [|done..].
      destruct H as [?|[?|[?|[H|H]]]]; [lia | | | |].
      * left. apply Hr. by left.
      * left. apply Hr. by right; left.
      * left. apply Hr. by right; right.
      * right. apply Ha. by right; right.
    + split; [|done]. intros _.
      destruct (proj1 Ha eq_refl) as [?|[?|?]]; tauto.
  - split; [|done]. intros _.
    destruct (proj1 Hr eq_refl) as [?|[?|?]]; tauto.
Qed.

Lemma NeighborAEV_call_cases (self : NeighborAEV) (c : tensor vec3)
    (species : list string) :
  tensor_wf c →
  NeighborAEV_call self c species = None ∨
  NeighborAEV_call self c species
  = Some (radial_expected self c species, angular_expected self c species).
Proof.
  intros Hwf. unfold NeighborAEV_call.
  destruct (decide (length species < shape1 c)) as [Hshort|Hlong].
  { rewrite species_selectors_short by done. by left. }
  destruct (species_selectors_spec (shape1 c) species) as (m & -> & Hm); [lia|].
  cbn [mbind option_bind].
  destruct (radial_aevs self c _) as [r|] eqn:Hr; [|by left].
  cbn [mbind option_bind].
  destruct (angular_aevs self c _) as [a|] eqn:Ha; [|by left].
  right. cbn [mbind option_bind].
  by rewrite (radial_aevs_returned self c species m Hwf Hm r Hr),
    (angular_aevs_returned self c species m Hwf Hm a Ha).
Qed.

(** X11: on a rectangular coordinate tensor the call raises in exactly
    these cases: the species list is shorter than the atoms; there is no
    atom ([torch.stack] of nothing); the vocabulary is empty ([torch.cat]
    of nothing); a radial constant set is empty and some atom has a
    neighbor within Rcr with a label of the vocabulary; an angular constant
    set is empty and some atom has a neighbor pair for a label pair of the
    vocabulary.  The guards of lines 192, 219, 223 and 228 keep empty
    neighbor tensors away from the two methods. *)
Theorem call_raises_iff (self : NeighborAEV) (c : tensor vec3) (species : list string) :
  tensor_wf c →
  let K := self_constants self in
  NeighborAEV_call self c species = None
  ↔ length species < shape1 c ∨ shape1 c = 0 ∨ self_species self = [] ∨
    (∃ i s, i < shape1 c ∧ s ∈ self_species self ∧
            per_species_radial_length self = 0 ∧
            neighbors_of c species (Rcr K) i s ≠ []) ∨
    (∃ i jk, i < shape1 c ∧ jk ∈ combinations_with_replacement (self_species self) ∧
             per_species_angular_length self = 0 ∧
             pairs_of c species (Rca K) i jk ≠ []).
Proof. intros Hwf K. by apply NeighborAEV_call_None. Qed.

Lemma call_raises_iff_witness :
  tensor_wf scenario_A_coordinates ∧
  NeighborAEV_call no_EtaR_engine scenario_A_coordinates scenario_A_species = None.
Proof.
  assert (tensor_wf scenario_A_coordinates) as Hwf by apply scenario_A_valid.
  split; [exact Hwf|].
  apply (call_raises_iff no_EtaR_engine scenario_A_coordinates scenario_A_species Hwf).
  right. right. right. left. exists 0, "H"%string.
  split; [simpl; lia|]. split; [apply list_elem_of_singleton; done|].
  split; [done|]. cbn [no_EtaR_engine self_constants Rcr].
  rewrite scenario_A_neighbors; [done | lra].
Defined.

(** ** A single atom, and a batch without conformations *)

Lemma adjacent_irrefl (c : tensor vec3) (cutoff : R) (i : nat) : ¬ adjacent c cutoff i i.
Proof. by intros [? _]. Qed.

Lemma length_neighbors_of (c : tensor vec3) (species : list string) (cutoff : R)
    (i : nat) (s : string) :
  i < shape1 c → length (neighbors_of c species cutoff i s) < shape1 c.
Proof.
  intros Hi.
  assert (NoDup (i :: neighbors_of c species cutoff i s)) as Hnd.
  { apply NoDup_cons. split.
    - intros (_ & Hadj & _)%elem_of_neighbors_of. by apply adjacent_irrefl in Hadj.
    - apply NoDup_filter, NoDup_seq. }
  assert (i :: neighbors_of c species cutoff i s ⊆+ seq 0 (shape1 c)) as Hsub.
  { apply NoDup_submseteq; [done|]. intros j [->|Hj]%elem_of_cons.
    - apply elem_of_seq. lia.
    - apply elem_of_neighbors_of in Hj as (Hj & _). apply elem_of_seq. lia. }
  apply submseteq_length in Hsub. rewrite length_seq in Hsub. simpl in Hsub. lia.
Qed.

Lemma neighbors_of_single (c : tensor vec3) (species : list string) (cutoff : R)
    (i : nat) (s : string) :
  shape1 c = 1 → i < 1 → neighbors_of c species cutoff i s = [].
Proof.
  intros HA Hi. apply length_zero_iff_nil.
  pose proof (length_neighbors_of c species cutoff i s). lia.
Qed.

Lemma pairs_of_single (c : tensor vec3) (species : list string) (cutoff : R)
    (i : nat) (jk : string * string) :
  shape1 c = 1 → i < 1 → pairs_of c species cutoff i jk = [].
Proof.
  intros HA Hi. unfold pairs_of. rewrite !neighbors_of_single by done.
  by case_decide.
Qed.

(** X12: a single atom has no neighbors.  For every batch over one atom
    and every engine with a non-empty vocabulary, empty constant sets
    included, the call returns the all-zero radial and angular AEV. *)
Theorem single_atom (self : NeighborAEV) (c : tensor vec3) (species : list string) :
  tensor_wf c → shape1 c = 1 → 1 ≤ length species → self_species self ≠ [] →
  NeighborAEV_call self c species
  = Some (replicate (shape0 c)
            [replicate (length (self_species self) * per_species_radial_length self) 0%R],
          replicate (shape0 c)
            [replicate (binom (length (self_species self) + 1) 2
                        * per_species_angular_length self) (Some 0%R)]).
Proof.
  intros Hwf HA Hlen HS.
  destruct (NeighborAEV_call_cases self c species Hwf) as [E|E].
  - apply NeighborAEV_call_None in E; [|done].
    destruct E as [?|[?|[?|[(i & s & Hi & _ & _ & H)|(i & jk & Hi & _ & _ & H)]]]];
      [lia | lia | done | |].
    + rewrite neighbors_of_single in H by lia. done.
    + rewrite pairs_of_single in H by lia. done.
  - rewrite E. destruct Hwf as [HB _]. rewrite <- HB. f_equal. f_equal.
    + unfold radial_expected. rewrite HA. rewrite <- fmap_const_replicate.
      apply fmap_ext_all. intros conf. cbn [seq fmap list_fmap]. f_equal.
      unfold radial_block_row.
      rewrite (fmap_ext_all _ (λ _, replicate (per_species_radial_length self) 0%R)).
      * by rewrite fmap_const_replicate, concat_replicate_replicate.
      * intros s. rewrite neighbors_of_single by lia. apply radial_row_nil.
    + unfold angular_expected. rewrite HA. rewrite <- fmap_const_replicate.
      apply fmap_ext_all. intros conf. cbn [seq fmap list_fmap]. f_equal.
      unfold angular_block_row.
      rewrite (fmap_ext_all _
        (λ _, replicate (per_species_angular_length self) (Some 0%R))).
      * by rewrite fmap_const_replicate, concat_replicate_replicate,
          length_combinations_with_replacement.
      * intros jk. rewrite pairs_of_single by lia. apply angular_row_nil.
Qed.

Lemma single_atom_witness :
  NeighborAEV_call scenario_A_engine single_atom_coordinates ["H"%string]
  = Some ([[[0%R]]; [[0%R]]], [[[Some 0%R]]; [[Some 0%R]]]).
Proof.
  apply (single_atom scenario_A_engine single_atom_coordinates ["H"%string]).
  - split; [done|]. by repeat constructor.
  - done.
  - simpl. lia.
  - done.
Defined.

Lemma neighbors_of_no_rows (c : tensor vec3) (species : list string) (cutoff : R)
    (i : nat) (s : string) :
  rows c = [] → neighbors_of c species cutoff i s = [].
Proof.
  intros Hrows. unfold neighbors_of.
  rewrite (filter_ext_in _ (λ _, False)).
  - induction (seq 0 (shape1 c)) as [|x l IH]; [done|].
    rewrite filter_cons_False; [exact IH | tauto].
  - intros j _. split; [|done]. intros [[_ Hex] _]. rewrite Hrows in Hex.
    by apply Exists_nil in Hex.
Qed.

Lemma pairs_of_no_rows (c : tensor vec3) (species : list string) (cutoff : R)
    (i : nat) (jk : string * string) :
  rows c = [] → pairs_of c species cutoff i jk = [].
Proof.
  intros Hrows. unfold pairs_of. rewrite !neighbors_of_no_rows by done.
  by case_decide.
Qed.

(** X13: a batch without conformations.  For every engine with a non-empty
    vocabulary the call on a tensor of shape (0, A, 3), A > 0, returns two
    tensors without conformations: no atom has a neighbor, so neither
    method is called. *)
Theorem empty_batch (self : NeighborAEV) (c : tensor vec3) (species : list string) :
  tensor_wf c → shape0 c = 0 →
  0 < shape1 c → shape1 c ≤ length species → self_species self ≠ [] →
  NeighborAEV_call self c species = Some ([], []).
Proof.
  intros Hwf HB HA Hlen HS.
  assert (rows c = []) as Hrows.
  { destruct Hwf as [H _]. apply nil_length_inv. lia. }
  destruct (NeighborAEV_call_cases self c species Hwf) as [E|E].
  - apply NeighborAEV_call_None in E; [|done].
    destruct E as [?|[?|[?|[(i & s & _ & _ & _ & H)|(i & jk & _ & _ & _ & H)]]]];
      [lia | lia | done | |].
    + by rewrite neighbors_of_no_rows in H.
    + by rewrite pairs_of_no_rows in H.
  - rewrite E. unfold radial_expected, angular_expected. by rewrite Hrows.
Qed.

Lemma empty_batch_witness :
  tensor_wf no_conformations ∧
  NeighborAEV_call scenario_A_engine no_conformations scenario_A_species = Some ([], []).
Proof.
  assert (tensor_wf no_conformations) as Hwf by (split; [done | constructor]).
  split; [exact Hwf|].
  apply (empty_batch scenario_A_engine no_conformations scenario_A_species Hwf);
    [done | cbv; lia | cbv; lia | done].
Defined.

(** ** Rigid motions *)

Section RigidMotions.
Local Open Scope R_scope.

Lemma sum_sq_inner (v : vec3) : sum_sq v = inner v v.
Proof. unfold sum_sq, inner. ring. Qed.

Lemma translation_rigid (t : vec3) : rigid_motion (translation t).
Proof. intros a b o. unfold inner, vsub, translation. simpl. ring. Qed.

Lemma reflection_x_rigid : rigid_motion reflection_x.
Proof. intros a b o. unfold inner, vsub, reflection_x. simpl. ring. Qed.

Lemma rotation_z_rigid (theta : R) : rigid_motion (rotation_z theta).
Proof.
  intros a b o. unfold inner, vsub, rotation_z. simpl.
  pose proof (sin2_cos2 theta) as H. unfold Rsqr in H.
  set (s := sin theta) in *. set (k := cos theta) in *.
  replace ((k * vx a - s * vy a - (k * vx o - s * vy o))
           * (k * vx b - s * vy b - (k * vx o - s * vy o))
           + (s * vx a + k * vy a - (s * vx o + k * vy o))
             * (s * vx b + k * vy b - (s * vx o + k * vy o))
           + (vz a - vz o) * (vz b - vz o))
    with ((s * s + k * k) * ((vx a - vx o) * (vx b - vx o) + (vy a - vy o) * (vy b - vy o))
          + (vz a - vz o) * (vz b - vz o)) by ring.
  rewrite H. ring.
Qed.

Context (g : vec3 → vec3) (Hg : rigid_motion g).

Lemma rigid_norm (a o : vec3) : norm (vsub (g a) (g o)) = norm (vsub a o).
Proof. unfold norm. by rewrite !sum_sq_inner, Hg. Qed.

Lemma rigid_distance (a b : vec3) : distance (g a) (g b) = distance a b.
Proof. apply rigid_norm. Qed.

Lemma rigid_enclosed_angle (a b o : vec3) :
  enclosed_angle (vsub (g a) (g o)) (vsub (g b) (g o))
  = enclosed_angle (vsub a o) (vsub b o).
Proof. unfold enclosed_angle. by rewrite Hg, !rigid_norm. Qed.

Lemma radial_row_rigid (K : constants) (x : vec3) (nb : list vec3) :
  radial_row K (g x) (g <$> nb) = radial_row K x nb.
Proof.
  unfold radial_row. f_equal.
  apply fmap_ext_all. intros e. apply fmap_ext_all. intros sh. f_equal.
  rewrite <- list_fmap_compose. apply fmap_ext_all. intros y.
  unfold compose. by rewrite rigid_distance.
Qed.

Lemma angular_term_rigid (K : constants) (eta zeta shfa shfz : R) (x : vec3)
    (p : vec3 * vec3) :
  angular_term K eta zeta shfa shfz (g x) (g p.1, g p.2)
  = angular_term K eta zeta shfa shfz x p.
Proof.
  unfold angular_term. cbn [fst snd].
  by rewrite rigid_enclosed_angle, !rigid_distance.
Qed.

Lemma angular_row_rigid (K : constants) (x : vec3) (ps : list (vec3 * vec3)) :
  angular_row K (g x) ((λ p, (g p.1, g p.2)) <$> ps) = angular_row K x ps.
Proof.
  unfold angular_row. do 3 f_equal.
  apply fmap_ext_all. intros e. apply fmap_ext_all. intros z.
  apply fmap_ext_all. intros a. apply fmap_ext_all. intros q. f_equal.
  rewrite <- list_fmap_compose. apply fmap_ext_all. intros p.
  apply angular_term_rigid.
Qed.

End RigidMotions.

Lemma gather_fmap (g : vec3 → vec3) (conf : list vec3) (idx : list nat) :
  Forall (λ j, j < length conf) idx →
  gather (g <$> conf) idx = g <$> gather conf idx.
Proof.
  intros Hidx. unfold gather. rewrite <- list_fmap_compose.
  apply Forall_fmap_ext_1. eapply Forall_impl; [exact Hidx|].
  intros j Hj. simpl. by apply nth_fmap_lt.
Qed.

Lemma gather2_fmap (g : vec3 → vec3) (conf : list vec3) (idx : list (nat * nat)) :
  Forall (λ p, p.1 < length conf ∧ p.2 < length conf) idx →
  gather2 (g <$> conf) idx = (λ p, (g p.1, g p.2)) <$> gather2 conf idx.
Proof.
  intros Hidx. unfold gather2. rewrite <- list_fmap_compose.
  apply Forall_fmap_ext_1. eapply Forall_impl; [exact Hidx|].
  intros p [H1 H2]. simpl.
  by rewrite (nth_fmap_lt g conf p.1 vzero vzero), (nth_fmap_lt g conf p.2 vzero vzero).
Qed.

Lemma neighbors_of_lt (c : tensor vec3) (species : list string) (cutoff : R)
    (i : nat) (s : string) :
  Forall (λ j, j < shape1 c) (neighbors_of c species cutoff i s).
Proof. apply Forall_forall. by intros j (Hj & _)%elem_of_neighbors_of. Qed.

Lemma pairs_of_lt (c : tensor vec3) (species : list string) (cutoff : R)
    (i : nat) (jk : string * string) :
  Forall (λ p, p.1 < shape1 c ∧ p.2 < shape1 c) (pairs_of c species cutoff i jk).
Proof.
  apply Forall_forall. intros [a b] [Ha Hb]%elem_of_pairs_of.
  apply elem_of_neighbors_of in Ha as (Ha & _), Hb as (Hb & _). done.
Qed.

Lemma row_length {T} (c : tensor T) (conf : list T) :
  tensor_wf c → conf ∈ rows c → length conf = shape1 c.
Proof. intros [_ H] Hc. rewrite Forall_forall in H. by apply H. Qed.

Section Transform.
Context (g : vec3 → vec3) (Hg : rigid_motion g).
Variables (self : NeighborAEV) (c : tensor vec3) (species : list string).
Hypothesis Hwf : tensor_wf c.

Lemma transform_wf : tensor_wf (transform g c).
Proof.
  destruct Hwf as [HB Hrows]. split; simpl.
  - by rewrite length_fmap.
  - apply Forall_fmap. eapply Forall_impl; [exact Hrows|].
    intros conf Hlen. simpl. by rewrite length_fmap.
Qed.

Lemma adjacent_transform (cutoff : R) (i j : nat) :
  i < shape1 c → j < shape1 c →
  adjacent (transform g c) cutoff i j ↔ adjacent c cutoff i j.
Proof.
  intros Hi Hj. unfold adjacent. cbn [transform rows].
  rewrite Exists_fmap, !Exists_exists.
  split; intros [Hne (conf & Hconf & Hd)]; (split; [done|]); exists conf;
    (split; [done|]); pose proof (row_length c conf Hwf Hconf) as Hlen;
    simpl in *;
    rewrite (nth_fmap_lt g conf i vzero vzero), (nth_fmap_lt g conf j vzero vzero),
      (rigid_distance g Hg) in * by lia; done.
Qed.

Lemma neighbors_of_transform (cutoff : R) (i : nat) (s : string) :
  i < shape1 c →
  neighbors_of (transform g c) species cutoff i s = neighbors_of c species cutoff i s.
Proof.
  intros Hi. unfold neighbors_of. cbn [transform shape1].
  apply filter_ext_in. intros j [_ Hj]%elem_of_seq.
  by rewrite adjacent_transform by lia.
Qed.

Lemma pairs_of_transform (cutoff : R) (i : nat) (jk : string * string) :
  i < shape1 c →
  pairs_of (transform g c) species cutoff i jk = pairs_of c species cutoff i jk.
Proof. intros Hi. unfold pairs_of. by rewrite !neighbors_of_transform. Qed.

Lemma radial_expected_transform :
  radial_expected self (transform g c) species = radial_expected self c species.
Proof.
  unfold radial_expected. cbn [transform rows shape1].
  rewrite <- list_fmap_compose. apply list_fmap_ext.
  intros n conf Hconf%list_elem_of_lookup_2. unfold compose.
  pose proof (row_length c conf Hwf Hconf) as Hlen.
  apply list_fmap_ext. intros i ? [-> Hi]%lookup_seq. cbn [Nat.add] in *. f_equal.
  apply fmap_ext_all. intros s. unfold radial_block_row.
  rewrite neighbors_of_transform by done.
  rewrite (nth_fmap_lt g conf i vzero vzero) by lia.
  rewrite gather_fmap by (rewrite Hlen; apply neighbors_of_lt).
  by apply radial_row_rigid.
Qed.

Lemma angular_expected_transform :
  angular_expected self (transform g c) species = angular_expected self c species.
Proof.
  unfold angular_expected. cbn [transform rows shape1].
  rewrite <- list_fmap_compose. apply list_fmap_ext.
  intros n conf Hconf%list_elem_of_lookup_2. unfold compose.
  pose proof (row_length c conf Hwf Hconf) as Hlen.
  apply list_fmap_ext. intros i ? [-> Hi]%lookup_seq. cbn [Nat.add] in *. f_equal.
  apply fmap_ext_all. intros jk. unfold angular_block_row.
  rewrite pairs_of_transform by done.
  rewrite (nth_fmap_lt g conf i vzero vzero) by lia.
  rewrite gather2_fmap by (rewrite Hlen; apply pairs_of_lt).
  by apply angular_row_rigid.
Qed.

Lemma NeighborAEV_call_transform :
  NeighborAEV_call self (transform g c) species = NeighborAEV_call self c species.
Proof.
  pose proof transform_wf as Hwf'.
  assert (NeighborAEV_call self (transform g c) species = None
          ↔ NeighborAEV_call self c species = None) as Hnone.
  { rewrite !NeighborAEV_call_None by done. cbn [transform shape1].
    repeat apply or_iff_compat_l.
    split; (intros [(i & s & Hi & H)|(i & s & Hi & H)]; [left|right]; exists i, s;
      (split; [done|])).
    - by rewrite neighbors_of_transform in H.
    - by rewrite pairs_of_transform in H.
    - by rewrite neighbors_of_transform.
    - by rewrite pairs_of_transform. }
  destruct (NeighborAEV_call_cases self (transform g c) species Hwf') as [E'|E'],
    (NeighborAEV_call_cases self c species Hwf) as [E|E].
  - by rewrite E, E'.
  - apply Hnone in E'. congruence.
  - apply Hnone in E. congruence.
  - by rewrite E, E', radial_expected_transform, angular_expected_transform.
Qed.

End Transform.

(** X14: the AEV is invariant under rigid motions.  The call reads the
    coordinates only through the differences to the center atom, their
    lengths and their inner products (lines 40-43, 87-103 and 137-143), so
    moving every position by a map that keeps the inner products of
    difference vectors changes nothing in the result in exact arithmetic,
    nor in whether the call raises; this holds for every translation, for
    every rotation about the z axis and for the reflection at the plane
    x = 0. *)
Theorem rigid_motion_invariance (self : NeighborAEV) (c : tensor vec3)
    (species : list string) :
  tensor_wf c →
  (∀ g, rigid_motion g →
     NeighborAEV_call self (transform g c) species = NeighborAEV_call self c species) ∧
  (∀ t, NeighborAEV_call self (transform (translation t) c) species
        = NeighborAEV_call self c species) ∧
  (∀ theta, NeighborAEV_call self (transform (rotation_z theta) c) species
            = NeighborAEV_call self c species) ∧
  NeighborAEV_call self (transform reflection_x c) species
  = NeighborAEV_call self c species.
Proof.
  intros Hwf. split; [|split; [|split]].
  - intros g Hg. by apply NeighborAEV_call_transform.
  - intros t. apply NeighborAEV_call_transform; [apply translation_rigid | done].
  - intros theta. apply NeighborAEV_call_transform; [apply rotation_z_rigid | done].
  - apply NeighborAEV_call_transform; [apply reflection_x_rigid | done].
Qed.

Lemma rigid_motion_invariance_witness :
  tensor_wf scenario_A_coordinates ∧
  NeighborAEV_call scenario_A_engine
    (transform (translation (Vec3 1 2 3)) scenario_A_coordinates) scenario_A_species
  = NeighborAEV_call scenario_A_engine scenario_A_coordinates scenario_A_species ∧
  NeighborAEV_call scenario_A_engine
    (transform (rotation_z 1) scenario_A_coordinates) scenario_A_species
  = NeighborAEV_call scenario_A_engine scenario_A_coordinates scenario_A_species.
Proof.
  assert (tensor_wf scenario_A_coordinates) as Hwf by apply scenario_A_valid.
  destruct (rigid_motion_invariance scenario_A_engine scenario_A_coordinates
              scenario_A_species Hwf) as (_ & Ht & Hr & _).
  split; [exact Hwf|]. split; [apply Ht | apply Hr].
Defined.

(** ** The order of the atoms *)

Lemma combinations2_Permutation {T U} (f : T * T → U) (l l' : list T) :
  (∀ a b, f (a, b) = f (b, a)) → l ≡ₚ l' →
  f <$> combinations2 l ≡ₚ f <$> combinations2 l'.
Proof.
  intros Hf. induction 1 as [|x l l' Hl IH|x y l|l l' l'' _ IH1 _ IH2].
  - done.
  - cbn [combinations2]. rewrite !fmap_app. apply Permutation_app; [|done].
    by apply fmap_Permutation, fmap_Permutation.
  - cbn [combinations2]. rewrite !fmap_cons, !fmap_app. cbn [app fmap list_fmap].
    rewrite (Hf y x). apply Permutation_skip.
    rewrite !app_assoc. apply Permutation_app; [|done]. apply Permutation_app_comm.
  - by etrans.
Qed.

Lemma cartesian_prod2_Permutation {T} (a a' b b' : list T) :
  a ≡ₚ a' → b ≡ₚ b' → cartesian_prod2 a b ≡ₚ cartesian_prod2 a' b'.
Proof.
  intros Ha Hb. unfold cartesian_prod2.
  trans (a ≫= λ x, pair x <$> b').
  - clear Ha. induction a as [|x a IH]; csimpl; [done|].
    apply Permutation_app; [by apply fmap_Permutation | exact IH].
  - by apply bind_Permutation.
Qed.

Lemma angular_row_terms (K : constants) (x : vec3) (ps ps' : list (vec3 * vec3)) :
  (∀ e z a q, angular_term K e z a q x <$> ps ≡ₚ angular_term K e z a q x <$> ps') →
  angular_row K x ps = angular_row K x ps'.
Proof.
  intros Hp. unfold angular_row. do 3 f_equal.
  apply fmap_ext_all. intros e. apply fmap_ext_all. intros z.
  apply fmap_ext_all. intros a. apply fmap_ext_all. intros q.
  apply xsum_Permutation, Hp.
Qed.

Lemma angular_row_combinations2 (K : constants) (x : vec3) (v v' : list vec3) :
  v ≡ₚ v' → angular_row K x (combinations2 v) = angular_row K x (combinations2 v').
Proof.
  intros Hv. apply angular_row_terms. intros e z a q.
  apply combinations2_Permutation; [|done].
  intros a0 b0. symmetry. apply (angular_term_swap K e z a q x (a0, b0)).
Qed.

Lemma gather2_combinations2 (conf : list vec3) (idx : list nat) :
  gather2 conf (combinations2 idx) = combinations2 (gather conf idx).
Proof.
  unfold gather2, gather. symmetry.
  exact (combinations2_fmap (λ j, nth j conf vzero) idx).
Qed.

Lemma gather2_cartesian_prod2 (conf : list vec3) (a b : list nat) :
  gather2 conf (cartesian_prod2 a b) = cartesian_prod2 (gather conf a) (gather conf b).
Proof.
  unfold gather2, gather. symmetry.
  exact (cartesian_prod2_fmap (λ j, nth j conf vzero) a b).
Qed.

Lemma filter_fmap {T U} (P : U → Prop) `{!∀ x, Decision (P x)} (f : T → U)
    (l : list T) :
  filter P (f <$> l) = f <$> filter (λ x, P (f x)) l.
Proof.
  induction l as [|x l IH]; [done|]. csimpl. rewrite !filter_cons, IH.
  by destruct (decide (P (f x))).
Qed.

Section Reorder.
Variables (self : NeighborAEV) (c : tensor vec3) (species : list string).
Variable p : list nat.
Hypothesis Hwf : tensor_wf c.
Hypothesis Hlen : shape1 c ≤ length species.
Hypothesis Hp : p ≡ₚ seq 0 (shape1 c).

Let K := self_constants self.
Let c' := index_select c p.
Let species' := reorder_labels p species.
Let at_ (k : nat) : nat := nth k p 0.

Lemma reorder_length : length p = shape1 c.
Proof. by rewrite Hp, length_seq. Qed.

Lemma reorder_elem (j : nat) : j ∈ p ↔ j < shape1 c.
Proof. rewrite Hp, elem_of_seq. lia. Qed.

Lemma reorder_NoDup : NoDup p.
Proof. rewrite Hp. apply NoDup_seq. Qed.

Lemma at_lookup (k : nat) : k < shape1 c → p !! k = Some (at_ k).
Proof.
  intros Hk. destruct (lookup_lt_is_Some_2 p k) as [j Hj];
    [by rewrite reorder_length|].
  unfold at_. by rewrite (nth_lookup_Some p k 0 j Hj).
Qed.

Lemma at_lt (k : nat) : k < shape1 c → at_ k < shape1 c.
Proof.
  intros Hk. apply reorder_elem. eapply list_elem_of_lookup_2. by apply at_lookup.
Qed.

Lemma at_inj (k l : nat) : k < shape1 c → l < shape1 c → at_ k = at_ l → k = l.
Proof.
  intros Hk Hl E. apply (NoDup_lookup p k l (at_ k) reorder_NoDup).
  - by apply at_lookup.
  - rewrite E. by apply at_lookup.
Qed.

Lemma at_surj (j : nat) : j < shape1 c → ∃ k, k < shape1 c ∧ at_ k = j.
Proof.
  intros Hj. apply reorder_elem, list_elem_of_lookup_1 in Hj as [k Hk].
  exists k. pose proof (lookup_lt_Some _ _ _ Hk) as Hlt.
  rewrite reorder_length in Hlt. split; [done|].
  unfold at_. by rewrite (nth_lookup_Some p k 0 j Hk).
Qed.

Lemma at_seq : at_ <$> seq 0 (shape1 c) = p.
Proof.
  rewrite <- reorder_length. unfold at_.
  etrans; [apply (tabulate_nth (λ j, j) p 0)|]. apply list_fmap_id.
Qed.

Lemma reorder_wf : tensor_wf c'.
Proof.
  destruct Hwf as [HB Hrows]. split; simpl.
  - by rewrite length_fmap.
  - apply Forall_fmap, Forall_true. intros conf. simpl. by rewrite length_fmap.
Qed.

Lemma reorder_shape1 : shape1 c' = shape1 c.
Proof. apply reorder_length. Qed.

Lemma reorder_rows : rows c' = (λ conf, gather conf p) <$> rows c.
Proof. done. Qed.

Lemma nth_gather (conf : list vec3) (k : nat) :
  k < shape1 c → nth k (gather conf p) vzero = nth (at_ k) conf vzero.
Proof.
  intros Hk. unfold gather, at_.
  by rewrite (nth_fmap_lt _ p k vzero 0) by (by rewrite reorder_length).
Qed.

Lemma gather_gather (conf : list vec3) (idx : list nat) :
  Forall (λ k, k < shape1 c) idx →
  gather (gather conf p) idx = gather conf (at_ <$> idx).
Proof.
  intros Hidx. unfold gather at 1 3. rewrite <- list_fmap_compose.
  apply Forall_fmap_ext_1. eapply Forall_impl; [exact Hidx|].
  intros k Hk. simpl. by apply nth_gather.
Qed.

Lemma reorder_species_lookup (l : nat) (s : string) :
  l < shape1 c → species' !! l = Some s ↔ species !! at_ l = Some s.
Proof.
  intros Hl. unfold species', reorder_labels.
  rewrite list_lookup_fmap, (at_lookup l Hl). simpl.
  destruct (lookup_lt_is_Some_2 species (at_ l)) as [s0 Hs0];
    [pose proof (at_lt l Hl); lia|].
  by rewrite (nth_lookup_Some species _ _ s0 Hs0), Hs0.
Qed.

Lemma adjacent_reorder (cutoff : R) (k l : nat) :
  k < shape1 c → l < shape1 c →
  adjacent c' cutoff k l ↔ adjacent c cutoff (at_ k) (at_ l).
Proof.
  intros Hk Hl. unfold adjacent. rewrite reorder_rows, Exists_fmap.
  assert (k ≠ l ↔ at_ k ≠ at_ l) as Hne.
  { split; intros H E; apply H; [by apply at_inj | by rewrite E]. }
  rewrite Hne. apply and_iff_compat_l.
  split; intros Hex; (eapply Exists_impl; [exact Hex|]); intros conf; simpl;
    by rewrite !nth_gather.
Qed.

Lemma neighbors_of_reorder (cutoff : R) (k : nat) (s : string) :
  k < shape1 c →
  at_ <$> neighbors_of c' species' cutoff k s ≡ₚ neighbors_of c species cutoff (at_ k) s.
Proof.
  intros Hk. unfold neighbors_of at 2. rewrite <- Hp, <- at_seq at 1.
  rewrite (filter_fmap (λ j, adjacent c cutoff (at_ k) j ∧ species !! j = Some s)).
  apply Permutation_refl'. f_equal. unfold neighbors_of. rewrite reorder_shape1.
  apply filter_ext_in. intros l [_ Hl]%elem_of_seq.
  rewrite adjacent_reorder, reorder_species_lookup by lia. done.
Qed.

Lemma gather_neighbors_reorder (conf : list vec3) (cutoff : R) (k : nat) (s : string) :
  k < shape1 c →
  gather (gather conf p) (neighbors_of c' species' cutoff k s)
  ≡ₚ gather conf (neighbors_of c species cutoff (at_ k) s).
Proof.
  intros Hk. rewrite gather_gather.
  - unfold gather. by apply fmap_Permutation, neighbors_of_reorder.
  - rewrite <- reorder_shape1. apply neighbors_of_lt.
Qed.

Lemma neighbors_of_reorder_length (cutoff : R) (k : nat) (s : string) :
  k < shape1 c →
  length (neighbors_of c' species' cutoff k s)
  = length (neighbors_of c species cutoff (at_ k) s).
Proof.
  intros Hk. rewrite <- (neighbors_of_reorder cutoff k s Hk). by rewrite length_fmap.
Qed.

Lemma neighbors_of_reorder_nil (cutoff : R) (k : nat) (s : string) :
  k < shape1 c →
  neighbors_of c' species' cutoff k s = [] ↔ neighbors_of c species cutoff (at_ k) s = [].
Proof.
  intros Hk. rewrite <- !length_zero_iff_nil, neighbors_of_reorder_length by done.
  done.
Qed.

Lemma pairs_of_reorder_nil (cutoff : R) (k : nat) (jk : string * string) :
  k < shape1 c →
  pairs_of c' species' cutoff k jk = [] ↔ pairs_of c species cutoff (at_ k) jk = [].
Proof.
  intros Hk. unfold pairs_of. case_decide.
  - by rewrite !combinations2_nil_iff, neighbors_of_reorder_length.
  - by rewrite !cartesian_prod2_nil_iff, !neighbors_of_reorder_nil.
Qed.

Lemma radial_block_row_reorder (conf : list vec3) (k : nat) (s : string) :
  k < shape1 c →
  radial_block_row self c' species' (gather conf p) k s
  = radial_block_row self c species conf (at_ k) s.
Proof.
  intros Hk. unfold radial_block_row. rewrite nth_gather by done.
  by apply radial_row_Permutation, gather_neighbors_reorder.
Qed.

Lemma angular_block_row_reorder (conf : list vec3) (k : nat) (jk : string * string) :
  k < shape1 c →
  angular_block_row self c' species' (gather conf p) k jk
  = angular_block_row self c species conf (at_ k) jk.
Proof.
  intros Hk. unfold angular_block_row, pairs_of. rewrite nth_gather by done.
  case_decide.
  - rewrite !gather2_combinations2.
    by apply angular_row_combinations2, gather_neighbors_reorder.
  - rewrite !gather2_cartesian_prod2.
    apply angular_row_Permutation, cartesian_prod2_Permutation;
      by apply gather_neighbors_reorder.
Qed.

Lemma reorder_rows_of {T} (F : list vec3 → nat → list T) :
  (λ conf', (λ k, F conf' k) <$> seq 0 (shape1 c')) <$> rows c'
  = (λ conf, (λ k, F (gather conf p) k) <$> seq 0 (shape1 c)) <$> rows c.
Proof.
  rewrite reorder_rows, reorder_shape1, <- list_fmap_compose. done.
Qed.

Lemma reorder_atoms_of {T} (F : list vec3 → nat → list T) :
  reorder_atoms p ((λ conf, (λ j, F conf j) <$> seq 0 (shape1 c)) <$> rows c)
  = (λ conf, (λ k, F conf (at_ k)) <$> seq 0 (shape1 c)) <$> rows c.
Proof.
  unfold reorder_atoms. rewrite <- list_fmap_compose.
  apply fmap_ext_all. intros conf. unfold compose.
  rewrite <- at_seq at 1. rewrite <- list_fmap_compose.
  apply list_fmap_ext. intros k ? [-> Hk]%lookup_seq. cbn [Nat.add] in *.
  unfold compose. pose proof (at_lt k Hk) as Hlt.
  rewrite (nth_fmap_lt _ _ (at_ k) [] 0) by (rewrite length_seq; lia).
  by rewrite seq_nth by lia.
Qed.

Lemma radial_expected_reorder :
  radial_expected self c' species' = reorder_atoms p (radial_expected self c species).
Proof.
  unfold radial_expected.
  rewrite (reorder_rows_of (λ conf' k,
    concat ((λ s, radial_block_row self c' species' conf' k s) <$> self_species self))).
  rewrite (reorder_atoms_of (λ conf j,
    concat ((λ s, radial_block_row self c species conf j s) <$> self_species self))).
  apply fmap_ext_all. intros conf.
  apply list_fmap_ext. intros k ? [-> Hk]%lookup_seq. cbn [Nat.add] in *.
  f_equal. apply fmap_ext_all. intros s. by apply radial_block_row_reorder.
Qed.

Lemma angular_expected_reorder :
  angular_expected self c' species' = reorder_atoms p (angular_expected self c species).
Proof.
  unfold angular_expected.
  rewrite (reorder_rows_of (λ conf' k,
    concat ((λ jk, angular_block_row self c' species' conf' k jk)
              <$> combinations_with_replacement (self_species self)))).
  rewrite (reorder_atoms_of (λ conf j,
    concat ((λ jk, angular_block_row self c species conf j jk)
              <$> combinations_with_replacement (self_species self)))).
  apply fmap_ext_all. intros conf.
  apply list_fmap_ext. intros k ? [-> Hk]%lookup_seq. cbn [Nat.add] in *.
  f_equal. apply fmap_ext_all. intros jk. by apply angular_block_row_reorder.
Qed.

Lemma NeighborAEV_call_reorder_None :
  NeighborAEV_call self c' species' = None ↔ NeighborAEV_call self c species = None.
Proof.
  rewrite !NeighborAEV_call_None by (done || apply reorder_wf).
  rewrite reorder_shape1.
  assert (length species' = shape1 c) as ->.
  { unfold species', reorder_labels. by rewrite length_fmap, reorder_length. }
  fold K.
  split; (intros [?|[?|[?|[(k & s & Hk & Hs & HL & H)|(k & s & Hk & Hs & HL & H)]]]];
    [lia | by right; left | by right; right; left | |]).
  - right. right. right. left. exists (at_ k), s.
    split; [by apply at_lt|]. split; [done|]. split; [done|].
    by rewrite <- neighbors_of_reorder_nil.
  - right. right. right. right. exists (at_ k), s.
    split; [by apply at_lt|]. split; [done|]. split; [done|].
    by rewrite <- pairs_of_reorder_nil.
  - destruct (at_surj k Hk) as (k' & Hk' & <-).
    right. right. right. left. exists k', s.
    split; [done|]. split; [done|]. split; [done|].
    by rewrite neighbors_of_reorder_nil.
  - destruct (at_surj k Hk) as (k' & Hk' & <-).
    right. right. right. right. exists k', s.
    split; [done|]. split; [done|]. split; [done|].
    by rewrite pairs_of_reorder_nil.
Qed.

Lemma NeighborAEV_call_reorder :
  NeighborAEV_call self c' species'
  = (λ ra, (reorder_atoms p ra.1, reorder_atoms p ra.2)) <$> NeighborAEV_call self c species.
Proof.
  pose proof NeighborAEV_call_reorder_None as Hnone.
  destruct (NeighborAEV_call_cases self c' species' reorder_wf) as [E'|E'],
    (NeighborAEV_call_cases self c species Hwf) as [E|E].
  - by rewrite E, E'.
  - apply Hnone in E'. congruence.
  - apply Hnone in E. congruence.
  - rewrite E, E'. simpl.
    by rewrite radial_expected_reorder, angular_expected_reorder.
Qed.

End Reorder.

(** X15: listing the atoms in another order lists the rows of the result
    in that order and changes nothing else.  For a permutation p of the
    atom indices, the call on [coordinates.index_select(1, p)] with the
    labels [species[j] for j in p] returns the results of the original
    call with their atom axis reordered by p (in exact arithmetic: the
    sums run over the same neighbors in another order), and raises exactly
    when the original call raises. *)
Theorem atom_order_equivariance (self : NeighborAEV) (c : tensor vec3)
    (species : list string) (p : list nat) :
  tensor_wf c → shape1 c ≤ length species → p ≡ₚ seq 0 (shape1 c) →
  NeighborAEV_call self (index_select c p) (reorder_labels p species)
  = (λ ra, (reorder_atoms p ra.1, reorder_atoms p ra.2))
      <$> NeighborAEV_call self c species.
Proof. intros Hwf Hlen Hp. by apply NeighborAEV_call_reorder. Qed.

Lemma atom_order_equivariance_witness :
  tensor_wf scenario_A_coordinates ∧
  shape1 scenario_A_coordinates ≤ length scenario_A_species ∧
  [1; 0] ≡ₚ seq 0 (shape1 scenario_A_coordinates) ∧
  NeighborAEV_call scenario_A_engine (index_select scenario_A_coordinates [1; 0])
                   (reorder_labels [1; 0] scenario_A_species)
  = (λ ra, (reorder_atoms [1; 0] ra.1, reorder_atoms [1; 0] ra.2))
      <$> NeighborAEV_call scenario_A_engine scenario_A_coordinates scenario_A_species.
Proof.
  assert (tensor_wf scenario_A_coordinates) as Hwf by apply scenario_A_valid.
  assert ([1; 0] ≡ₚ seq 0 (shape1 scenario_A_coordinates)) as Hp
    by apply Permutation_swap.
  split; [exact Hwf|]. split; [simpl; lia|]. split; [exact Hp|].
  apply (atom_order_equivariance scenario_A_engine scenario_A_coordinates
           scenario_A_species [1; 0] Hwf); [simpl; lia | exact Hp].
Defined.

(** ** The order of the conformations *)

Section Conformations.
Variables (self : NeighborAEV) (c : tensor vec3) (species : list string).
Variable q : list nat.
Hypothesis Hwf : tensor_wf c.
Hypothesis Hq : q ≡ₚ seq 0 (shape0 c).

Let c' := select_conformations q c.

Lemma select_rows_Permutation : rows c' ≡ₚ rows c.
Proof.
  cbn [c' select_conformations rows]. rewrite Hq.
  destruct Hwf as [<- _].
  assert ((λ n, nth n (rows c) []) <$> seq 0 (length (rows c)) = rows c) as ->;
    [|done].
  etrans; [exact (tabulate_nth (λ r : list vec3, r) (rows c) [])|].
  apply list_fmap_id.
Qed.

Lemma select_wf : tensor_wf c'.
Proof.
  split; cbn [c' select_conformations rows shape0 shape1].
  - by rewrite length_fmap.
  - pose proof select_rows_Permutation as Hperm.
    cbn [c' select_conformations rows] in Hperm. rewrite Hperm. apply Hwf.
Qed.

Lemma adjacent_select (cutoff : R) (i j : nat) :
  adjacent c' cutoff i j ↔ adjacent c cutoff i j.
Proof.
  unfold adjacent. apply and_iff_compat_l.
  rewrite !Exists_exists. by setoid_rewrite select_rows_Permutation.
Qed.

Lemma neighbors_of_select (cutoff : R) (i : nat) (s : string) :
  neighbors_of c' species cutoff i s = neighbors_of c species cutoff i s.
Proof.
  unfold neighbors_of. cbn [c' select_conformations shape1].
  apply filter_ext_in. intros j _. fold c'. by rewrite adjacent_select.
Qed.

Lemma pairs_of_select (cutoff : R) (i : nat) (jk : string * string) :
  pairs_of c' species cutoff i jk = pairs_of c species cutoff i jk.
Proof. unfold pairs_of. by rewrite !neighbors_of_select. Qed.

Lemma select_rows_of {T} (G : list vec3 → T) (d : T) :
  G <$> rows c' = (λ n, nth n (G <$> rows c) d) <$> q.
Proof.
  cbn [c' select_conformations rows]. rewrite <- list_fmap_compose.
  apply list_fmap_ext. intros k n Hn%list_elem_of_lookup_2. unfold compose.
  rewrite Hq in Hn. apply elem_of_seq in Hn as [_ Hn]. destruct Hwf as [HB _].
  symmetry. apply nth_fmap_lt. lia.
Qed.

Lemma radial_expected_select :
  radial_expected self c' species
  = (λ n, nth n (radial_expected self c species) []) <$> q.
Proof.
  unfold radial_expected. rewrite <- select_rows_of.
  apply fmap_ext_all. intros conf. cbn [c' select_conformations shape1].
  apply fmap_ext_all. intros i. f_equal. apply fmap_ext_all. intros s.
  unfold radial_block_row. fold c'. by rewrite neighbors_of_select.
Qed.

Lemma angular_expected_select :
  angular_expected self c' species
  = (λ n, nth n (angular_expected self c species) []) <$> q.
Proof.
  unfold angular_expected. rewrite <- select_rows_of.
  apply fmap_ext_all. intros conf. cbn [c' select_conformations shape1].
  apply fmap_ext_all. intros i. f_equal. apply fmap_ext_all. intros jk.
  unfold angular_block_row. fold c'. by rewrite pairs_of_select.
Qed.

Lemma NeighborAEV_call_select :
  NeighborAEV_call self c' species
  = (λ ra, ((λ n, nth n ra.1 []) <$> q, (λ n, nth n ra.2 []) <$> q))
      <$> NeighborAEV_call self c species.
Proof.
  assert (NeighborAEV_call self c' species = None
          ↔ NeighborAEV_call self c species = None) as Hnone.
  { rewrite !NeighborAEV_call_None by (done || apply select_wf).
    cbn [c' select_conformations shape1]. fold c'.
    repeat apply or_iff_compat_l.
    split; (intros [(i & s & Hi & Hs & HL & H)|(i & s & Hi & Hs & HL & H)];
      [left|right]; exists i, s; (split; [done|]); (split; [done|]);
      (split; [done|])).
    - by rewrite neighbors_of_select in H.
    - by rewrite pairs_of_select in H.
    - by rewrite neighbors_of_select.
    - by rewrite pairs_of_select. }
  destruct (NeighborAEV_call_cases self c' species select_wf) as [E'|E'],
    (NeighborAEV_call_cases self c species Hwf) as [E|E].
  - by rewrite E, E'.
  - apply Hnone in E'. congruence.
  - apply Hnone in E. congruence.
  - rewrite E, E'. simpl.
    by rewrite radial_expected_select, angular_expected_select.
Qed.

End Conformations.

(** X16: listing the conformations of a batch in another order lists the
    conformations of the result in that order and changes nothing else: the
    union neighbor list (lines 153-160) does not depend on the order of
    the conformations. *)
Theorem conformation_order_equivariance (self : NeighborAEV) (c : tensor vec3)
    (species : list string) (q : list nat) :
  tensor_wf c → q ≡ₚ seq 0 (shape0 c) →
  NeighborAEV_call self (select_conformations q c) species
  = (λ ra, ((λ n, nth n ra.1 []) <$> q, (λ n, nth n ra.2 []) <$> q))
      <$> NeighborAEV_call self c species.
Proof. intros Hwf Hq. by apply NeighborAEV_call_select. Qed.

Lemma conformation_order_equivariance_witness :
  tensor_wf overlap_batch ∧ [1; 0] ≡ₚ seq 0 (shape0 overlap_batch) ∧
  NeighborAEV_call scenario_A_engine (select_conformations [1; 0] overlap_batch)
                   overlap_species
  = (λ ra, ((λ n, nth n ra.1 []) <$> [1; 0], (λ n, nth n ra.2 []) <$> [1; 0]))
      <$> NeighborAEV_call scenario_A_engine overlap_batch overlap_species.
Proof.
  assert (tensor_wf overlap_batch) as Hwf by apply overlap_batch_valid.
  assert ([1; 0] ≡ₚ seq 0 (shape0 overlap_batch)) as Hq by apply Permutation_swap.
  split; [exact Hwf|]. split; [exact Hq|].
  exact (conformation_order_equivariance scenario_A_engine overlap_batch
           overlap_species [1; 0] Hwf Hq).
Defined.

(** ** Atoms beyond the cutoff *)

Section Locality.
Variables (self : NeighborAEV) (c c' : tensor vec3) (species : list string).
Variables i k : nat.
Hypothesis Hwf : tensor_wf c.
Hypothesis Hwf' : tensor_wf c'.
Hypothesis HB : shape0 c' = shape0 c.
Hypothesis HA : shape1 c' = shape1 c.
Hypothesis Hi : i < shape1 c.
Hypothesis Hik : i ≠ k.
Hypothesis Hsame : ∀ n j, j ≠ k → coord c' n j = coord c n j.

Lemma adjacent_elsewhere (cutoff : R) (j : nat) :
  j ≠ k → adjacent c' cutoff i j ↔ adjacent c cutoff i j.
Proof.
  intros Hjk. rewrite !adjacent_iff by done. rewrite HB.
  split; intros [Hne (n & Hn & Hd)]; (split; [done|]); exists n; (split; [done|]).
  - by rewrite <- !Hsame.
  - by rewrite !Hsame.
Qed.

Lemma neighbors_of_elsewhere (cutoff : R) (s : string) :
  ¬ adjacent c cutoff i k → ¬ adjacent c' cutoff i k →
  neighbors_of c' species cutoff i s = neighbors_of c species cutoff i s.
Proof.
  intros Hk Hk'. unfold neighbors_of. rewrite HA.
  apply filter_ext_in. intros j _.
  destruct (decide (j = k)) as [->|Hjk]; [tauto|].
  by rewrite adjacent_elsewhere.
Qed.

Lemma pairs_of_elsewhere (cutoff : R) (jk : string * string) :
  ¬ adjacent c cutoff i k → ¬ adjacent c' cutoff i k →
  pairs_of c' species cutoff i jk = pairs_of c species cutoff i jk.
Proof. intros Hk Hk'. unfold pairs_of. by rewrite !neighbors_of_elsewhere. Qed.

Lemma radial_block_row_elsewhere (n : nat) (s : string) :
  ¬ adjacent c (Rcr (self_constants self)) i k →
  ¬ adjacent c' (Rcr (self_constants self)) i k →
  radial_block_row self c' species (nth n (rows c') []) i s
  = radial_block_row self c species (nth n (rows c) []) i s.
Proof.
  intros Hk Hk'. unfold radial_block_row.
  rewrite neighbors_of_elsewhere by done.
  fold (coord c' n i) (coord c n i). rewrite Hsame by done. f_equal.
  unfold gather. apply list_fmap_ext. intros ? j Hj%list_elem_of_lookup_2.
  apply elem_of_neighbors_of in Hj as (_ & Hadj & _).
  apply (Hsame n j). by intros ->.
Qed.

Lemma angular_block_row_elsewhere (n : nat) (jk : string * string) :
  ¬ adjacent c (Rca (self_constants self)) i k →
  ¬ adjacent c' (Rca (self_constants self)) i k →
  angular_block_row self c' species (nth n (rows c') []) i jk
  = angular_block_row self c species (nth n (rows c) []) i jk.
Proof.
  intros Hk Hk'. unfold angular_block_row.
  rewrite pairs_of_elsewhere by done.
  fold (coord c' n i) (coord c n i). rewrite Hsame by done. f_equal.
  unfold gather2. apply list_fmap_ext. intros ? [a b] Hab%list_elem_of_lookup_2.
  apply elem_of_pairs_of in Hab as [Ha Hb].
  apply elem_of_neighbors_of in Ha as (_ & Hadja & _), Hb as (_ & Hadjb & _).
  cbn [fst snd]. fold (coord c' n a) (coord c n a) (coord c' n b) (coord c n b).
  rewrite !Hsame; [done | by intros -> | by intros ->].
Qed.

Lemma expected_rows_elsewhere (n : nat) :
  ¬ adjacent c (Rcr (self_constants self)) i k →
  ¬ adjacent c' (Rcr (self_constants self)) i k →
  ¬ adjacent c (Rca (self_constants self)) i k →
  ¬ adjacent c' (Rca (self_constants self)) i k →
  nth i (nth n (radial_expected self c' species) []) []
  = nth i (nth n (radial_expected self c species) []) [] ∧
  nth i (nth n (angular_expected self c' species) []) []
  = nth i (nth n (angular_expected self c species) []) [].
Proof.
  intros Hr Hr' Ha Ha'. destruct (decide (n < shape0 c)) as [Hn|Hn].
  - rewrite !radial_expected_row, !angular_expected_row by (done || lia).
    split; f_equal; apply fmap_ext_all; intros s.
    + by apply radial_block_row_elsewhere.
    + by apply angular_block_row_elsewhere.
  - destruct Hwf as [Hlen _], Hwf' as [Hlen' _].
    rewrite !(nth_overflow (radial_expected _ _ _)),
      !(nth_overflow (angular_expected _ _ _)); [done|..];
      unfold radial_expected, angular_expected; rewrite length_fmap; lia.
Qed.

End Locality.

Lemma not_adjacent_far (c : tensor vec3) (cutoff : R) (i k : nat) :
  tensor_wf c →
  (∀ n, n < shape0 c → (cutoff < distance (coord c n i) (coord c n k))%R) →
  ¬ adjacent c cutoff i k.
Proof.
  intros Hwf Hfar [_ (n & Hn & Hd)]%adjacent_iff; [|done].
  specialize (Hfar n Hn). lra.
Qed.

Lemma far_atom_valid : valid_input far_atom_coordinates overlap_species.
Proof. split; [|split; simpl; [lia | done]]. split; [done|]. by repeat constructor. Qed.

Lemma far_atom_moved_valid : valid_input far_atom_moved overlap_species.
Proof. split; [|split; simpl; [lia | done]]. split; [done|]. by repeat constructor. Qed.

(** X17: the AEV of an atom does not depend on an atom that stays beyond
    both cutoffs.  If two batches of the same shape differ only in the
    positions of atom k, and in every conformation of both batches atom k
    lies farther than Rcr and farther than Rca from atom i, then atom i has
    the same radial and angular AEV in the results of both calls. *)
Theorem atoms_beyond_cutoff (self : NeighborAEV) (c c' : tensor vec3)
    (species : list string) (i k : nat) :
  tensor_wf c → tensor_wf c' → shape0 c' = shape0 c → shape1 c' = shape1 c →
  i < shape1 c → i ≠ k →
  (∀ n j, j ≠ k → coord c' n j = coord c n j) →
  (∀ n, n < shape0 c →
     (Rcr (self_constants self) < distance (coord c n i) (coord c n k))%R ∧
     (Rca (self_constants self) < distance (coord c n i) (coord c n k))%R ∧
     (Rcr (self_constants self) < distance (coord c' n i) (coord c' n k))%R ∧
     (Rca (self_constants self) < distance (coord c' n i) (coord c' n k))%R) →
  ∀ radial angular radial' angular',
    NeighborAEV_call self c species = Some (radial, angular) →
    NeighborAEV_call self c' species = Some (radial', angular') →
    ∀ n, nth i (nth n radial' []) [] = nth i (nth n radial []) [] ∧
         nth i (nth n angular' []) [] = nth i (nth n angular []) [].
Proof.
  intros Hwf Hwf' HB HA Hi Hik Hsame Hfar radial angular radial' angular' Hc Hc' n.
  destruct (NeighborAEV_call_cases self c species Hwf) as [E|E]; [congruence|].
  destruct (NeighborAEV_call_cases self c' species Hwf') as [E'|E']; [congruence|].
  rewrite E in Hc. rewrite E' in Hc'. injection Hc as <- <-. injection Hc' as <- <-.
  apply (expected_rows_elsewhere self c c' species i k); try done.
  - apply not_adjacent_far; [done|]. intros m Hm. by apply Hfar.
  - apply not_adjacent_far; [done|]. intros m Hm. rewrite HB in Hm. by apply Hfar.
  - apply not_adjacent_far; [done|]. intros m Hm. by apply Hfar.
  - apply not_adjacent_far; [done|]. intros m Hm. rewrite HB in Hm. by apply Hfar.
Qed.

Lemma atoms_beyond_cutoff_witness :
  tensor_wf far_atom_coordinates ∧ tensor_wf far_atom_moved ∧
  (5 < distance (coord far_atom_coordinates 0 0) (coord far_atom_coordinates 0 2))%R ∧
  (5 < distance (coord far_atom_moved 0 0) (coord far_atom_moved 0 2))%R ∧
  ∃ radial angular radial' angular',
    NeighborAEV_call scenario_A_engine far_atom_coordinates overlap_species
    = Some (radial, angular) ∧
    NeighborAEV_call scenario_A_engine far_atom_moved overlap_species
    = Some (radial', angular') ∧
    nth 0 (nth 0 radial' []) [] = nth 0 (nth 0 radial []) [] ∧
    nth 0 (nth 0 angular' []) [] = nth 0 (nth 0 angular []) [].
Proof.
  assert (distance (coord far_atom_coordinates 0 0) (coord far_atom_coordinates 0 2)
          = 10%R) as H10.
  { unfold coord. simpl. apply distance_along_x. lra. }
  assert (distance (coord far_atom_moved 0 0) (coord far_atom_moved 0 2) = 20%R) as H20.
  { unfold coord. simpl. apply distance_along_x. lra. }
  split; [apply far_atom_valid|]. split; [apply far_atom_moved_valid|].
  split; [rewrite H10; lra|]. split; [rewrite H20; lra|].
  eexists _, _, _, _.
  split; [apply (NeighborAEV_call_closed _ _ _ scenario_A_engine_ok far_atom_valid)|].
  split; [apply (NeighborAEV_call_closed _ _ _ scenario_A_engine_ok far_atom_moved_valid)|].
  apply (atoms_beyond_cutoff scenario_A_engine far_atom_coordinates far_atom_moved
           overlap_species 0 2
           (proj1 far_atom_valid) (proj1 far_atom_moved_valid) eq_refl eq_refl).
  - simpl. lia.
  - done.
  - intros n j Hj. unfold coord.
    destruct n as [|n]; [|by destruct n, j].
    destruct j as [|[|[|j]]]; done.
  - intros n Hn. simpl in Hn. assert (n = 0) as -> by lia.
    rewrite H10, H20. cbn [scenario_A_engine self_constants scenario_A_constants Rcr Rca].
    repeat split; lra.
  - apply (NeighborAEV_call_closed _ _ _ scenario_A_engine_ok far_atom_valid).
  - apply (NeighborAEV_call_closed _ _ _ scenario_A_engine_ok far_atom_moved_valid).
Defined.

(** ** The sign and the size of the entries *)

Section Bounds.
Local Open Scope R_scope.

Lemma cutoff_le_1 (r Rc : R) : _cutoff_cosine r Rc <= 1.
Proof.
  unfold _cutoff_cosine. case_decide; [|lra].
  pose proof (COS_bound (PI * r / Rc)). lra.
Qed.

Lemma radial_term_nonneg (K : constants) (eta shf d : R) : 0 <= radial_term K eta shf d.
Proof.
  unfold radial_term.
  pose proof (exp_pos (- eta * (d - shf) ^ 2)).
  pose proof (cutoff_nonneg d (Rcr K)).
  apply Rmult_le_pos; [|done]. lra.
Qed.

Lemma radial_term_le (K : constants) (eta shf d : R) :
  0 <= eta → radial_term K eta shf d <= 0.25.
Proof.
  intros Heta. unfold radial_term.
  pose proof (exp_pos (- eta * (d - shf) ^ 2)) as Hpos.
  assert (exp (- eta * (d - shf) ^ 2) <= 1) as Hexp.
  { apply exp_le_1. pose proof (pow2_ge_0 (d - shf)). nra. }
  pose proof (cutoff_nonneg d (Rcr K)). pose proof (cutoff_le_1 d (Rcr K)).
  nra.
Qed.

Lemma Rsum_nonneg (l : list R) : Forall (λ x, 0 <= x) l → 0 <= Rsum l.
Proof. unfold Rsum. induction 1; simpl; lra. Qed.

Lemma Rsum_le (b : R) (l : list R) :
  Forall (λ x, x <= b) l → Rsum l <= INR (length l) * b.
Proof.
  unfold Rsum. induction 1 as [|x l Hx _ IH]; [simpl; lra|].
  cbn [foldr]. rewrite length_cons, S_INR. lra.
Qed.

Lemma xpow_nonneg (base : option R) (zeta w : R) : xpow base zeta = Some w → 0 <= w.
Proof.
  unfold xpow. case_decide; [intros [= <-]; lra|].
  destruct base as [b|]; [|done]. cbn [mbind option_bind].
  repeat case_decide; intros [= <-]; try lra.
  unfold Rpower. left. apply exp_pos.
Qed.

Lemma angular_term_nonneg (K : constants) (eta zeta shfa shfz : R) (center : vec3)
    (p : vec3 * vec3) (t : R) :
  angular_term K eta zeta shfa shfz center p = Some t → 0 <= t.
Proof.
  unfold angular_term. cbv zeta.
  destruct (xpow _ zeta) as [w|] eqn:Hw; [|done]. cbn [mbind option_bind].
  intros [= <-]. apply xpow_nonneg in Hw.
  repeat apply Rmult_le_pos; try apply cutoff_nonneg; try lra.
  left. apply exp_pos.
Qed.

Lemma xsum_nonneg (l : list (option R)) (v : R) :
  Forall (λ x, ∀ t, x = Some t → 0 <= t) l → xsum l = Some v → 0 <= v.
Proof.
  unfold xsum. intros Hl. revert v. induction Hl as [|x l Hx _ IH]; intros v.
  - intros [= <-]. lra.
  - cbn [foldr]. destruct x as [t|]; [|done].
    destruct (foldr xadd (Some 0) l) as [u|]; [|done].
    intros [= <-]. specialize (Hx t eq_refl). specialize (IH u eq_refl). lra.
Qed.

Lemma radial_row_nonneg (K : constants) (x : vec3) (nb : list vec3) :
  Forall (λ v, 0 <= v) (radial_row K x nb).
Proof.
  unfold radial_row. apply Forall_concat, Forall_fmap, Forall_true. intros e. simpl.
  apply Forall_fmap, Forall_true. intros sh. simpl.
  apply Rsum_nonneg, Forall_fmap, Forall_true. intros y. apply radial_term_nonneg.
Qed.

Lemma radial_row_le (K : constants) (x : vec3) (nb : list vec3) :
  Forall (λ e, 0 <= e) (EtaR K) →
  Forall (λ v, v <= INR (length nb) * 0.25) (radial_row K x nb).
Proof.
  intros Heta. unfold radial_row. apply Forall_concat, Forall_fmap.
  eapply Forall_impl; [exact Heta|]. intros e He. simpl.
  apply Forall_fmap, Forall_true. intros sh. simpl.
  etrans; [apply (Rsum_le 0.25)|].
  - apply Forall_fmap, Forall_true. intros y. by apply radial_term_le.
  - rewrite length_fmap. lra.
Qed.

Lemma angular_row_nonneg (K : constants) (x : vec3) (ps : list (vec3 * vec3)) :
  Forall (λ o, ∀ v, o = Some v → 0 <= v) (angular_row K x ps).
Proof.
  unfold angular_row.
  apply Forall_concat, Forall_concat, Forall_concat, Forall_fmap, Forall_true.
  intros e. simpl. apply Forall_fmap, Forall_true. intros z. simpl.
  apply Forall_fmap, Forall_true. intros a. simpl.
  apply Forall_fmap, Forall_true. intros q. simpl.
  intros v. apply xsum_nonneg, Forall_fmap, Forall_true. intros p t.
  apply angular_term_nonneg.
Qed.

End Bounds.

(** X18: for positive cutoffs, in every result that a call returns no
    radial entry is negative and no finite angular entry is negative; when
    no EtaR is negative, a radial entry is at most 0.25 for each of the
    other A - 1 atoms. *)
Theorem aev_entry_bounds (self : NeighborAEV) (c : tensor vec3) (species : list string) :
  tensor_wf c →
  (0 < Rcr (self_constants self))%R → (0 < Rca (self_constants self))%R →
  ∀ radial angular,
    NeighborAEV_call self c species = Some (radial, angular) →
    Forall (Forall (Forall (λ x, (0 <= x)%R))) radial ∧
    (Forall (λ e, (0 <= e)%R) (EtaR (self_constants self)) →
     Forall (Forall (Forall (λ x, (x <= INR (shape1 c - 1) * 0.25)%R))) radial) ∧
    Forall (Forall (Forall (λ o, ∀ v, o = Some v → (0 <= v)%R))) angular.
Proof.
  intros Hwf _ _ radial angular Hc.
  destruct (NeighborAEV_call_cases self c species Hwf) as [E|E]; [congruence|].
  rewrite E in Hc. injection Hc as <- <-.
  split; [|split].
  - unfold radial_expected. apply Forall_fmap, Forall_true. intros conf. simpl.
    apply Forall_fmap, Forall_true. intros i. simpl.
    apply Forall_concat, Forall_fmap, Forall_true. intros s. simpl.
    apply radial_row_nonneg.
  - intros Heta. unfold radial_expected. apply Forall_fmap, Forall_true. intros conf.
    simpl. apply Forall_fmap, Forall_forall. intros i [_ Hi]%elem_of_seq. simpl.
    apply Forall_concat, Forall_fmap, Forall_true. intros s. simpl.
    unfold radial_block_row.
    eapply Forall_impl; [by apply radial_row_le|]. intros v Hv. simpl in Hv.
    etrans; [exact Hv|]. apply Rmult_le_compat_r; [lra|]. apply le_INR.
    unfold gather. rewrite length_fmap.
    pose proof (length_neighbors_of c species (Rcr (self_constants self)) i s).
    lia.
  - unfold angular_expected. apply Forall_fmap, Forall_true. intros conf. simpl.
    apply Forall_fmap, Forall_true. intros i. simpl.
    apply Forall_concat, Forall_fmap, Forall_true. intros jk. simpl.
    apply angular_row_nonneg.
Qed.

Lemma aev_entry_bounds_witness :
  tensor_wf scenario_A_coordinates ∧
  (0 < Rcr (self_constants scenario_A_engine))%R ∧
  (0 < Rca (self_constants scenario_A_engine))%R ∧
  ∃ radial angular,
    NeighborAEV_call scenario_A_engine scenario_A_coordinates scenario_A_species
    = Some (radial, angular) ∧
    Forall (Forall (Forall (λ x, (0 <= x)%R))) radial ∧
    Forall (Forall (Forall (λ x, (x <= INR (2 - 1) * 0.25)%R))) radial.
Proof.
  assert (tensor_wf scenario_A_coordinates) as Hwf by apply scenario_A_valid.
  assert (0 < Rcr (self_constants scenario_A_engine))%R as Hcr by (simpl; lra).
  assert (0 < Rca (self_constants scenario_A_engine))%R as Hca by (simpl; lra).
  split; [exact Hwf|]. split; [exact Hcr|]. split; [exact Hca|]. eexists _, _.
  split; [apply (NeighborAEV_call_closed _ _ _ scenario_A_engine_ok scenario_A_valid)|].
  destruct (aev_entry_bounds scenario_A_engine scenario_A_coordinates scenario_A_species
              Hwf Hcr Hca _ _
              (NeighborAEV_call_closed _ _ _ scenario_A_engine_ok scenario_A_valid))
    as (Hlow & Hhigh & _).
  split; [exact Hlow|]. apply Hhigh.
  repeat constructor. simpl. lra.
Defined.

(** ** The neighbor relation is symmetric and grows with the cutoff *)

Lemma distance_sym (a b : vec3) : distance a b = distance b a.
Proof.
  unfold distance, norm. f_equal. unfold sum_sq, vsub. simpl. ring.
Qed.

Lemma adjacent_sym (c : tensor vec3) (cutoff : R) (i j : nat) :
  adjacent c cutoff i j → adjacent c cutoff j i.
Proof.
  intros [Hne Hex]. split; [done|].
  eapply Exists_impl; [exact Hex|]. intros conf Hd. simpl in *.
  by rewrite distance_sym.
Qed.

Lemma adjacent_mono (c : tensor vec3) (cutoff cutoff' : R) (i j : nat) :
  (cutoff <= cutoff')%R → adjacent c cutoff i j → adjacent c cutoff' i j.
Proof.
  intros Hle [Hne Hex]. split; [done|].
  eapply Exists_impl; [exact Hex|]. intros conf Hd. simpl in *. lra.
Qed.

Lemma in_cutoff_entry (c : tensor vec3) (cutoff : R) (i j : nat) :
  tensor_wf c → i < shape1 c → j < shape1 c →
  nth j (nth i (in_cutoff (shape1 c) (R_distances c) cutoff) []) 0%Z
  = if decide (adjacent c cutoff i j) then 1%Z else 0%Z.
Proof.
  intros Hwf Hi Hj.
  rewrite (nth_lookup_Some _ _ _ _ (in_cutoff_row c cutoff i Hwf Hi)).
  by rewrite nth_tabulate.
Qed.

(** X19: the neighbor mask of lines 153-160 is symmetric: atom j is a
    neighbor of atom i exactly when atom i is a neighbor of atom j. *)
Theorem neighbor_mask_symmetric (c : tensor vec3) (cutoff : R) (i j : nat) :
  tensor_wf c → i < shape1 c → j < shape1 c →
  let mask := in_cutoff (shape1 c) (R_distances c) cutoff in
  nth j (nth i mask []) 0%Z = nth i (nth j mask []) 0%Z.
Proof.
  intros Hwf Hi Hj mask. unfold mask. rewrite !in_cutoff_entry by done.
  apply decide_ext. split; apply adjacent_sym.
Qed.

Lemma neighbor_mask_symmetric_witness :
  tensor_wf scenario_A_coordinates ∧
  nth 1 (nth 0 (in_cutoff 2 (R_distances scenario_A_coordinates) 5) []) 0%Z
  = nth 0 (nth 1 (in_cutoff 2 (R_distances scenario_A_coordinates) 5) []) 0%Z.
Proof.
  assert (tensor_wf scenario_A_coordinates) as Hwf by apply scenario_A_valid.
  split; [exact Hwf|].
  apply (neighbor_mask_symmetric scenario_A_coordinates 5 0 1 Hwf); simpl; lia.
Defined.

(** X20: the neighbor mask grows with the cutoff: a neighbor within a
    cutoff is a neighbor within every larger one, so with Rca <= Rcr every
    angular neighbor is a radial neighbor. *)
Theorem neighbor_mask_monotone (c : tensor vec3) (cutoff cutoff' : R) (i j : nat) :
  tensor_wf c → i < shape1 c → j < shape1 c → (cutoff <= cutoff')%R →
  (nth j (nth i (in_cutoff (shape1 c) (R_distances c) cutoff) []) 0
   ≤ nth j (nth i (in_cutoff (shape1 c) (R_distances c) cutoff') []) 0)%Z.
Proof.
  intros Hwf Hi Hj Hle. rewrite !in_cutoff_entry by done.
  destruct (decide (adjacent c cutoff i j)) as [Hadj|Hadj].
  - by rewrite decide_True by (by apply (adjacent_mono c cutoff)).
  - case_decide; lia.
Qed.

Lemma neighbor_mask_monotone_witness :
  tensor_wf scenario_A_coordinates ∧ (1 <= 5)%R ∧
  (nth 1 (nth 0 (in_cutoff 2 (R_distances scenario_A_coordinates) 1) []) 0
   ≤ nth 1 (nth 0 (in_cutoff 2 (R_distances scenario_A_coordinates) 5) []) 0)%Z.
Proof.
  assert (tensor_wf scenario_A_coordinates) as Hwf by apply scenario_A_valid.
  split; [exact Hwf|]. split; [lra|].
  apply (neighbor_mask_monotone scenario_A_coordinates 1 5 0 1 Hwf);
    [simpl; lia | simpl; lia | lra].
Defined.

(** ** The constants of the other half *)

Lemma other_angular_engine_ok : engine_ok other_angular_engine.
Proof. unfold engine_ok. cbn. lia. Qed.

(** X21: the radial AEV reads Rcr, EtaR and ShfR and none of the angular
    constants, the angular AEV reads Rca, EtaA, Zeta, ShfA and ShfZ and none
    of the radial constants: two engines with the same vocabulary that
    agree on the constants of one half return the same tensor for that
    half, on every input on which both return. *)
Theorem radial_angular_independent (self self' : NeighborAEV) (c : tensor vec3)
    (species : list string) :
  tensor_wf c → self_species self' = self_species self →
  ∀ radial angular radial' angular',
    NeighborAEV_call self c species = Some (radial, angular) →
    NeighborAEV_call self' c species = Some (radial', angular') →
    (Rcr (self_constants self') = Rcr (self_constants self) →
     EtaR (self_constants self') = EtaR (self_constants self) →
     ShfR (self_constants self') = ShfR (self_constants self) →
     radial' = radial) ∧
    (Rca (self_constants self') = Rca (self_constants self) →
     EtaA (self_constants self') = EtaA (self_constants self) →
     Zeta (self_constants self') = Zeta (self_constants self) →
     ShfA (self_constants self') = ShfA (self_constants self) →
     ShfZ (self_constants self') = ShfZ (self_constants self) →
     angular' = angular).
Proof.
  intros Hwf HS radial angular radial' angular' Hc Hc'.
  destruct (NeighborAEV_call_cases self c species Hwf) as [E|E]; [congruence|].
  destruct (NeighborAEV_call_cases self' c species Hwf) as [E'|E']; [congruence|].
  rewrite E in Hc. rewrite E' in Hc'. injection Hc as <- <-. injection Hc' as <- <-.
  split.
  - intros H1 H2 H3.
    unfold radial_expected, radial_block_row, radial_row, radial_term.
    by rewrite HS, H1, H2, H3.
  - intros H1 H2 H3 H4 H5.
    unfold angular_expected, angular_block_row, angular_row, angular_term.
    by rewrite HS, H1, H2, H3, H4, H5.
Qed.

Lemma radial_angular_independent_witness :
  tensor_wf scenario_A_coordinates ∧
  self_species other_angular_engine = self_species scenario_A_engine ∧
  ∃ radial angular radial' angular',
    NeighborAEV_call scenario_A_engine scenario_A_coordinates scenario_A_species
    = Some (radial, angular) ∧
    NeighborAEV_call other_angular_engine scenario_A_coordinates scenario_A_species
    = Some (radial', angular') ∧
    radial' = radial.
Proof.
  assert (tensor_wf scenario_A_coordinates) as Hwf by apply scenario_A_valid.
  split; [exact Hwf|]. split; [done|]. eexists _, _, _, _.
  split; [apply (NeighborAEV_call_closed _ _ _ scenario_A_engine_ok scenario_A_valid)|].
  split;
    [apply (NeighborAEV_call_closed _ _ _ other_angular_engine_ok scenario_A_valid)|].
  destruct (radial_angular_independent scenario_A_engine other_angular_engine
              scenario_A_coordinates scenario_A_species Hwf eq_refl _ _ _ _
              (NeighborAEV_call_closed _ _ _ scenario_A_engine_ok scenario_A_valid)
              (NeighborAEV_call_closed _ _ _ other_angular_engine_ok scenario_A_valid))
    as [Hr _].
  by apply Hr.
Defined.

(** ** The order of the species pairs *)

Lemma bind_fmap_seq {T} (f : nat → list T) (a n : nat) :
  seq (S a) n ≫= f = seq a n ≫= (λ k, f (S k)).
Proof.
  revert a. induction n as [|n IH]; intros a; [done|].
  cbn [seq]. csimpl. by rewrite IH.
Qed.

Lemma combinations_with_replacement_enum {T} (l : list T) (d : T) :
  combinations_with_replacement l
  = a ← seq 0 (length l); (λ b, (nth a l d, nth b l d)) <$> seq a (length l - a).
Proof.
  induction l as [|x t IH]; [done|].
  cbn [combinations_with_replacement length seq]. csimpl. f_equal. f_equal.
  - symmetry. rewrite <- fmap_S_seq, <- list_fmap_compose.
    exact (tabulate_nth (pair x) t d).
  - rewrite IH, bind_fmap_seq. apply list_bind_ext; [|done]. intros a.
    cbn [Nat.sub]. rewrite <- fmap_S_seq, <- list_fmap_compose. done.
Qed.

(** X22: the loop of line 213 visits the label pairs
    (vocabulary[a], vocabulary[b]) with a <= b, in the lexicographic order
    of (a, b): first the pairs of the first label with itself and with every
    later label, then those of the second label, and so on; there are
    S (S + 1) / 2 of them.  In every result that a call returns, the p-th
    block of an angular row belongs to the p-th of these pairs. *)
Theorem species_pair_order (self : NeighborAEV) (c : tensor vec3)
    (species : list string) :
  tensor_wf c →
  let vocabulary := self_species self in
  let size := length vocabulary in
  let pairs := a ← seq 0 size;
               (λ b, (nth a vocabulary ""%string, nth b vocabulary ""%string))
                 <$> seq a (size - a) in
  combinations_with_replacement vocabulary = pairs ∧
  length pairs = size * (size + 1) / 2 ∧
  ∀ radial angular,
    NeighborAEV_call self c species = Some (radial, angular) →
    ∀ n i p, n < shape0 c → i < shape1 c → p < length pairs →
      take (per_species_angular_length self)
           (drop (p * per_species_angular_length self) (nth i (nth n angular []) []))
      = angular_block_row self c species (nth n (rows c) []) i
          (nth p pairs (""%string, ""%string)).
Proof.
  intros Hwf vocabulary size pairs.
  assert (combinations_with_replacement vocabulary = pairs) as Henum
    by apply combinations_with_replacement_enum.
  split; [exact Henum|]. split.
  - rewrite <- Henum. unfold size. clear. induction vocabulary as [|x t IH]; [done|].
    cbn [combinations_with_replacement length]. rewrite length_app, length_fmap, IH.
    cbn [length].
    replace (S (length t) * (S (length t) + 1))
      with (length t * (length t + 1) + S (length t) * 2) by lia.
    rewrite Nat.div_add by done. lia.
  - intros radial angular Hc n i p Hn Hi Hp.
    destruct (NeighborAEV_call_cases self c species Hwf) as [E|E]; [congruence|].
    rewrite E in Hc. injection Hc as <- <-. rewrite <- Henum in Hp |- *.
    by apply angular_expected_block.
Qed.

Lemma species_pair_order_witness :
  tensor_wf scenario_A_coordinates ∧
  combinations_with_replacement (self_species scenario_A_engine)
  = [("H"%string, "H"%string)] ∧
  ∃ radial angular,
    NeighborAEV_call scenario_A_engine scenario_A_coordinates scenario_A_species
    = Some (radial, angular) ∧
    take 1 (drop (0 * 1) (nth 0 (nth 0 angular []) []))
    = angular_block_row scenario_A_engine scenario_A_coordinates scenario_A_species
        (nth 0 (rows scenario_A_coordinates) []) 0 ("H"%string, "H"%string).
Proof.
  assert (tensor_wf scenario_A_coordinates) as Hwf by apply scenario_A_valid.
  destruct (species_pair_order scenario_A_engine scenario_A_coordinates
              scenario_A_species Hwf) as (Henum & _ & Hblock).
  split; [exact Hwf|]. split; [exact Henum|]. eexists _, _.
  split; [apply (NeighborAEV_call_closed _ _ _ scenario_A_engine_ok scenario_A_valid)|].
  apply (Hblock _ _
           (NeighborAEV_call_closed _ _ _ scenario_A_engine_ok scenario_A_valid) 0 0 0);
    simpl; lia.
Defined.
